(** * parallel-compressor-go: the LZ codec, the block engine, the PCZ2
      container header, the BSP partition and the Chase-Lev deque.

    Shallow embedding of [core/lz.go], [core/format.go], the block loops of
    the three drivers and [core/wsdeque.go].

    Conventions.
    - A Go [byte] is a [Byte.byte]; a [[]byte] is a [list byte].
    - A Go [int] (64 bit) that holds a slice index or a slice length is a [Z];
      such values never leave [0, len + 255], so no wrap-around is written for
      them.  [uint16], [uint32] and [uint64] values are [Z] with the
      wrap-around written out where the code computes on them.
    - A slice access [s[i]] is a partial lookup; a miss is the run-time panic
      [Panic] of the outcome type below. *)

From Stdlib Require Import ZArith Lia Bool.
From Stdlib Require Import Strings.Byte.
From stdpp Require Import base tactics option list.

Local Open Scope Z_scope.

(** ** Outcomes of a Go function call *)

(** Errors the core returns ([fmt.Errorf] values, by their message). *)
Inductive error : Type :=
  | ErrTruncatedLiteral
  | ErrTruncatedMatch
  | ErrInvalidMatchOffset (offset outLen : Z)
  | ErrInvalidTokenFlag (flag : byte)
  | ErrSizeMismatch (got expected : Z)
  | ErrFilenameTooLong
  | ErrBlockCountMismatch
  | ErrInvalidMagic
  | ErrShortRead
  | ErrInvalidCompSize (blockIndex : Z)
  | ErrEmptyBlock (blockIndex : Z)
  | ErrRawSizeMismatch (blockIndex got expected : Z)
  | ErrUnknownMode (mode : byte) (blockIndex : Z)
  | ErrReadHeader (cause : error)
  | ErrReadBlock (blockIndex : Z) (cause : error)
  | ErrReadPayload (cause : error)
  | ErrDecompressBlock (blockIndex : Z) (cause : error).

(** A call returns a value, returns an error, panics (index out of range), or,
    in the model only, uses up the fuel of a loop. *)
Inductive outcome (A : Type) : Type :=
  | Done (a : A)
  | Fail (e : error)
  | Panic
  | OutOfFuel.

Arguments Done {A} a.
Arguments Fail {A} e.
Arguments Panic {A}.
Arguments OutOfFuel {A}.

Definition bind {A B : Type} (m : outcome A) (k : A -> outcome B) : outcome B :=
  match m with
  | Done a => k a
  | Fail e => Fail e
  | Panic => Panic
  | OutOfFuel => OutOfFuel
  end.

Notation "x <-- m ;; k" := (bind m (fun x => k))
  (at level 100, m at next level, right associativity).

(** ** Bytes and slices *)

#[global] Instance byte_eq_decision : EqDecision byte := Byte.byte_eq_dec.

Definition byteZ (b : byte) : Z := Z.of_N (Byte.to_N b).

(** The Go conversion [byte(v)]: the low eight bits. *)
Definition toByte (v : Z) : byte :=
  match Byte.of_N (Z.to_N (v mod 256)) with
  | Some b => b
  | None => "000"%byte
  end.

Definition len {A : Type} (s : list A) : Z := Z.of_nat (length s).

(** [s[i]], with the bounds check of the Go run time. *)
Definition index {A : Type} (s : list A) (i : Z) : outcome A :=
  if (i <? 0) || (len s <=? i) then Panic
  else match s !! Z.to_nat i with
       | Some a => Done a
       | None => Panic
       end.

(** [s[i] = v], with the bounds check of the Go run time. *)
Definition store {A : Type} (s : list A) (i : Z) (v : A) : outcome (list A) :=
  if (i <? 0) || (len s <=? i) then Panic
  else Done (<[Z.to_nat i := v]> s).

(** ** core/lz.go *)

Definition lzWindowSize : Z := 65535.
Definition lzMinMatch : Z := 4.
Definition lzMaxMatch : Z := 255.
Definition hashBits : Z := 14.
Definition hashSize : Z := Z.shiftl 1 hashBits.

Definition uint32 (v : Z) : Z := v mod 2 ^ 32.

(** Lines 39-40: the key of four bytes, in [uint32] arithmetic. *)
Definition lzHash (b0 b1 b2 b3 : byte) : Z :=
  let h := Z.lxor (Z.lxor (Z.lxor (uint32 (Z.shiftl (byteZ b0) 24))
                                  (uint32 (Z.shiftl (byteZ b1) 16)))
                          (uint32 (Z.shiftl (byteZ b2) 8)))
                  (byteZ b3) in
  Z.shiftr (uint32 (h * 0x1e35a7bd)) (32 - hashBits).

(** What the encoder appends to [out] in one step. *)
Inductive token : Type :=
  | Literal (b : byte)
  | Match (offset matchLen : Z).

(** The bytes of one token, as lines 33, 64 and 72 append them. *)
Definition tokenBytes (t : token) : list byte :=
  match t with
  | Literal b => ["000"%byte; b]
  | Match offset matchLen =>
      ["001"%byte; toByte (Z.land offset 0xFF); toByte (Z.shiftr offset 8);
       toByte matchLen]
  end.

(** [input[a] == input[b]], left operand first. *)
Definition sameAt (input : list byte) (a b : Z) : outcome bool :=
  x <-- index input a ;;
  y <-- index input b ;;
  Done (Byte.eqb x y).

(** Lines 49-52: the four comparisons, joined by the short-circuit [&&]. *)
Definition lzCheck4 (input : list byte) (candidate i : Z) : outcome bool :=
  e0 <-- sameAt input candidate i ;;
  if negb e0 then Done false else
  e1 <-- sameAt input (candidate + 1) (i + 1) ;;
  if negb e1 then Done false else
  e2 <-- sameAt input (candidate + 2) (i + 2) ;;
  if negb e2 then Done false else
  sameAt input (candidate + 3) (i + 3).

(** Lines 55-60: the extension loop; [fuel] bounds its iterations. *)
Fixpoint lzExtend (fuel : nat) (input : list byte) (candidate i matchLen : Z)
  : outcome Z :=
  if (i + matchLen <? len input) && (candidate + matchLen <? len input)
     && (matchLen <? lzMaxMatch)
  then
    e <-- sameAt input (candidate + matchLen) (i + matchLen) ;;
    if e then
      match fuel with
      | O => OutOfFuel
      | S fuel' => lzExtend fuel' input candidate i (matchLen + 1)
      end
    else Done matchLen
  else Done matchLen.

(** Lines 31-74: the main loop.  [out] holds the tokens appended so far, in
    order; the byte slice of the source is their concatenated [tokenBytes]. *)
Fixpoint lzLoop (fuel : nat) (input : list byte) (table : list Z) (i : Z)
  (out : list token) : outcome (list token) :=
  if negb (i <? len input) then Done out else
  match fuel with
  | O => OutOfFuel
  | S fuel' =>
    if len input <? i + lzMinMatch then
      b <-- index input i ;;
      lzLoop fuel' input table (i + 1) (out ++ [Literal b])
    else
      b0 <-- index input i ;;
      b1 <-- index input (i + 1) ;;
      b2 <-- index input (i + 2) ;;
      b3 <-- index input (i + 3) ;;
      let h := lzHash b0 b1 b2 b3 in
      candidate <-- index table h ;;
      table' <-- store table h i ;;
      hit <-- (if negb (candidate =? -1) && (i - candidate <? lzWindowSize)
                  && (0 <? i - candidate)
               then lzCheck4 input candidate i
               else Done false) ;;
      if hit then
        matchLen <-- lzExtend (Z.to_nat lzMaxMatch) input candidate i 4 ;;
        let offset := i - candidate in
        lzLoop fuel' input table' (i + matchLen) (out ++ [Match offset matchLen])
      else
        b <-- index input i ;;
        lzLoop fuel' input table' (i + 1) (out ++ [Literal b])
  end.

(** The tokens [lzCompressTokens] emits on [input]. *)
Definition lzTokens (input : list byte) : outcome (list token) :=
  if len input =? 0 then Done []
  else lzLoop (length input) input (replicate (Z.to_nat hashSize) (-1)) 0 [].

(** [lzCompressTokens], lines 16-77. *)
Definition lzCompressTokens (input : list byte) : outcome (list byte) :=
  out <-- lzTokens input ;;
  Done (concat (map tokenBytes out)).

(** Lines 112-115: the byte-wise copy of a match, [n] iterations left,
    [j] the loop counter. *)
Fixpoint lzCopy (n : nat) (out : list byte) (start j : Z) : outcome (list byte) :=
  match n with
  | O => Done out
  | S n' =>
      b <-- index out (start + j) ;;
      lzCopy n' (out ++ [b]) start (j + 1)
  end.

(** Lines 104-115: one match token with operand bytes [lo], [hi], [l],
    decoded against the output [out]. *)
Definition lzDecodeMatch (out : list byte) (lo hi l : byte) : outcome (list byte) :=
  let offset := Z.lor (byteZ lo) (Z.shiftl (byteZ hi) 8) in
  let length := byteZ l in
  if (offset <=? 0) || (len out <? offset)
  then Fail (ErrInvalidMatchOffset offset (len out))
  else
    let start := len out - offset in
    lzCopy (Z.to_nat length) out start 0.

(** Lines 88-120: the decoding loop.  The cursor [i] of the source is the
    suffix [tokens[i:]] that is still to be read. *)
Fixpoint lzDecodeLoop (tokens : list byte) (out : list byte) : outcome (list byte) :=
  match tokens with
  | [] => Done out
  | flag :: rest =>
      if Byte.eqb flag "000" then
        match rest with
        | [] => Fail ErrTruncatedLiteral
        | b :: rest' => lzDecodeLoop rest' (out ++ [b])
        end
      else if Byte.eqb flag "001" then
        match rest with
        | lo :: hi :: l :: rest' =>
            out' <-- lzDecodeMatch out lo hi l ;;
            lzDecodeLoop rest' out'
        | _ => Fail ErrTruncatedMatch
        end
      else Fail (ErrInvalidTokenFlag flag)
  end.

(** [lzDecompressTokens], lines 80-126. *)
Definition lzDecompressTokens (tokens : list byte) (expectedSize : Z)
  : outcome (list byte) :=
  if (len tokens =? 0) && (expectedSize =? 0) then Done []
  else
    out <-- lzDecodeLoop tokens [] ;;
    if negb (len out =? expectedSize)
    then Fail (ErrSizeMismatch (len out) expectedSize)
    else Done out.

(** ** The block engine *)

(** The per-block encoder: sequential driver lines 89-100, and the same lines
    in the BSP driver (99-109) and the work-stealing driver (146-158). *)
Definition encodeBlock (buf : list byte) : outcome (list byte) :=
  tokens <-- lzCompressTokens buf ;;
  if len buf + 1 <=? len tokens + 1
  then Done ("255"%byte :: buf)
  else Done ("000"%byte :: tokens).

(** ** core/format.go *)

Definition magic : list byte := ["P"%byte; "C"%byte; "Z"%byte; "2"%byte].

Definition uint16 (v : Z) : Z := v mod 2 ^ 16.
Definition uint64 (v : Z) : Z := v mod 2 ^ 64.

(** The conversions [int(v)] and [int64(v)] of an unsigned 64-bit value. *)
Definition int64 (v : Z) : Z := (v + 2 ^ 63) mod 2 ^ 64 - 2 ^ 63.

Record FileHeader : Type := mkFileHeader {
  Filename : list byte;        (* a Go string: its bytes *)
  OriginalSize : Z;            (* uint64 *)
  BlockSize : Z;               (* uint32 *)
  NumBlocks : Z;               (* uint64 *)
  BlockCompSizes : list Z      (* []uint64 *)
}.

(** [binary.LittleEndian]: an unsigned integer as [n] bytes, low byte first. *)
Fixpoint leBytes (n : nat) (v : Z) : list byte :=
  match n with
  | O => []
  | S n' => toByte v :: leBytes n' (Z.shiftr v 8)
  end.

Fixpoint leValue (bs : list byte) : Z :=
  match bs with
  | [] => 0
  | b :: bs' => Z.lor (byteZ b) (Z.shiftl (leValue bs') 8)
  end.

(** [WriteHeader], lines 20-59, on a writer that appends to the buffer [w]
    and never fails.  Returns the buffer and the error, if any. *)
Definition WriteHeader (w : list byte) (h : FileHeader) : list byte * option error :=
  let w := w ++ magic in
  let nameBytes := Filename h in
  if 0xFFFF <? len nameBytes then (w, Some ErrFilenameTooLong) else
  let w := w ++ leBytes 2 (uint16 (len nameBytes)) in
  let w := w ++ leBytes 8 (OriginalSize h) in
  let w := w ++ nameBytes in
  let w := w ++ leBytes 4 (BlockSize h) in
  let w := w ++ leBytes 8 (NumBlocks h) in
  if negb (uint64 (len (BlockCompSizes h)) =? NumBlocks h)
  then (w, Some ErrBlockCountMismatch)
  else (w ++ concat (map (leBytes 8) (BlockCompSizes h)), None).

(** [io.ReadFull] of [n] bytes from the reader [r]: the bytes and the rest of
    the reader, or the error of a short read. *)
Definition readFull (r : list byte) (n : Z) : outcome (list byte * list byte) :=
  if len r <? n then Fail ErrShortRead
  else Done (take (Z.to_nat n) r, drop (Z.to_nat n) r).

(** [binary.Read] of an unsigned little-endian integer of [n] bytes. *)
Definition readLE (r : list byte) (n : nat) : outcome (Z * list byte) :=
  p <-- readFull r (Z.of_nat n) ;;
  Done (leValue p.1, p.2).

(** Lines 97-101: the loop that fills [blockSizes], [n] entries left. *)
Fixpoint readSizes (n : nat) (r : list byte) : outcome (list Z * list byte) :=
  match n with
  | O => Done ([], r)
  | S n' =>
      p <-- readLE r 8 ;;
      q <-- readSizes n' p.2 ;;
      Done (p.1 :: q.1, q.2)
  end.

(** [ReadHeader], lines 62-110: the header and the rest of the reader. *)
Definition ReadHeader (r : list byte) : outcome (FileHeader * list byte) :=
  m <-- readFull r 4 ;;
  if negb (bool_decide (m.1 = magic)) then Fail ErrInvalidMagic else
  nameLen <-- readLE m.2 2 ;;
  originalSize <-- readLE nameLen.2 8 ;;
  nameBytes <-- readFull originalSize.2 nameLen.1 ;;
  blockSize <-- readLE nameBytes.2 4 ;;
  numBlocks <-- readLE blockSize.2 8 ;;
  blockSizes <-- readSizes (Z.to_nat numBlocks.1) numBlocks.2 ;;
  Done (mkFileHeader nameBytes.1 originalSize.1 blockSize.1 numBlocks.1
          blockSizes.1, blockSizes.2).

(** ** What a token stream says about the input *)

(** The number of input bytes a token stands for. *)
Definition tokenSpan (t : token) : Z :=
  match t with
  | Literal _ => 1
  | Match _ matchLen => matchLen
  end.

Definition span (toks : list token) : Z :=
  foldr (fun t n => tokenSpan t + n) 0 toks.

(** [tokensFrom input i toks]: read from position [i] of [input], the tokens
    [toks] describe [input[i:]] exactly.  A literal carries the byte at its
    position; a match of [matchLen] bytes at distance [offset] starts inside
    the bytes before its position and repeats them. *)
Fixpoint tokensFrom (input : list byte) (i : Z) (toks : list token) : Prop :=
  match toks with
  | [] => i = len input
  | Literal b :: toks' =>
      index input i = Done b /\ tokensFrom input (i + 1) toks'
  | Match offset matchLen :: toks' =>
      1 <= offset <= i /\ offset < lzWindowSize /\
      lzMinMatch <= matchLen <= lzMaxMatch /\ i + matchLen <= len input /\
      (forall j, 0 <= j < matchLen ->
                 index input (i - offset + j) = index input (i + j)) /\
      tokensFrom input (i + matchLen) toks'
  end.

(** The hash table holds [-1] or a position before the cursor [i]. *)
Definition tableOk (table : list Z) (i : Z) : Prop :=
  len table = hashSize /\ Forall (fun c => c = -1 \/ 0 <= c < i) table.

(** No match of the stream copies from its own output: every match has
    [matchLen <= offset]. *)
Definition noSelfOverlap (toks : list token) : Prop :=
  Forall (fun t => match t with
                   | Literal _ => True
                   | Match offset matchLen => matchLen <= offset
                   end) toks.

(** A block of 1024 bytes, all [0x00]. *)
Definition zeros1024 : list byte := replicate 1024 "000"%byte.

(** A header the types of [FileHeader] admit, that [WriteHeader] accepts:
    every field is in the range of its Go type, the file name has at most
    65535 bytes and the size table has [NumBlocks] entries. *)
Definition validHeader (h : FileHeader) : Prop :=
  len (Filename h) <= 65535 /\
  0 <= OriginalSize h < 2 ^ 64 /\
  0 <= BlockSize h < 2 ^ 32 /\
  0 <= NumBlocks h < 2 ^ 64 /\
  Forall (fun s => 0 <= s < 2 ^ 64) (BlockCompSizes h) /\
  len (BlockCompSizes h) = NumBlocks h.

(** ** The BSP driver: the partition of the block indices *)

(** Lines 14-16 and 68-70: the worker count after normalisation. *)
Definition bspThreads (threads numBlocks : Z) : Z :=
  let threads := if threads <=? 0 then 1 else threads in
  if numBlocks <? threads then numBlocks else threads.

(** Lines 76-79.  Go's [/] and [%] on [int] truncate: [Z.quot], [Z.rem]. *)
Definition bspChunkSize (numBlocks threads : Z) : Z :=
  let chunkSize := Z.quot numBlocks threads in
  if negb (Z.rem numBlocks threads =? 0) then chunkSize + 1 else chunkSize.

(** Lines 85-94: the bounds [start], [end] of worker [id]. *)
Definition bspRange (numBlocks chunkSize id : Z) : Z * Z :=
  let start := id * chunkSize in
  let end_ := start + chunkSize in
  let '(start, end_) := if numBlocks <=? start then (0, 0) else (start, end_) in
  let end_ := if numBlocks <? end_ then numBlocks else end_ in
  (start, end_).

(** Line 96: worker [id] runs [idx] from [start] up to, not including, [end]. *)
Definition bspOwns (numBlocks threads id idx : Z) : Prop :=
  let T := bspThreads threads numBlocks in
  let r := bspRange numBlocks (bspChunkSize numBlocks T) id in
  r.1 <= idx < r.2.

(** ** The decompressors

    A decompressor is run on the bytes [file] of the container; its result is
    the content of the output file.  Opening, creating and writing files
    succeed in the model, and a slice that [make] is asked for is allocated
    when its length fits an [int].  When a decompressor returns an error the
    bytes it wrote before are not part of the outcome. *)

(** Sequential driver, lines 159-207: the block loop, [n] iterations left. *)
Fixpoint seqDecodeBlocks (n : nat) (h : FileHeader) (r : list byte)
  (blockIndex : Z) (out : list byte) : outcome (list byte) :=
  match n with
  | O => Done out
  | S n' =>
    let blockSize := BlockSize h in
    let numBlocks := int64 (NumBlocks h) in
    let originalSize := int64 (OriginalSize h) in
    compSize <-- index (BlockCompSizes h) blockIndex ;;
    if compSize =? 0 then Fail (ErrInvalidCompSize blockIndex) else
    if 2 ^ 63 <=? compSize then Panic else
    match readFull r compSize with
    | Fail e => Fail (ErrReadBlock blockIndex e)
    | Panic => Panic
    | OutOfFuel => OutOfFuel
    | Done (compBuf, r') =>
      if len compBuf =? 0 then Fail (ErrEmptyBlock blockIndex) else
      let expectedOrigSize :=
        if blockIndex <? numBlocks - 1 then blockSize
        else
          let fullBlocksSize := int64 (blockSize * int64 (numBlocks - 1)) in
          int64 (originalSize - fullBlocksSize) in
      mode <-- index compBuf 0 ;;
      let data := drop 1 compBuf in
      if Byte.eqb mode "255" then
        if negb (len data =? expectedOrigSize)
        then Fail (ErrRawSizeMismatch blockIndex (len data) expectedOrigSize)
        else seqDecodeBlocks n' h r' (blockIndex + 1) (out ++ data)
      else if Byte.eqb mode "000" then
        match lzDecompressTokens data expectedOrigSize with
        | Fail e => Fail (ErrDecompressBlock blockIndex e)
        | Panic => Panic
        | OutOfFuel => OutOfFuel
        | Done decompressed =>
            seqDecodeBlocks n' h r' (blockIndex + 1) (out ++ decompressed)
        end
      else Fail (ErrUnknownMode mode blockIndex)
    end
  end.

(** [SequentialDecompressFile], lines 133-209. *)
Definition SequentialDecompressFile (file : list byte) : outcome (list byte) :=
  match ReadHeader file with
  | Fail e => Fail (ErrReadHeader e)
  | Panic => Panic
  | OutOfFuel => OutOfFuel
  | Done (header, r) =>
      if (OriginalSize header =? 0) || (NumBlocks header =? 0) then Done []
      else
        let numBlocks := int64 (NumBlocks header) in
        seqDecodeBlocks (Z.to_nat numBlocks) header r 0 []
  end.

Section ParallelDecompressors.
(** What a parallel decompressor does once it has found the header not
    empty (BSP driver lines 171-296, work-stealing driver lines 216-358):
    read the payload, run the workers, write the output buffer.  It is a
    function of the header, the rest of the file and the thread count; the
    claims proved here do not depend on it. *)
Variable decodePayload : FileHeader -> list byte -> Z -> outcome (list byte).

(** [BSPDecompressFile], lines 146-169, then [decodePayload]. *)
Definition BSPDecompressFile (file : list byte) (threads : Z)
  : outcome (list byte) :=
  let threads := if threads <=? 0 then 1 else threads in
  match ReadHeader file with
  | Fail e => Fail (ErrReadHeader e)
  | Panic => Panic
  | OutOfFuel => OutOfFuel
  | Done (header, r) =>
      if (OriginalSize header =? 0) || (NumBlocks header =? 0) then Done []
      else decodePayload header r threads
  end.

(** [WorkStealingDecompressFile], lines 191-214, then [decodePayload]. *)
Definition WorkStealingDecompressFile (file : list byte) (threads : Z)
  : outcome (list byte) :=
  let threads := if threads <=? 0 then 1 else threads in
  match ReadHeader file with
  | Fail e => Fail (ErrReadHeader e)
  | Panic => Panic
  | OutOfFuel => OutOfFuel
  | Done (h, r) =>
      if (OriginalSize h =? 0) || (NumBlocks h =? 0) then Done []
      else decodePayload h r threads
  end.
End ParallelDecompressors.

(** A container with [original_size = 5], [num_blocks = 0], no size table and
    no payload: magic, name length 1, original size, name ["f"], block size
    1 MiB, block count 0. *)
Definition sizeWithoutBlocks : list byte :=
  magic ++ leBytes 2 1 ++ leBytes 8 5 ++ ["f"%byte] ++ leBytes 4 1048576
        ++ leBytes 8 0.

(** ** core/wsdeque.go

    The deque is shared by one owner and any number of thieves.  Its counters
    are [atomic.Uint64], whose operations are sequentially consistent, so a
    run is an interleaving of the threads' accesses to the shared fields; each
    access ([Load], [Store], [CompareAndSwap], a read or a write of a slot of
    [tasks]) is one step.  A thread is described by the point it has reached
    in the method it runs and by the locals it holds there. *)

Module Deque.

Record WSDeque : Type := mkWSDeque {
  tasks : list Z;     (* []int *)
  mask : Z;           (* uint64 *)
  top : Z;            (* atomic.Uint64 *)
  bottom : Z          (* atomic.Uint64 *)
}.

(** [nextPow2], lines 25-34. *)
Definition nextPow2 (n : Z) : Z :=
  let x := uint64 (n - 1) in
  let x := Z.lor x (Z.shiftr x 1) in
  let x := Z.lor x (Z.shiftr x 2) in
  let x := Z.lor x (Z.shiftr x 4) in
  let x := Z.lor x (Z.shiftr x 8) in
  let x := Z.lor x (Z.shiftr x 16) in
  let x := Z.lor x (Z.shiftr x 32) in
  int64 (uint64 (x + 1)).

(** [NewWSDeque], lines 37-46.  ([make] panics on a negative [size]; a
    [capacity] of at most [2^62] keeps [size] positive.) *)
Definition NewWSDeque (capacity : Z) : WSDeque :=
  let capacity := if capacity <=? 0 then 1 else capacity in
  let size := nextPow2 capacity in
  mkWSDeque (replicate (Z.to_nat size) 0) (uint64 (size - 1)) 0 0.

Definition setTasks (d : WSDeque) (ts : list Z) : WSDeque :=
  mkWSDeque ts (mask d) (top d) (bottom d).
Definition setTop (d : WSDeque) (t : Z) : WSDeque :=
  mkWSDeque (tasks d) (mask d) t (bottom d).
Definition setBottom (d : WSDeque) (b : Z) : WSDeque :=
  mkWSDeque (tasks d) (mask d) (top d) b.

(** [d.top.CompareAndSwap(old, new)]: the deque after it, and its result. *)
Definition casTop (d : WSDeque) (old new : Z) : WSDeque * bool :=
  if top d =? old then (setTop d new, true) else (d, false).

(** The three methods as the source writes them, each run from its first
    access to its return with no access of another thread in between. *)

(** [PushBottom], lines 49-53, run without interference. *)
Definition PushBottom (d : WSDeque) (task : Z) : outcome WSDeque :=
  let b := bottom d in
  ts <-- store (tasks d) (Z.land b (mask d)) task ;;
  Done (setBottom (setTasks d ts) (uint64 (b + 1))).

(** [PopBottom], lines 56-79, run without interference: the deque after the
    call and the pair it returns. *)
Definition PopBottom (d : WSDeque) : outcome (WSDeque * (Z * bool)) :=
  let b := bottom d in
  if b =? 0 then Done (d, (0, false)) else
  let b := uint64 (b - 1) in
  let d := setBottom d b in
  let t := top d in
  if t <=? b then
    task <-- index (tasks d) (Z.land b (mask d)) ;;
    if t =? b then
      let '(d, swapped) := casTop d t (uint64 (t + 1)) in
      if negb swapped then Done (setBottom d (uint64 (b + 1)), (0, false))
      else Done (setBottom d (uint64 (b + 1)), (task, true))
    else Done (d, (task, true))
  else Done (setBottom d (uint64 (b + 1)), (0, false)).

(** [Steal], lines 82-93, run without interference. *)
Definition Steal (d : WSDeque) : outcome (WSDeque * (Z * bool)) :=
  let t := top d in
  let b := bottom d in
  if b <=? t then Done (d, (0, false)) else
  task <-- index (tasks d) (Z.land t (mask d)) ;;
  let '(d, swapped) := casTop d t (uint64 (t + 1)) in
  if negb swapped then Done (d, (0, false))
  else Done (d, (task, true)).

(** Where the owner stands: outside a call, or inside [PushBottom] or
    [PopBottom] before its next access, with the locals [task], [b], [t]. *)
Inductive ownerPc : Type :=
  | OIdle
  | OPush1 (task b : Z)        (* before [d.tasks[b&d.mask] = task] *)
  | OPush2 (task b : Z)        (* before [d.bottom.Store(b + 1)] *)
  | OPop1 (b : Z)              (* [b] decremented; before [d.bottom.Store(b)] *)
  | OPop2 (b : Z)              (* before [t := d.top.Load()] *)
  | OPop3 (b t : Z)            (* [t <= b]; before [task := d.tasks[b&d.mask]] *)
  | OPopCas (b t task : Z)     (* [t == b]; before the [CompareAndSwap] *)
  | OPopWon (b task : Z)       (* swap done; before [d.bottom.Store(b + 1)], line 72 *)
  | OPopRestore (b : Z).       (* before [d.bottom.Store(b + 1)], lines 69 and 77 *)

(** Where a thief stands in [Steal]. *)
Inductive thiefPc : Type :=
  | TIdle
  | TSteal1 (t : Z)            (* before [b := d.bottom.Load()] *)
  | TSteal2 (t : Z)            (* [t < b]; before [task := d.tasks[t&d.mask]] *)
  | TSteal3 (t task : Z).      (* before the [CompareAndSwap] *)

(** What the scheduler picks next: the owner, idle, enters a call; the owner
    makes the next access of its call; thief [i] makes its next access (the
    first one of a new [Steal] when it is idle). *)
Inductive action : Type :=
  | CallPush (task : Z)
  | CallPop
  | OwnerStep
  | ThiefStep (i : nat).

(** What a call returns. *)
Inductive event : Type :=
  | Pushed (task : Z)          (* [PushBottom(task)] returned *)
  | Popped (task : Z)          (* [PopBottom] returned [task, true] *)
  | PopEmpty                   (* [PopBottom] returned [0, false] *)
  | Stolen (task : Z)          (* [Steal] returned [task, true] *)
  | StealEmpty.                (* [Steal] returned [0, false] *)

(** The event of a returned pair [task, ok]. *)
Definition popEvent (r : Z * bool) : event :=
  if r.2 then Popped r.1 else PopEmpty.

Definition stealEvent (r : Z * bool) : event :=
  if r.2 then Stolen r.1 else StealEmpty.

(** One access of the owner.  A choice that does not fit the owner's point
    changes nothing. *)
Definition ownerStep (d : WSDeque) (pc : ownerPc) (a : action)
  : outcome (WSDeque * ownerPc * list event) :=
  match pc, a with
  | OIdle, CallPush task =>
      let b := bottom d in
      Done (d, OPush1 task b, [])
  | OPush1 task b, OwnerStep =>
      ts <-- store (tasks d) (Z.land b (mask d)) task ;;
      Done (setTasks d ts, OPush2 task b, [])
  | OPush2 task b, OwnerStep =>
      Done (setBottom d (uint64 (b + 1)), OIdle, [Pushed task])
  | OIdle, CallPop =>
      let b := bottom d in
      if b =? 0 then Done (d, OIdle, [PopEmpty])
      else Done (d, OPop1 (uint64 (b - 1)), [])
  | OPop1 b, OwnerStep =>
      Done (setBottom d b, OPop2 b, [])
  | OPop2 b, OwnerStep =>
      let t := top d in
      if t <=? b then Done (d, OPop3 b t, [])
      else Done (d, OPopRestore b, [])
  | OPop3 b t, OwnerStep =>
      task <-- index (tasks d) (Z.land b (mask d)) ;;
      if t =? b then Done (d, OPopCas b t task, [])
      else Done (d, OIdle, [Popped task])
  | OPopCas b t task, OwnerStep =>
      let '(d', swapped) := casTop d t (uint64 (t + 1)) in
      if negb swapped then Done (d', OPopRestore b, [])
      else Done (d', OPopWon b task, [])
  | OPopWon b task, OwnerStep =>
      Done (setBottom d (uint64 (b + 1)), OIdle, [Popped task])
  | OPopRestore b, OwnerStep =>
      Done (setBottom d (uint64 (b + 1)), OIdle, [PopEmpty])
  | _, _ => Done (d, pc, [])
  end.

(** One access of a thief, lines 82-93. *)
Definition thiefStep (d : WSDeque) (pc : thiefPc)
  : outcome (WSDeque * thiefPc * list event) :=
  match pc with
  | TIdle =>
      let t := top d in
      Done (d, TSteal1 t, [])
  | TSteal1 t =>
      let b := bottom d in
      if b <=? t then Done (d, TIdle, [StealEmpty])
      else Done (d, TSteal2 t, [])
  | TSteal2 t =>
      task <-- index (tasks d) (Z.land t (mask d)) ;;
      Done (d, TSteal3 t task, [])
  | TSteal3 t task =>
      let '(d', swapped) := casTop d t (uint64 (t + 1)) in
      if negb swapped then Done (d', TIdle, [StealEmpty])
      else Done (d', TIdle, [Stolen task])
  end.

(** The deque and its threads.  [crashed] is set by an access of [tasks] out
    of range, which stops the program. *)
Record state : Type := mkState {
  deque : WSDeque;
  owner : ownerPc;
  thieves : list thiefPc;
  crashed : bool
}.

Definition crash (s : state) : state :=
  mkState (deque s) (owner s) (thieves s) true.

Definition step (s : state) (a : action) : state * list event :=
  if crashed s then (s, []) else
  match a with
  | ThiefStep i =>
      match thieves s !! i with
      | None => (s, [])
      | Some pc =>
          match thiefStep (deque s) pc with
          | Done (d', pc', evs) =>
              (mkState d' (owner s) (<[i := pc']> (thieves s)) false, evs)
          | _ => (crash s, [])
          end
      end
  | _ =>
      match ownerStep (deque s) (owner s) a with
      | Done (d', pc', evs) => (mkState d' pc' (thieves s) false, evs)
      | _ => (crash s, [])
      end
  end.

(** A run: the state after the schedule [sched], and what the calls returned,
    in order. *)
Fixpoint run (s : state) (sched : list action) : state * list event :=
  match sched with
  | [] => (s, [])
  | a :: sched' =>
      let '(s1, evs1) := step s a in
      let '(s2, evs2) := run s1 sched' in
      (s2, evs1 ++ evs2)
  end.

(** A new deque with [n] thieves, nobody inside a call. *)
Definition start (capacity : Z) (n : nat) : state :=
  mkState (NewWSDeque capacity) OIdle (replicate n TIdle) false.

(** The run never asks the deque for more than it holds: whenever the owner
    enters [PushBottom], fewer than [len tasks] tasks are in the deque, and
    the counter [bottom] is not at the end of its range. *)
Definition pushFits (s : state) (a : action) : Prop :=
  match a with
  | CallPush _ =>
      owner s = OIdle ->
      bottom (deque s) - top (deque s) < len (tasks (deque s)) /\
      bottom (deque s) + 1 < 2 ^ 64
  | _ => True
  end.

Fixpoint withinCapacity (s : state) (sched : list action) : Prop :=
  match sched with
  | [] => True
  | a :: sched' => pushFits s a /\ withinCapacity (step s a).1 sched'
  end.

Definition pushed (evs : list event) : list Z :=
  omap (fun e => match e with Pushed x => Some x | _ => None end) evs.

Definition returned (evs : list event) : list Z :=
  omap (fun e => match e with
                 | Popped x | Stolen x => Some x
                 | _ => None
                 end) evs.

(** The task in the slot of position [k]. *)
Definition slot (d : WSDeque) (k : Z) : Z :=
  default 0 (tasks d !! Z.to_nat (Z.land k (mask d))).

(** The tasks in the slots of the positions [lo, hi). *)
Definition slots (d : WSDeque) (lo hi : Z) : list Z :=
  map (slot d) (seqZ lo (hi - lo)).

(** Nobody is inside a call. *)
Definition quiescent (s : state) : Prop :=
  owner s = OIdle /\ Forall (fun pc => pc = TIdle) (thieves s).

(** *** The invariant of the runs *)

(** [mask] is [2^n - 1] and [tasks] has [2^n] slots. *)
Definition wfDeque (d : WSDeque) : Prop :=
  exists n, 0 <= n /\ mask d = Z.ones n /\ len (tasks d) = 2 ^ n.

(** The end of the positions that hold a task.  It is [bottom], but for the
    time [PopBottom] has [bottom] lowered: the task at the lowered [bottom]
    is in the deque until the owner or a thief has taken it. *)
Definition hiOf (d : WSDeque) (pc : ownerPc) : Z :=
  match pc with
  | OIdle | OPush1 _ _ | OPush2 _ _ => bottom d
  | OPop1 b | OPop2 b | OPop3 b _ | OPopCas b _ _ | OPopWon b _
  | OPopRestore b => b + 1
  end.

(** The end of the positions a thief may take: the last task is the owner's
    once the owner has seen [t < b]. *)
Definition limOf (d : WSDeque) (pc : ownerPc) : Z :=
  match pc with
  | OPop3 b t => if t <? b then b else b + 1
  | _ => hiOf d pc
  end.

(** The task the owner has taken and not yet returned. *)
Definition inflight (pc : ownerPc) : list Z :=
  match pc with
  | OPopWon _ task => [task]
  | _ => []
  end.

Definition ownerInv (d : WSDeque) (pc : ownerPc) : Prop :=
  match pc with
  | OIdle => True
  | OPush1 task b =>
      b = bottom d /\ bottom d - top d < len (tasks d) /\ bottom d + 1 < 2 ^ 64
  | OPush2 task b =>
      b = bottom d /\ bottom d - top d < len (tasks d) /\ bottom d + 1 < 2 ^ 64 /\
      slot d b = task
  | OPop1 b => bottom d = b + 1 /\ 0 <= b
  | OPop2 b => bottom d = b /\ 0 <= b
  | OPop3 b t =>
      bottom d = b /\ 0 <= t <= b /\ t <= top d /\ (t < b -> top d <= b)
  | OPopCas b t task =>
      bottom d = b /\ t = b /\ b <= top d /\ (top d = b -> task = slot d b)
  | OPopWon b task => bottom d = b /\ top d = b + 1
  | OPopRestore b => bottom d = b /\ top d = b + 1
  end.

Definition thiefInv (d : WSDeque) (lim : Z) (pc : thiefPc) : Prop :=
  match pc with
  | TIdle => True
  | TSteal1 t => 0 <= t <= top d
  | TSteal2 t => 0 <= t <= top d /\ (t = top d -> t < lim)
  | TSteal3 t task => 0 <= t <= top d /\ (t = top d -> t < lim /\ task = slot d t)
  end.

(** What holds of a state [s] reached by a run that returned [evs]: the tasks
    pushed are the tasks returned, the tasks in the deque and the task the
    owner is about to return, each as often as it was pushed. *)
Definition Inv (s : state) (evs : list event) : Prop :=
  let d := deque s in
  let hi := hiOf d (owner s) in
  crashed s = false /\
  wfDeque d /\
  0 <= top d <= hi /\ hi - top d <= len (tasks d) /\ hi < 2 ^ 64 /\
  ownerInv d (owner s) /\
  Forall (thiefInv d (limOf d (owner s))) (thieves s) /\
  pushed evs ≡ₚ returned evs ++ slots d (top d) hi ++ inflight (owner s).

(** Bit [i] of [y] is set exactly when a bit of [x] is set among the [w]
    positions from [i] on: what the shifts of [nextPow2] build up. *)
Definition smeared (x w y : Z) : Prop :=
  forall i, 0 <= i ->
    (Z.testbit y i = true <->
     exists j, i <= j < i + w /\ Z.testbit x j = true).

End Deque.


(** ** The sequential compressor *)

(** [SetBlockSizeBytes], lines 13-21: the value it leaves in
    [DefaultBlockSize]. *)
Definition SetBlockSizeBytes (n : Z) : Z :=
  let n := if n <? 4 * 1024 then 4 * 1024 else n in
  let n := if 4 * 1024 * 1024 <? n then 4 * 1024 * 1024 else n in
  n.

(** The errors a compressor returns: the error of [io.ReadFull] on a block of
    the input, the error of [WriteHeader]. *)
Inductive compressError : Type :=
  | ErrReadInput (blockIndex : Z) (cause : error)
  | ErrWriteHeader (cause : error).

(** [ceil (size / blockSize)], as line 70 computes it. *)
Definition numBlocksOf (size blockSize : Z) : Z :=
  Z.quot (int64 (size + blockSize - 1)) blockSize.

(** Sequential driver, lines 75-104: the block loop, [n] iterations left.
    [r] is what is left of the input file; [compressedBlocks] and
    [blockCompSizes] are the two slices made before the loop.  Returns the
    slices and the error, if any. *)
Fixpoint seqEncodeBlocks (n : nat) (blockSize numBlocks originalSize : Z)
  (r : list byte) (blockIndex : Z) (compressedBlocks : list (list byte))
  (blockCompSizes : list Z)
  : outcome (list (list byte) * list Z * option compressError) :=
  match n with
  | O => Done (compressedBlocks, blockCompSizes, None)
  | S n' =>
    let thisBlockSize :=
      if blockIndex <? numBlocks - 1 then blockSize
      else
        let remaining := int64 (originalSize - int64 (blockSize * (numBlocks - 1))) in
        remaining in
    if thisBlockSize <? 0 then Panic else
    match readFull r thisBlockSize with
    | Fail e =>
        Done (compressedBlocks, blockCompSizes, Some (ErrReadInput blockIndex e))
    | Panic => Panic
    | OutOfFuel => OutOfFuel
    | Done (buf, r') =>
        encoded <-- encodeBlock buf ;;
        compressedBlocks' <-- store compressedBlocks blockIndex encoded ;;
        blockCompSizes' <-- store blockCompSizes blockIndex (uint64 (len encoded)) ;;
        seqEncodeBlocks n' blockSize numBlocks originalSize r' (blockIndex + 1)
          compressedBlocks' blockCompSizes'
    end
  end.

(** [SequentialCompressFile], lines 28-129, on a regular file with the base
    name [name] and the content [data], with [DefaultBlockSize] as it is at
    the call.  Returns the content of the output file, if the call came to
    create it, and the error, if any.  A [DefaultBlockSize] of 0 makes the
    division of line 70 panic. *)
Definition SequentialCompressFile (name : list byte) (DefaultBlockSize : Z)
  (data : list byte) : outcome (option (list byte) * option compressError) :=
  let originalSize := len data in
  if originalSize =? 0 then
    let header := mkFileHeader name 0 DefaultBlockSize 0 [] in
    let '(out, err) := WriteHeader [] header in
    match err with
    | Some e => Done (Some out, Some (ErrWriteHeader e))
    | None => Done (Some out, None)
    end
  else
    let blockSize := DefaultBlockSize in
    if blockSize =? 0 then Panic else
    let numBlocks := numBlocksOf originalSize blockSize in
    if numBlocks <? 0 then Panic else
    let compressedBlocks := replicate (Z.to_nat numBlocks) [] in
    let blockCompSizes := replicate (Z.to_nat numBlocks) 0 in
    res <-- seqEncodeBlocks (Z.to_nat numBlocks) blockSize numBlocks originalSize
              data 0 compressedBlocks blockCompSizes ;;
    match res with
    | (_, _, Some e) => Done (None, Some e)
    | (compressedBlocks, blockCompSizes, None) =>
        let header := mkFileHeader name (uint64 originalSize) (uint32 blockSize)
                        (uint64 numBlocks) blockCompSizes in
        let '(out, err) := WriteHeader [] header in
        match err with
        | Some e => Done (Some out, Some (ErrWriteHeader e))
        | None => Done (Some (out ++ concat compressedBlocks), None)
        end
    end.

(** The sum of a size table. *)
Definition sumSizes (sizes : list Z) : Z := foldr Z.add 0 sizes.

(** The encoded blocks of [r], cut into [n] blocks of [blockSize] bytes, the
    last one shorter when [r] runs out. *)
Fixpoint encodedBlocks (n : nat) (blockSize : Z) (r : list byte)
  : list (list byte) :=
  match n with
  | O => []
  | S n' =>
      match encodeBlock (take (Z.to_nat blockSize) r) with
      | Done encoded =>
          encoded :: encodedBlocks n' blockSize (drop (Z.to_nat blockSize) r)
      | _ => []
      end
  end.

(** Where the block loops stand with [m] of the [n] blocks to go and [r] left
    of the [L] bytes of the data. *)
Definition blocksLeft (bs n L : Z) (m : nat) (r : list byte) : Prop :=
  Z.of_nat m <= n /\ len r <= bs * Z.of_nat m /\
  ((1 <= m)%nat ->
   L - bs * (n - Z.of_nat m) = len r /\ bs * (Z.of_nat m - 1) < len r).

(** ** The deque used by one thread

    What the deque holds between two calls, when no other call is in
    progress: the tasks at the positions [top, bottom), the oldest first. *)
Section DequeContent.
Import Deque.

Definition dequeTasks (d : WSDeque) : list Z := slots d (top d) (bottom d).

(** The deque is as [NewWSDeque] and the three methods leave it. *)
Definition dequeOk (d : WSDeque) : Prop :=
  wfDeque d /\ 0 <= top d <= bottom d /\
  bottom d - top d <= len (tasks d) /\ bottom d < 2 ^ 64.
End DequeContent.

(** ** core/worksteal.go: the deques and their first tasks *)
Section WorkStealingSeed.
Import Deque.

(** Lines 73-75 (decompressor: 245-247): block [idx] is pushed onto the deque
    [idx % threads]; [n] iterations left.  [deques] holds pointers, so the
    push is seen through the slice. *)
Fixpoint seedLoop (n : nat) (threads idx : Z) (deques : list WSDeque)
  : outcome (list WSDeque) :=
  match n with
  | O => Done deques
  | S n' =>
      if threads =? 0 then Panic else
      d <-- index deques (Z.rem idx threads) ;;
      d' <-- PushBottom d idx ;;
      deques <-- store deques (Z.rem idx threads) d' ;;
      seedLoop n' threads (idx + 1) deques
  end.

(** Lines 16-18 and 66-75 (decompressor: 192-194 and 238-247): the thread
    count, one deque a thread, the block indices handed out. *)
Definition seedDeques (numBlocks threads : Z) : outcome (list WSDeque) :=
  let threads := if threads <=? 0 then 1 else threads in
  let threads := if numBlocks <? threads then numBlocks else threads in
  if threads <? 0 then Panic else
  let deques :=
    replicate (Z.to_nat threads)
              (NewWSDeque (Z.quot (numBlocks + threads - 1) threads)) in
  seedLoop (Z.to_nat numBlocks) threads 0 deques.
(** What holds of the deques before block [idx] is handed out. *)
Definition seeded (T cap idx : Z) (deques : list WSDeque) : Prop :=
  len deques = T /\
  (forall w d, 0 <= w < T -> deques !! Z.to_nat w = Some d ->
     dequeOk d /\ top d = 0 /\ bottom d = (idx - w + T - 1) / T /\
     cap <= len (tasks d) /\
     dequeTasks d = map (fun i => w + i * T) (seqZ 0 (bottom d))) /\
  Permutation (concat (map dequeTasks deques)) (seqZ 0 idx).

End WorkStealingSeed.

(** ** The BSP compressor

    [BSPCompressFile] cuts the data into blocks, starts one goroutine a
    thread and waits for them.  The goroutines share the slices
    [compressedBlocks] and [blockCompSizes] and the barrier; a run is an
    interleaving of their steps, each step ending with one access of what
    they share.  The scheduler is a list of worker numbers. *)

(** [data[s:e]], with the bounds check of the Go run time. *)
Definition slice {A : Type} (data : list A) (s e : Z) : outcome (list A) :=
  if (s <? 0) || (e <? s) || (len data <? e) then Panic
  else Done (take (Z.to_nat (e - s)) (drop (Z.to_nat s) data)).

(** BSP driver, lines 55-63: the blocks of the data, [n] iterations left. *)
Fixpoint bspBlocks (n : nat) (data : list byte) (blockSize originalSize i : Z)
  (blocks : list (list byte)) : outcome (list (list byte)) :=
  match n with
  | O => Done blocks
  | S n' =>
      let s := int64 (i * blockSize) in
      let e := int64 (s + blockSize) in
      let e := if originalSize <? e then originalSize else e in
      b <-- slice data s e ;;
      blocks <-- store blocks i b ;;
      bspBlocks n' data blockSize originalSize (i + 1) blocks
  end.

Module BSP.

(** Where a worker stands in the goroutine of lines 82-115. *)
Inductive workerPc : Type :=
  | WLoop (idx end_ : Z)        (* before the test [idx < end], line 96 *)
  | WSize (idx end_ : Z) (enc : list byte)
                                (* before [blockCompSizes[idx] = ...], line 112 *)
  | WArrive                     (* before [barrier.Wait()], line 114 *)
  | WWaiting                    (* inside [b.cond.Wait()], barrier line 34 *)
  | WLeave                      (* [Wait] is about to return *)
  | WDone.                      (* the goroutine has returned, [wg.Done()] called *)

(** What the goroutines share.  [count] is the field of the barrier;
    [crashed] is set by a panic, which stops the program. *)
Record state : Type := mkState {
  compressedBlocks : list (list byte);
  blockCompSizes : list Z;
  count : Z;
  workers : list workerPc;
  crashed : bool
}.

Definition crash (s : state) : state :=
  mkState (compressedBlocks s) (blockCompSizes s) (count s) (workers s) true.

(** [b.cond.Broadcast()]: every goroutine inside [b.cond.Wait()] is woken. *)
Definition wake (pc : workerPc) : workerPc :=
  match pc with
  | WWaiting => WLeave
  | _ => pc
  end.

(** One step of worker [i], which stands at [pc].  [Barrier.Wait], barrier
    lines 23-36, holds the mutex from [b.count++] to the broadcast or to the
    call of [b.cond.Wait()], so that part is one step.  A worker inside
    [b.cond.Wait()] and a worker that has returned do not move. *)
Definition workerStep (blocks : list (list byte)) (total : Z) (s : state)
  (i : nat) (pc : workerPc) : outcome state :=
  match pc with
  | WLoop idx end_ =>
      if idx <? end_ then
        buf <-- index blocks idx ;;
        enc <-- encodeBlock buf ;;
        cbs <-- store (compressedBlocks s) idx enc ;;
        Done (mkState cbs (blockCompSizes s) (count s)
                (<[i := WSize idx end_ enc]> (workers s)) false)
      else
        Done (mkState (compressedBlocks s) (blockCompSizes s) (count s)
                (<[i := WArrive]> (workers s)) false)
  | WSize idx end_ enc =>
      sizes <-- store (blockCompSizes s) idx (uint64 (len enc)) ;;
      Done (mkState (compressedBlocks s) sizes (count s)
              (<[i := WLoop (idx + 1) end_]> (workers s)) false)
  | WArrive =>
      let count := count s + 1 in
      if count =? total then
        Done (mkState (compressedBlocks s) (blockCompSizes s) 0
                (<[i := WLeave]> (map wake (workers s))) false)
      else
        Done (mkState (compressedBlocks s) (blockCompSizes s) count
                (<[i := WWaiting]> (workers s)) false)
  | WLeave =>
      Done (mkState (compressedBlocks s) (blockCompSizes s) (count s)
              (<[i := WDone]> (workers s)) false)
  | WWaiting | WDone => Done s
  end.

Definition step (blocks : list (list byte)) (total : Z) (s : state) (i : nat)
  : state :=
  if crashed s then s else
  match workers s !! i with
  | None => s
  | Some pc =>
      match workerStep blocks total s i pc with
      | Done s' => s'
      | _ => crash s
      end
  end.

Definition run (blocks : list (list byte)) (total : Z) (s : state)
  (sched : list nat) : state :=
  fold_left (step blocks total) sched s.

Definition isDone (pc : workerPc) : bool :=
  match pc with
  | WDone => true
  | _ => false
  end.

(** Lines 81-94: worker [id] starts with the bounds of its partition. *)
Definition spawn (numBlocks chunkSize threads : Z) : list workerPc :=
  map (fun id => let '(start, end_) := bspRange numBlocks chunkSize id in
                 WLoop start end_)
      (seqZ 0 threads).

(** Lines 65-66, 71 and 81: the shared slices as [make] gives them, the
    barrier with nobody arrived, the workers started. *)
Definition start (numBlocks threads : Z) : state :=
  mkState (replicate (Z.to_nat numBlocks) []) (replicate (Z.to_nat numBlocks) 0)
          0 (spawn numBlocks (bspChunkSize numBlocks threads) threads) false.

(** *** The invariant of the runs *)

(** The blocks [lo, hi) have been encoded and stored, with their sizes. *)
Definition filled (encs : list (list byte)) (s : state) (lo hi : Z) : Prop :=
  forall j, lo <= j < hi ->
    exists e, encs !! Z.to_nat j = Some e /\
      compressedBlocks s !! Z.to_nat j = Some e /\
      blockCompSizes s !! Z.to_nat j = Some (len e).

Definition workerInv (encs : list (list byte)) (numBlocks chunkSize : Z)
  (s : state) (id : Z) (pc : workerPc) : Prop :=
  let r := bspRange numBlocks chunkSize id in
  match pc with
  | WLoop idx end_ => end_ = r.2 /\ r.1 <= idx <= r.2 /\ filled encs s r.1 idx
  | WSize idx end_ enc =>
      end_ = r.2 /\ r.1 <= idx < r.2 /\ filled encs s r.1 idx /\
      encs !! Z.to_nat idx = Some enc /\
      compressedBlocks s !! Z.to_nat idx = Some enc
  | _ => filled encs s r.1 r.2
  end.

Definition isWaiting (pc : workerPc) : bool :=
  match pc with
  | WWaiting => true
  | _ => false
  end.

(** The worker has not come out of [barrier.Wait()]. *)
Definition beforeBarrier (pc : workerPc) : bool :=
  match pc with
  | WLeave | WDone => false
  | _ => true
  end.

(** The worker can take a step. *)
Definition enabled (pc : workerPc) : bool :=
  match pc with
  | WWaiting | WDone => false
  | _ => true
  end.

Fixpoint waiting (ws : list workerPc) : Z :=
  match ws with
  | [] => 0
  | pc :: ws' => (if isWaiting pc then 1 else 0) + waiting ws'
  end.

Definition Inv (encs : list (list byte)) (numBlocks threads chunkSize : Z)
  (s : state) : Prop :=
  crashed s = false /\
  len (compressedBlocks s) = numBlocks /\ len (blockCompSizes s) = numBlocks /\
  len (workers s) = threads /\
  (forall id pc, workers s !! id = Some pc ->
     workerInv encs numBlocks chunkSize s (Z.of_nat id) pc) /\
  ((Forall (fun pc => beforeBarrier pc = true) (workers s) /\
    count s = waiting (workers s) /\ count s < threads) \/
   (Forall (fun pc => beforeBarrier pc = false) (workers s) /\ count s = 0)).

(** The steps a worker has before it. *)
Definition work (pc : workerPc) : nat :=
  match pc with
  | WLoop idx end_ => 2 * Z.to_nat (end_ - idx) + 3
  | WSize idx end_ _ => 2 * Z.to_nat (end_ - idx) + 2
  | WArrive => 2
  | WWaiting => 1
  | WLeave => 1
  | WDone => 0
  end.

Definition workLeft (s : state) : nat := sum_list (map work (workers s)).

End BSP.

(** The blocks of [r]: [n] blocks of [blockSize] bytes, the last one shorter
    when [r] runs out. *)
Fixpoint cutBlocks (n : nat) (blockSize : Z) (r : list byte)
  : list (list byte) :=
  match n with
  | O => []
  | S n' =>
      take (Z.to_nat blockSize) r
        :: cutBlocks n' blockSize (drop (Z.to_nat blockSize) r)
  end.

(** [BSPCompressFile], lines 13-141, on a regular file with the base name
    [name] and the content [data], with [DefaultBlockSize] as it is at the
    call, under the scheduler [sched].  Returns the content of the output
    file and the error, if any.  [wg.Wait()] returns when every goroutine has
    returned; a scheduler that ends before that leaves the call without a
    result, [OutOfFuel]. *)
Definition BSPCompressFile (name : list byte) (DefaultBlockSize : Z)
  (data : list byte) (threads : Z) (sched : list nat)
  : outcome (option (list byte) * option compressError) :=
  if len data =? 0 then
    let header := mkFileHeader name 0 DefaultBlockSize 0 [] in
    let '(out, err) := WriteHeader [] header in
    match err with
    | Some e => Done (Some out, Some (ErrWriteHeader e))
    | None => Done (Some out, None)
    end
  else
    let originalSize := len data in
    let blockSize := DefaultBlockSize in
    if blockSize =? 0 then Panic else
    let numBlocks := numBlocksOf originalSize blockSize in
    if numBlocks <? 0 then Panic else
    blocks <-- bspBlocks (Z.to_nat numBlocks) data blockSize originalSize 0
                 (replicate (Z.to_nat numBlocks) []) ;;
    let threads := bspThreads threads numBlocks in
    if threads <=? 0 then Panic else
    let s := BSP.run blocks threads (BSP.start numBlocks threads) sched in
    if BSP.crashed s then Panic else
    if negb (forallb BSP.isDone (BSP.workers s)) then OutOfFuel else
    let header := mkFileHeader name (uint64 originalSize) DefaultBlockSize
                    (uint64 numBlocks) (BSP.blockCompSizes s) in
    let '(out, err) := WriteHeader [] header in
    match err with
    | Some e => Done (Some out, Some (ErrWriteHeader e))
    | None => Done (Some (out ++ concat (BSP.compressedBlocks s)), None)
    end.

(** ** The BSP decompressor

    What [BSPDecompressFile] does with a header that is not empty, lines
    171-296: it reads the payload, starts one goroutine a thread and waits
    for them.  The goroutines share the output buffer [outBuf], the error
    [firstErr] behind its mutex and the barrier; the payload and the offsets
    are only read.  As for the compressor, a run is an interleaving of the
    workers' steps, each step ending with one access of what they share, and
    the scheduler is a list of worker numbers. *)

(** Lines 175-178: the sum of the size table, in [uint64]. *)
Definition totalSize (sizes : list Z) : Z :=
  fold_left (fun total s => uint64 (total + s)) sizes 0.

(** Lines 184-189: the offsets of the blocks in the payload, [n] iterations
    left. *)
Fixpoint bspOffsets (n : nat) (sizes : list Z) (i cur : Z) (offs : list Z)
  : outcome (list Z) :=
  match n with
  | O => Done offs
  | S n' =>
      offs <-- store offs i cur ;;
      s <-- index sizes i ;;
      bspOffsets n' sizes (i + 1) (uint64 (cur + s)) offs
  end.

(** [copy(outBuf[lo:hi], src)]: the bounds check of the slice expression,
    then as many bytes as both sides have. *)
Definition copyInto (outBuf : list byte) (lo hi : Z) (src : list byte)
  : outcome (list byte) :=
  if (lo <? 0) || (hi <? lo) || (len outBuf <? hi) then Panic
  else
    let n := Z.min (hi - lo) (len src) in
    Done (take (Z.to_nat lo) outBuf ++ take (Z.to_nat n) src
          ++ drop (Z.to_nat (lo + n)) outBuf).

Module BSPD.

(** Where a worker stands in the goroutine of lines 210-280. *)
Inductive workerPc : Type :=
  | DCheck (idx end_ : Z)     (* before the test [idx < end] and the look at
                                 [firstErr], lines 223-229 *)
  | DBlock (idx end_ : Z)     (* before block [idx] is decoded, lines 231-277 *)
  | DArrive                   (* before [barrier.Wait()], line 279 *)
  | DWaiting                  (* inside [b.cond.Wait()], barrier line 34 *)
  | DLeave                    (* [Wait] is about to return *)
  | DQuit                     (* returned from inside the loop; [wg.Done()] called *)
  | DDone.                    (* returned after the barrier; [wg.Done()] called *)

Record state : Type := mkState {
  outBuf : list byte;
  firstErr : option error;
  count : Z;
  workers : list workerPc;
  crashed : bool
}.

Definition crash (s : state) : state :=
  mkState (outBuf s) (firstErr s) (count s) (workers s) true.

Definition wake (pc : workerPc) : workerPc :=
  match pc with
  | DWaiting => DLeave
  | _ => pc
  end.

(** [if firstErr == nil { firstErr = e }], under the mutex. *)
Definition setErr (firstErr : option error) (e : error) : option error :=
  match firstErr with
  | None => Some e
  | Some e0 => Some e0
  end.

Section Workers.
Variables (header : FileHeader) (compData : list byte) (offs : list Z).

(** Lines 241-244, with the [numBlocks], [blockSize] and [originalSize] of
    lines 171-173. *)
Definition expected (idx : Z) : Z :=
  let numBlocks := int64 (NumBlocks header) in
  let blockSize := BlockSize header in
  let originalSize := int64 (OriginalSize header) in
  if idx =? numBlocks - 1
  then int64 (originalSize - int64 (blockSize * (numBlocks - 1)))
  else blockSize.

(** Lines 232-277 without the writes: the bytes of the block [idx] that is
    stored as [comp], or the error that is put in [firstErr].
    [lzDecompressTokens] asks [make] for a capacity of [exp], which panics
    when [exp] is negative. *)
Definition decodeComp (idx : Z) (comp : list byte) : outcome (list byte) :=
  if len comp =? 0 then Fail (ErrEmptyBlock idx) else
  let exp := expected idx in
  mode <-- index comp 0 ;;
  let data := drop 1 comp in
  if Byte.eqb mode "255" then
    if negb (len data =? exp)
    then Fail (ErrRawSizeMismatch idx (len data) exp)
    else Done data
  else if Byte.eqb mode "000" then
    if exp <? 0 then Panic else
    match lzDecompressTokens data exp with
    | Fail e => Fail (ErrDecompressBlock idx e)
    | Panic => Panic
    | OutOfFuel => OutOfFuel
    | Done dec => Done dec
    end
  else Fail (ErrUnknownMode mode idx).

(** Line 231, then [decodeComp]. *)
Definition blockAt (idx : Z) : outcome (list byte) :=
  off <-- index offs idx ;;
  size <-- index (BlockCompSizes header) idx ;;
  comp <-- slice compData off (uint64 (off + size)) ;;
  decodeComp idx comp.

(** One step of worker [i], which stands at [pc].  A worker that finds
    [firstErr] set, or that sets it, returns without going to the barrier. *)
Definition workerStep (total : Z) (s : state) (i : nat) (pc : workerPc)
  : outcome state :=
  match pc with
  | DCheck idx end_ =>
      if idx <? end_ then
        match firstErr s with
        | Some _ =>
            Done (mkState (outBuf s) (firstErr s) (count s)
                    (<[i := DQuit]> (workers s)) false)
        | None =>
            Done (mkState (outBuf s) (firstErr s) (count s)
                    (<[i := DBlock idx end_]> (workers s)) false)
        end
      else
        Done (mkState (outBuf s) (firstErr s) (count s)
                (<[i := DArrive]> (workers s)) false)
  | DBlock idx end_ =>
      match blockAt idx with
      | Done block =>
          let lo := int64 (idx * BlockSize header) in
          let hi := int64 (lo + expected idx) in
          out <-- copyInto (outBuf s) lo hi block ;;
          Done (mkState out (firstErr s) (count s)
                  (<[i := DCheck (idx + 1) end_]> (workers s)) false)
      | Fail e =>
          Done (mkState (outBuf s) (setErr (firstErr s) e) (count s)
                  (<[i := DQuit]> (workers s)) false)
      | Panic => Panic
      | OutOfFuel => OutOfFuel
      end
  | DArrive =>
      let count := count s + 1 in
      if count =? total then
        Done (mkState (outBuf s) (firstErr s) 0
                (<[i := DLeave]> (map wake (workers s))) false)
      else
        Done (mkState (outBuf s) (firstErr s) count
                (<[i := DWaiting]> (workers s)) false)
  | DLeave =>
      Done (mkState (outBuf s) (firstErr s) (count s)
              (<[i := DDone]> (workers s)) false)
  | DWaiting | DQuit | DDone => Done s
  end.

Definition step (total : Z) (s : state) (i : nat) : state :=
  if crashed s then s else
  match workers s !! i with
  | None => s
  | Some pc =>
      match workerStep total s i pc with
      | Done s' => s'
      | _ => crash s
      end
  end.

Definition run (total : Z) (s : state) (sched : list nat) : state :=
  fold_left (step total) sched s.

End Workers.

(** The goroutine has returned. *)
Definition returned (pc : workerPc) : bool :=
  match pc with
  | DQuit | DDone => true
  | _ => false
  end.

(** Lines 209-221: worker [id] starts with the bounds of its partition. *)
Definition spawn (numBlocks chunkSize threads : Z) : list workerPc :=
  map (fun id => let '(start, end_) := bspRange numBlocks chunkSize id in
                 DCheck start end_)
      (seqZ 0 threads).

(** Lines 191, 196, 200 and 209: the output buffer as [make] gives it, no
    error, the barrier with nobody arrived, the workers started. *)
Definition start (originalSize numBlocks threads : Z) : state :=
  mkState (replicate (Z.to_nat originalSize) "000"%byte) None 0
          (spawn numBlocks (bspChunkSize numBlocks threads) threads) false.

(** *** The invariant of the runs *)

Definition isWaiting (pc : workerPc) : bool :=
  match pc with
  | DWaiting => true
  | _ => false
  end.

Definition isQuit (pc : workerPc) : bool :=
  match pc with
  | DQuit => true
  | _ => false
  end.

(** The worker has not come out of [barrier.Wait()]. *)
Definition beforeBarrier (pc : workerPc) : bool :=
  match pc with
  | DLeave | DDone => false
  | _ => true
  end.

(** The worker can take a step. *)
Definition enabled (pc : workerPc) : bool :=
  match pc with
  | DWaiting | DQuit | DDone => false
  | _ => true
  end.

Fixpoint waiting (ws : list workerPc) : Z :=
  match ws with
  | [] => 0
  | pc :: ws' => (if isWaiting pc then 1 else 0) + waiting ws'
  end.

(** The output buffer holds the bytes [lo, hi) of the data. *)
Definition agree (data : list byte) (s : state) (lo hi : Z) : Prop :=
  forall p, lo <= p < hi -> outBuf s !! Z.to_nat p = data !! Z.to_nat p.

Definition workerInv (data : list byte) (numBlocks chunkSize blockSize : Z)
  (s : state) (id : Z) (pc : workerPc) : Prop :=
  let r := bspRange numBlocks chunkSize id in
  match pc with
  | DCheck idx end_ =>
      end_ = r.2 /\ r.1 <= idx <= r.2 /\
      agree data s (r.1 * blockSize) (idx * blockSize)
  | DBlock idx end_ =>
      end_ = r.2 /\ r.1 <= idx < r.2 /\
      agree data s (r.1 * blockSize) (idx * blockSize)
  | DQuit => True
  | _ => agree data s (r.1 * blockSize) (r.2 * blockSize)
  end.

Definition Inv (header : FileHeader) (compData : list byte) (offs : list Z)
  (data : list byte) (numBlocks threads chunkSize blockSize : Z) (s : state)
  : Prop :=
  crashed s = false /\
  len (outBuf s) = len data /\
  len (workers s) = threads /\
  (forall id pc, workers s !! id = Some pc ->
     workerInv data numBlocks chunkSize blockSize s (Z.of_nat id) pc) /\
  (firstErr s = None ->
   Forall (fun pc => isQuit pc = false) (workers s)) /\
  (forall e, firstErr s = Some e ->
     exists idx, 0 <= idx < numBlocks /\
       blockAt header compData offs idx = Fail e) /\
  ((Forall (fun pc => beforeBarrier pc = true) (workers s) /\
    count s = waiting (workers s) /\ count s < threads) \/
   (Forall (fun pc => beforeBarrier pc = false) (workers s) /\ count s = 0)).

(** The steps a worker has before it, at most. *)
Definition work (pc : workerPc) : nat :=
  match pc with
  | DCheck idx end_ => 2 * Z.to_nat (end_ - idx) + 3
  | DBlock idx end_ => 2 * Z.to_nat (end_ - idx) + 2
  | DArrive => 2
  | DWaiting => 1
  | DLeave => 1
  | DQuit => 0
  | DDone => 0
  end.

Definition workLeft (s : state) : nat := sum_list (map work (workers s)).

End BSPD.

(** Block [idx] of the data. *)
Definition blockOfData (data : list byte) (blockSize idx : Z) : list byte :=
  take (Z.to_nat blockSize) (drop (Z.to_nat (idx * blockSize)) data).

(** Lines 171-296, under the scheduler [sched].  [threads] is the thread
    count of line 147-149.  [wg.Wait()] returns when every goroutine has
    returned; a scheduler that ends before that leaves the call without a
    result, [OutOfFuel]. *)
Definition bspDecodePayload (sched : list nat) (header : FileHeader)
  (r : list byte) (threads : Z) : outcome (list byte) :=
  let numBlocks := int64 (NumBlocks header) in
  let originalSize := int64 (OriginalSize header) in
  let total := totalSize (BlockCompSizes header) in
  if 2 ^ 63 <=? total then Panic else
  match readFull r total with
  | Fail e => Fail (ErrReadPayload e)
  | Panic => Panic
  | OutOfFuel => OutOfFuel
  | Done (compData, _) =>
      if numBlocks <? 0 then Panic else
      offs <-- bspOffsets (Z.to_nat numBlocks) (BlockCompSizes header) 0 0
                 (replicate (Z.to_nat numBlocks) 0) ;;
      if originalSize <? 0 then Panic else
      let threads := if numBlocks <? threads then numBlocks else threads in
      if threads <=? 0 then Panic else
      let s := BSPD.run header compData offs threads
                 (BSPD.start originalSize numBlocks threads) sched in
      if BSPD.crashed s then Panic else
      if negb (forallb BSPD.returned (BSPD.workers s)) then OutOfFuel else
      match BSPD.firstErr s with
      | Some e => Fail e
      | None => Done (BSPD.outBuf s)
      end
  end.
(** The offsets of the blocks: the sizes summed up from [cur]. *)
Fixpoint offsetsOf (sizes : list Z) (cur : Z) : list Z :=
  match sizes with
  | [] => []
  | s :: sizes' => cur :: offsetsOf sizes' (cur + s)
  end.
(** The blocks [encs] with the mode byte of block [k] replaced by [m]. *)
Definition corruptMode (encs : list (list byte)) (k : nat) (m : byte)
  : list (list byte) :=
  match encs !! k with
  | Some e => <[k := m :: drop 1 e]> encs
  | None => encs
  end.

(** * Proofs *)

(** ** Bytes, outcomes and slices *)

Lemma byteZ_range (b : byte) : 0 <= byteZ b < 256.
Proof.
  unfold byteZ. pose proof (Byte.to_N_bounded b) as Hb. lia.
Qed.

Lemma byteZ_toByte (v : Z) : byteZ (toByte v) = v mod 256.
Proof.
  unfold byteZ, toByte.
  assert (Hr : 0 <= v mod 256 < 256) by (apply Z.mod_pos_bound; lia).
  destruct (Byte.of_N (Z.to_N (v mod 256))) as [b|] eqn:Hof.
  - apply Byte.to_of_N in Hof. rewrite Hof. lia.
  - apply Byte.of_N_None_iff in Hof. lia.
Qed.


Lemma len_nonneg {A : Type} (s : list A) : 0 <= len s.
Proof. unfold len. lia. Qed.

Lemma len_app {A : Type} (s t : list A) : len (s ++ t) = len s + len t.
Proof. unfold len. rewrite length_app. lia. Qed.

Lemma len_take {A : Type} (s : list A) (n : Z) :
  0 <= n <= len s -> len (take (Z.to_nat n) s) = n.
Proof. unfold len. intros H. rewrite length_take. lia. Qed.

Lemma index_Done_iff {A : Type} (s : list A) (i : Z) (a : A) :
  index s i = Done a <-> 0 <= i /\ s !! Z.to_nat i = Some a.
Proof.
  unfold index, len.
  destruct (Z.ltb_spec i 0); simpl.
  - split; [discriminate | lia].
  - destruct (Z.leb_spec (Z.of_nat (length s)) i); simpl.
    + split; [discriminate |]. intros [_ Hl].
      apply lookup_lt_Some in Hl. lia.
    + destruct (s !! Z.to_nat i) as [x|].
      * split; [intros [= ->]; auto | intros [_ [= ->]]; reflexivity].
      * split; [discriminate | intros [_ [=]]].
Qed.

Lemma index_in_range {A : Type} (s : list A) (i : Z) :
  0 <= i < len s -> exists a, index s i = Done a.
Proof.
  intros H. unfold len in H.
  destruct (lookup_lt_is_Some_2 s (Z.to_nat i)) as [a Ha]; [lia |].
  exists a. apply index_Done_iff. split; [lia | assumption].
Qed.


Lemma index_take {A : Type} (s : list A) (n i : Z) :
  0 <= i < n -> index (take (Z.to_nat n) s) i = index s i.
Proof.
  intros H. unfold index, len.
  rewrite length_take, lookup_take_lt by lia.
  destruct (Z.ltb_spec i 0); [lia |]. simpl.
  assert ((Z.of_nat (Z.to_nat n `min` length s) <=? i)
          = (Z.of_nat (length s) <=? i)) as ->; [| reflexivity].
  destruct (Z.leb_spec (Z.of_nat (length s)) i);
    destruct (Z.leb_spec (Z.of_nat (Z.to_nat n `min` length s)) i);
    try reflexivity; lia.
Qed.

Lemma take_index_snoc {A : Type} (s : list A) (n : Z) (a : A) :
  index s n = Done a ->
  take (Z.to_nat n) s ++ [a] = take (Z.to_nat (n + 1)) s.
Proof.
  intros [Hn Hl]%index_Done_iff.
  replace (Z.to_nat (n + 1)) with (S (Z.to_nat n)) by lia.
  symmetry. now apply take_S_r.
Qed.

Lemma sameAt_true (input : list byte) (a b : Z) :
  sameAt input a b = Done true ->
  exists x, index input a = Done x /\ index input b = Done x.
Proof.
  unfold sameAt, bind.
  destruct (index input a) as [x| | |]; try discriminate.
  destruct (index input b) as [y| | |]; try discriminate.
  intros [= H]. apply Byte.byte_dec_bl in H. subst y. eauto.
Qed.

Lemma sameAt_in_range (input : list byte) (a b : Z) :
  0 <= a < len input -> 0 <= b < len input ->
  exists e, sameAt input a b = Done e.
Proof.
  intros Ha Hb. unfold sameAt, bind.
  destruct (index_in_range input a Ha) as [x ->].
  destruct (index_in_range input b Hb) as [y ->]. eauto.
Qed.

(** ** Bit packing *)

Lemma lor_shiftl_8 (a b : Z) :
  0 <= a < 256 -> 0 <= b -> Z.lor a (Z.shiftl b 8) = a + 256 * b.
Proof.
  intros Ha Hb.
  rewrite Z.shiftl_mul_pow2 by lia.
  rewrite <- Z.add_nocarry_lor.
  - change (2 ^ 8) with 256. lia.
  - apply Z.bits_inj'. intros n Hn.
    rewrite Z.land_spec, Z.bits_0.
    destruct (Z.ltb_spec n 8).
    + rewrite (Z.mul_pow2_bits_low b 8 n) by lia. apply andb_false_r.
    + assert (Z.testbit a n = false) as ->; [| reflexivity].
      destruct (Z.eq_dec a 0) as [->|]; [apply Z.bits_0 |].
      apply Z.bits_above_log2; [lia |].
      assert (Z.log2 a < 8); [| lia].
      apply Z.log2_lt_pow2; lia.
Qed.

Lemma offset_pack (o : Z) :
  0 <= o < 65536 ->
  Z.lor (byteZ (toByte (Z.land o 0xFF)))
        (Z.shiftl (byteZ (toByte (Z.shiftr o 8))) 8) = o.
Proof.
  intros Ho.
  change 0xFF with (Z.ones 8).
  rewrite Z.land_ones, Z.shiftr_div_pow2 by lia.
  change (2 ^ 8) with 256.
  rewrite !byteZ_toByte.
  rewrite Z.mod_mod by lia.
  assert (0 <= o / 256 < 256) by (split; [apply Z.div_pos; lia | apply Z.div_lt_upper_bound; lia]).
  rewrite (Z.mod_small (o / 256)) by lia.
  rewrite lor_shiftl_8; [| apply Z.mod_pos_bound; lia | lia].
  pose proof (Z.div_mod o 256). lia.
Qed.

Lemma lzHash_range (b0 b1 b2 b3 : byte) : 0 <= lzHash b0 b1 b2 b3 < hashSize.
Proof.
  unfold lzHash, hashSize, hashBits, uint32.
  rewrite Z.shiftr_div_pow2 by lia.
  set (h := Z.lxor _ _).
  assert (0 <= (h * 0x1e35a7bd) mod 2 ^ 32 < 2 ^ 32) by (apply Z.mod_pos_bound; lia).
  change (Z.shiftl 1 14) with 16384. change (2 ^ (32 - 14)) with 262144.
  change (2 ^ 32) with 4294967296 in *.
  split; [apply Z.div_pos; lia | apply Z.div_lt_upper_bound; lia].
Qed.

(** ** The encoder: its loops return, within bounds *)

Lemma tableOk_init (i : Z) : tableOk (replicate (Z.to_nat hashSize) (-1)) i.
Proof.
  split.
  - unfold len. rewrite length_replicate. apply Z2Nat.id. now vm_compute.
  - apply Forall_replicate. now left.
Qed.

Lemma tableOk_mono (table : list Z) (i i' : Z) :
  i <= i' -> tableOk table i -> tableOk table i'.
Proof.
  intros Hi [Hl Hall]. split; [assumption |].
  eapply Forall_impl; [exact Hall |]. simpl. intros c [-> | Hc]; [now left | right; lia].
Qed.

Lemma tableOk_index (table : list Z) (i h : Z) :
  tableOk table i -> 0 <= h < hashSize ->
  exists c, index table h = Done c /\ (c = -1 \/ 0 <= c < i).
Proof.
  intros [Hl Hall] Hh.
  destruct (index_in_range table h) as [c Hc]; [lia |].
  exists c. split; [assumption |].
  apply index_Done_iff in Hc as [_ Hc].
  rewrite Forall_lookup in Hall. exact (Hall _ _ Hc).
Qed.

Lemma tableOk_store (table : list Z) (i i' h : Z) :
  tableOk table i -> 0 <= h < hashSize -> 0 <= i < i' ->
  exists table', store table h i = Done table' /\ tableOk table' i'.
Proof.
  intros [Hl Hall] Hh Hi. unfold store.
  destruct (Z.ltb_spec h 0); [lia |].
  destruct (Z.leb_spec (len table) h); [lia |]. simpl.
  eexists. split; [reflexivity |]. split.
  - unfold len in *. now rewrite length_insert.
  - apply Forall_insert; [| right; lia].
    eapply Forall_impl; [exact Hall |]. simpl. intros c [-> | Hc]; [now left | right; lia].
Qed.

Section Encoder.
Variable input : list byte.

Lemma lzCheck4_spec (candidate i : Z) :
  0 <= candidate < i -> i + lzMinMatch <= len input ->
  exists e, lzCheck4 input candidate i = Done e /\
    (e = true -> forall j, 0 <= j < 4 ->
       index input (candidate + j) = index input (i + j)).
Proof.
  unfold lzMinMatch. intros Hc Hi.
  assert (Hat : forall j, 0 <= j < 4 ->
            exists e, sameAt input (candidate + j) (i + j) = Done e /\
              (e = true -> index input (candidate + j) = index input (i + j))).
  { intros j Hj.
    destruct (sameAt_in_range input (candidate + j) (i + j)) as [e He]; [lia.. |].
    exists e. split; [assumption |]. intros ->.
    apply sameAt_true in He as [x [Hx1 Hx2]]. congruence. }
  unfold lzCheck4, bind.
  destruct (Hat 0) as (e0 & H0 & E0); [lia |].
  destruct (Hat 1) as (e1 & H1 & E1); [lia |].
  destruct (Hat 2) as (e2 & H2 & E2); [lia |].
  destruct (Hat 3) as (e3 & H3 & E3); [lia |].
  rewrite !Z.add_0_r in H0, E0. rewrite H0.
  destruct e0; simpl; [| eexists; split; [reflexivity | discriminate]].
  rewrite H1.
  destruct e1; simpl; [| eexists; split; [reflexivity | discriminate]].
  rewrite H2.
  destruct e2; simpl; [| eexists; split; [reflexivity | discriminate]].
  rewrite H3. exists e3. split; [reflexivity |].
  intros -> j Hj.
  assert (j = 0 \/ j = 1 \/ j = 2 \/ j = 3) as [-> | [-> | [-> | ->]]] by lia;
    [rewrite !Z.add_0_r | | |]; auto.
Qed.

Lemma lzExtend_spec (candidate i : Z) (fuel : nat) :
  forall matchLen,
  0 <= candidate < i -> 0 <= matchLen <= lzMaxMatch ->
  i + matchLen <= len input ->
  lzMaxMatch - matchLen <= Z.of_nat fuel ->
  (forall j, 0 <= j < matchLen ->
     index input (candidate + j) = index input (i + j)) ->
  exists m, lzExtend fuel input candidate i matchLen = Done m /\
    matchLen <= m <= lzMaxMatch /\ i + m <= len input /\
    (forall j, 0 <= j < m ->
       index input (candidate + j) = index input (i + j)).
Proof.
  induction fuel as [|fuel IH]; intros matchLen Hc Hm Hi Hf Hsame.
  - assert (matchLen = lzMaxMatch) as -> by lia.
    exists lzMaxMatch. simpl.
    rewrite Z.ltb_irrefl, andb_false_r. repeat split; auto; lia.
  - cbn [lzExtend].
    destruct (_ && _ && _) eqn:Hcond;
      [| exists matchLen; repeat split; auto; lia].
    apply andb_prop in Hcond as [Hcond H3]. apply andb_prop in Hcond as [H1 H2].
    apply Z.ltb_lt in H1, H2, H3.
    destruct (sameAt_in_range input (candidate + matchLen) (i + matchLen))
      as [e He]; [lia.. |].
    unfold bind. rewrite He.
    destruct e; [| exists matchLen; repeat split; auto; lia].
    apply sameAt_true in He as (x & Hx1 & Hx2).
    destruct (IH (matchLen + 1)) as (m & Hm1 & Hm2 & Hm3 & Hm4); try lia.
    { intros j Hj. destruct (Z.eq_dec j matchLen) as [->|];
        [congruence | apply Hsame; lia]. }
    exists m. repeat split; auto; lia.
Qed.

(** The main loop returns from every state it can reach, and its tokens
    describe the rest of the input. *)
Lemma lzLoop_spec (fuel : nat) :
  forall table i out,
  0 <= i <= len input -> len input - i <= Z.of_nat fuel -> tableOk table i ->
  exists toks, lzLoop fuel input table i out = Done (out ++ toks) /\
               tokensFrom input i toks.
Proof.
  induction fuel as [|fuel IH]; intros table i out Hi Hf Ht.
  - exists []. assert (i = len input) as -> by lia. simpl.
    rewrite Z.ltb_irrefl. simpl. rewrite app_nil_r. auto.
  - cbn [lzLoop].
    destruct (Z.ltb_spec i (len input)) as [Hlt|Hge]; cbn [negb].
    2: { exists []. rewrite app_nil_r. split; [reflexivity | cbn [tokensFrom]; lia]. }
    destruct (index_in_range input i) as [b Hb]; [lia |].
    assert (Hlit : forall table', tableOk table' (i + 1) ->
              exists toks, lzLoop fuel input table' (i + 1) (out ++ [Literal b])
                           = Done (out ++ toks) /\ tokensFrom input i toks).
    { intros table' Ht'.
      destruct (IH table' (i + 1) (out ++ [Literal b])) as (toks & Hr & Hs);
        [lia | lia | assumption |].
      exists (Literal b :: toks). split; [| cbn [tokensFrom]; auto].
      rewrite Hr, <- app_assoc. reflexivity. }
    destruct (Z.ltb_spec (len input) (i + lzMinMatch)) as [Hshort|Hlong].
    { unfold bind. rewrite Hb. apply Hlit. eapply tableOk_mono; [| exact Ht]. lia. }
    unfold lzMinMatch in Hlong.
    destruct (index_in_range input (i + 1)) as [b1 Hb1]; [lia |].
    destruct (index_in_range input (i + 2)) as [b2 Hb2]; [lia |].
    destruct (index_in_range input (i + 3)) as [b3 Hb3]; [lia |].
    unfold bind at 1 2 3 4. rewrite Hb, Hb1, Hb2, Hb3. cbv zeta.
    pose proof (lzHash_range b b1 b2 b3) as Hh.
    destruct (tableOk_index _ _ _ Ht Hh) as (candidate & Hcand & Hcr).
    unfold bind at 1. rewrite Hcand.
    assert (Hst : forall i', i < i' -> exists table',
              store table (lzHash b b1 b2 b3) i = Done table' /\ tableOk table' i').
    { intros i' Hi'. eapply tableOk_store; eauto. lia. }
    destruct (negb (candidate =? -1) && (i - candidate <? lzWindowSize)
              && (0 <? i - candidate)) eqn:Hcond.
    2: { destruct (Hst (i + 1)) as (table' & Hs & Ht'); [lia |].
         unfold bind. rewrite Hs. apply Hlit, Ht'. }
    apply andb_prop in Hcond as [Hcond H3]. apply andb_prop in Hcond as [H1 H2].
    apply Z.ltb_lt in H2, H3. apply negb_true_iff, Z.eqb_neq in H1.
    assert (Hc : 0 <= candidate < i) by lia.
    destruct (lzCheck4_spec candidate i Hc) as (e & He & Hsame);
      [unfold lzMinMatch; lia |].
    destruct e.
    2: { destruct (Hst (i + 1)) as (table' & Hs & Ht'); [lia |].
         unfold bind. rewrite Hs, He. apply Hlit, Ht'. }
    destruct (lzExtend_spec candidate i (Z.to_nat lzMaxMatch) 4)
      as (m & Hm & Hm1 & Hm2 & Hm3);
      [lia | unfold lzMaxMatch; lia | lia | unfold lzMaxMatch; lia | auto |].
    destruct (Hst (i + m)) as (table' & Hs & Ht'); [lia |].
    unfold bind. rewrite Hs, He, Hm.
    destruct (IH table' (i + m) (out ++ [Match (i - candidate) m]))
      as (toks & Hr & Htoks); [lia | lia | assumption |].
    exists (Match (i - candidate) m :: toks). split.
    + rewrite Hr, <- app_assoc. reflexivity.
    + cbn [tokensFrom]. unfold lzMinMatch. repeat split; auto; try lia.
      intros j Hj. replace (i - (i - candidate) + j) with (candidate + j) by lia.
      auto.
Qed.

Lemma lzTokens_spec :
  exists toks, lzTokens input = Done toks /\ tokensFrom input 0 toks.
Proof.
  unfold lzTokens.
  destruct (Z.eqb_spec (len input) 0) as [H0|H0].
  - exists []. split; [reflexivity | simpl; lia].
  - pose proof (len_nonneg input).
    destruct (lzLoop_spec (length input) (replicate (Z.to_nat hashSize) (-1)) 0 [])
      as (toks & Hr & Hs); [lia | unfold len; lia | apply tableOk_init |].
    exists toks. split; assumption.
Qed.
End Encoder.

(** ** The decoder on a token stream that describes the input *)

Lemma lzDecodeLoop_literal (b : byte) (rest out : list byte) :
  lzDecodeLoop (tokenBytes (Literal b) ++ rest) out
  = lzDecodeLoop rest (out ++ [b]).
Proof. reflexivity. Qed.

Lemma lzDecodeLoop_match (lo hi l : byte) (rest out : list byte) :
  lzDecodeLoop ("001"%byte :: lo :: hi :: l :: rest) out
  = (out' <-- lzDecodeMatch out lo hi l ;; lzDecodeLoop rest out').
Proof. reflexivity. Qed.


Lemma lzCopy_len (n : nat) :
  forall out start j out',
  lzCopy n out start j = Done out' -> len out' = len out + Z.of_nat n.
Proof.
  induction n as [|n IH]; intros out start j out'; simpl.
  - intros [= <-]. lia.
  - unfold bind. destruct (index out (start + j)); try discriminate.
    intros H%IH. rewrite len_app in H. unfold len in *. simpl in H. lia.
Qed.

Section Decoder.
Variable input : list byte.

Lemma lzCopy_spec (i o : Z) (n : nat) :
  forall j,
  1 <= o <= i -> 0 <= j -> i + j + Z.of_nat n <= len input ->
  (forall k, j <= k < j + Z.of_nat n ->
     index input (i - o + k) = index input (i + k)) ->
  lzCopy n (take (Z.to_nat (i + j)) input) (i - o) j
  = Done (take (Z.to_nat (i + j + Z.of_nat n)) input).
Proof.
  induction n as [|n IH]; intros j Ho Hj Hn Hsame.
  - simpl. now rewrite Z.add_0_r.
  - cbn [lzCopy].
    destruct (index_in_range input (i + j)) as [b Hb]; [lia |].
    rewrite index_take by lia.
    rewrite (Hsame j) by lia. unfold bind. rewrite Hb.
    rewrite (take_index_snoc _ _ _ Hb).
    replace (i + j + 1) with (i + (j + 1)) by lia.
    rewrite IH; [f_equal; f_equal; lia | lia | lia | lia |].
    intros k Hk. apply Hsame. lia.
Qed.

Lemma lzDecodeMatch_spec (i offset matchLen : Z) :
  1 <= offset <= i -> offset < lzWindowSize ->
  0 <= matchLen <= lzMaxMatch -> i + matchLen <= len input ->
  (forall j, 0 <= j < matchLen ->
     index input (i - offset + j) = index input (i + j)) ->
  lzDecodeMatch (take (Z.to_nat i) input)
    (toByte (Z.land offset 0xFF)) (toByte (Z.shiftr offset 8)) (toByte matchLen)
  = Done (take (Z.to_nat (i + matchLen)) input).
Proof.
  unfold lzWindowSize, lzMaxMatch. intros Ho Hw Hm Hi Hsame.
  unfold lzDecodeMatch.
  rewrite offset_pack by lia.
  rewrite byteZ_toByte, Z.mod_small by lia.
  rewrite len_take by lia.
  destruct (Z.leb_spec offset 0); [lia |].
  destruct (Z.ltb_spec i offset); [lia |]. cbn [orb].
  pose proof (lzCopy_spec i offset (Z.to_nat matchLen) 0) as Hc.
  rewrite Z.add_0_r, Z2Nat.id in Hc by lia.
  apply Hc; try lia.
  intros k Hk. apply Hsame. lia.
Qed.

Lemma lzDecodeLoop_tokensFrom (toks : list token) :
  forall i rest,
  0 <= i -> tokensFrom input i toks ->
  lzDecodeLoop (concat (map tokenBytes toks) ++ rest) (take (Z.to_nat i) input)
  = lzDecodeLoop rest input.
Proof.
  induction toks as [|[b|offset matchLen] toks IH]; intros i rest Hi Ht.
  - simpl in Ht. subst i. simpl.
    rewrite take_ge; [reflexivity | unfold len; lia].
  - destruct Ht as [Hb Ht].
    cbn [map concat]. rewrite <- app_assoc, lzDecodeLoop_literal.
    rewrite (take_index_snoc _ _ _ Hb). apply IH; [lia | assumption].
  - destruct Ht as (Ho & Hw & Hm & Hl & Hsame & Ht).
    cbn [map concat tokenBytes]. rewrite <- app_assoc.
    cbn [app]. rewrite lzDecodeLoop_match.
    unfold lzMinMatch in Hm.
    rewrite lzDecodeMatch_spec by (auto; lia).
    cbn [bind]. apply IH; [lia | assumption].
Qed.
End Decoder.


(** ** C1: the round trip of the codec *)

(** C1.  For every byte sequence [x], [lzCompressTokens x] returns a token
    stream, and [lzDecompressTokens] on that stream with expected size
    [len x] returns [x], with no error. *)
Theorem lz_round_trip (x : list byte) :
  exists tokens,
    lzCompressTokens x = Done tokens /\
    lzDecompressTokens tokens (len x) = Done x.
Proof.
  destruct (lzTokens_spec x) as (toks & Hr & Hs).
  exists (concat (map tokenBytes toks)).
  unfold lzCompressTokens. rewrite Hr. split; [reflexivity |].
  unfold lzDecompressTokens.
  pose proof (lzDecodeLoop_tokensFrom x toks 0 [] ltac:(lia) Hs) as Hd.
  rewrite app_nil_r in Hd. change (take (Z.to_nat 0) x) with (@nil byte) in Hd.
  rewrite Hd. cbn [lzDecodeLoop bind].
  rewrite Z.eqb_refl. cbn [negb].
  destruct (_ && _) eqn:Hc; [| reflexivity].
  apply andb_prop in Hc as [_ Hx]. apply Z.eqb_eq in Hx.
  destruct x; [reflexivity | discriminate].
Qed.

(** ** C7: the encoder is total *)

(** C7.  [lzCompressTokens] returns a token stream on every input: its loops
    end within their fuel (the main loop within [len input] iterations, the
    extension loop within [lzMaxMatch]) and no access to [input] or to the
    hash table is out of bounds, also in the last four positions. *)
Theorem lzCompressTokens_total (input : list byte) :
  exists toks,
    lzTokens input = Done toks /\
    lzCompressTokens input = Done (concat (map tokenBytes toks)).
Proof.
  destruct (lzTokens_spec input) as (toks & Hr & _).
  exists toks. split; [assumption |].
  unfold lzCompressTokens. now rewrite Hr.
Qed.

(** ** C2: the matches the encoder emits *)

Lemma tokensFrom_app (input : list byte) (pre rest : list token) :
  forall i, tokensFrom input i (pre ++ rest) ->
            tokensFrom input (i + span pre) rest.
Proof.
  induction pre as [|[b|offset matchLen] pre IH]; intros i H; cbn [span foldr tokenSpan app] in *.
  - now rewrite Z.add_0_r.
  - destruct H as [_ H]. apply IH in H.
    fold (span pre). now replace (i + (1 + span pre)) with (i + 1 + span pre) by lia.
  - destruct H as (_ & _ & _ & _ & _ & H). apply IH in H.
    fold (span pre).
    now replace (i + (matchLen + span pre)) with (i + matchLen + span pre) by lia.
Qed.

(** C2, as the code has it.  A match emitted after the tokens [pre] starts at
    input position [span pre]; its offset is at least 1, at most that
    position and below the window size, and its length is between 4 and 255
    and stays inside the input.  Nothing bounds the length by the offset. *)
Theorem lz_match_in_window (input : list byte) (pre post : list token)
  (offset matchLen : Z) :
  lzTokens input = Done (pre ++ Match offset matchLen :: post) ->
  1 <= offset <= span pre /\ offset < lzWindowSize /\
  lzMinMatch <= matchLen <= lzMaxMatch /\
  span pre + matchLen <= len input /\
  (forall j, 0 <= j < matchLen ->
     index input (span pre - offset + j) = index input (span pre + j)).
Proof.
  intros H.
  destruct (lzTokens_spec input) as (toks & Hr & Hs).
  rewrite H in Hr. injection Hr as <-.
  apply tokensFrom_app in Hs. rewrite Z.add_0_l in Hs.
  destruct Hs as (Ho & Hw & Hm & Hl & Hsame & _). auto.
Qed.

Lemma lz_match_in_window_witness :
  lzTokens (replicate 5 "000"%byte) = Done ([Literal "000"] ++ [Match 1 4]) /\
  1 <= 1 <= span [Literal "000"].
Proof.
  split; [reflexivity |].
  apply (lz_match_in_window (replicate 5 "000"%byte) [Literal "000"] [] 1 4).
  reflexivity.
Defined.

(** On five zero bytes the encoder emits a match of length 4 at offset 1. *)
Lemma lz_self_overlap_emitted :
  lzTokens (replicate 5 "000"%byte) = Done [Literal "000"; Match 1 4] /\
  ~ noSelfOverlap [Literal "000"; Match 1 4].
Proof.
  split; [reflexivity |].
  unfold noSelfOverlap. rewrite !Forall_cons. intros (_ & H & _). lia.
Qed.

(** ** C3: 1024 zero bytes *)

(** The stream on 1024 zero bytes does not begin with four literals: its
    second token is a match. *)
Lemma zeros1024_second_token_is_match :
  exists toks,
    lzTokens zeros1024 = Done toks /\
    toks !! 1%nat = Some (Match 1 255) /\
    toks <> replicate 4 (Literal "000") ++ replicate 4 (Match 1 255).
Proof.
  eexists. split; [vm_compute; reflexivity |]. split; [reflexivity | discriminate].
Qed.

(** C3, as the code has it.  On 1024 zero bytes the encoder emits one literal,
    a match at offset 1 of length 255, three matches at offset 255 of length
    255 (1020 bytes matched in all) and three literals for the last three
    bytes; decoding these tokens with expected size 1024 returns the input. *)
Theorem zeros1024_tokens :
  lzTokens zeros1024
  = Done ([Literal "000"; Match 1 255] ++ replicate 3 (Match 255 255)
          ++ replicate 3 (Literal "000")) /\
  exists tokens,
    lzCompressTokens zeros1024 = Done tokens /\
    lzDecompressTokens tokens 1024 = Done zeros1024.
Proof.
  split; [vm_compute; reflexivity |].
  eexists. split; vm_compute; reflexivity.
Qed.

(** ** C4: the mode of an encoded block *)

(** C4.  For a block [buf] of length [n] the encoder returns the tag [0x00]
    and the token stream when [len tokens < n], and the tag [0xFF] and the
    raw bytes otherwise, ties included; the result is never longer than
    [1 + n]. *)
Theorem encodeBlock_mode (buf : list byte) :
  exists tokens enc,
    lzCompressTokens buf = Done tokens /\
    encodeBlock buf = Done enc /\
    enc = (if len tokens <? len buf
           then "000"%byte :: tokens else "255"%byte :: buf) /\
    len enc <= 1 + len buf.
Proof.
  destruct (lzTokens_spec buf) as (toks & Hr & _).
  exists (concat (map tokenBytes toks)).
  unfold encodeBlock, lzCompressTokens. rewrite Hr. cbn [bind].
  set (tokens := concat (map tokenBytes toks)).
  destruct (Z.ltb_spec (len tokens) (len buf)) as [Hlt|Hge].
  - destruct (Z.leb_spec (len buf + 1) (len tokens + 1)); [lia |].
    eexists. repeat split. unfold len in *. simpl. lia.
  - destruct (Z.leb_spec (len buf + 1) (len tokens + 1)); [| lia].
    eexists. repeat split. unfold len in *. simpl. lia.
Qed.

(** ** C6: the offset check of the decoder *)

Lemma lzCopy_Done (n : nat) :
  forall out start j,
  0 <= start + j < len out -> exists out', lzCopy n out start j = Done out'.
Proof.
  induction n as [|n IH]; intros out start j H; cbn [lzCopy]; [eauto |].
  destruct (index_in_range out (start + j) H) as [b ->]. cbn [bind].
  apply IH. rewrite len_app. unfold len at 2. simpl. lia.
Qed.

Lemma match_offset_nonneg (lo hi : byte) :
  0 <= Z.lor (byteZ lo) (Z.shiftl (byteZ hi) 8).
Proof.
  pose proof (byteZ_range lo). pose proof (byteZ_range hi).
  apply Z.lor_nonneg. split; [lia |]. apply Z.shiftl_nonneg. lia.
Qed.

(** C6.  A match token with operand bytes [lo], [hi], [l], met when the output
    is [out], fails exactly when its offset [lo | hi << 8] is 0 or exceeds
    [len out], and then with the invalid-match-offset error; with an offset in
    [1, len out] it appends [l] bytes and decoding goes on.  The stream
    [0x01, 0x00, 0x00, 0x05] on an empty output gives that error. *)
Theorem lzDecodeMatch_offset_check (out : list byte) (lo hi l : byte) :
  let offset := Z.lor (byteZ lo) (Z.shiftl (byteZ hi) 8) in
  (forall e, lzDecodeMatch out lo hi l = Fail e <->
             (offset = 0 \/ len out < offset) /\
             e = ErrInvalidMatchOffset offset (len out)) /\
  ((1 <= offset <= len out) <->
   exists out', lzDecodeMatch out lo hi l = Done out' /\
                len out' = len out + byteZ l) /\
  (forall rest, lzDecodeLoop ("001"%byte :: lo :: hi :: l :: rest) out
                = (out' <-- lzDecodeMatch out lo hi l ;; lzDecodeLoop rest out')) /\
  (forall expectedSize,
     lzDecompressTokens ["001"%byte; "000"%byte; "000"%byte; "005"%byte] expectedSize
     = Fail (ErrInvalidMatchOffset 0 0)).
Proof.
  intros offset.
  pose proof (match_offset_nonneg lo hi) as Hnn. fold offset in Hnn.
  pose proof (byteZ_range l) as Hl.
  assert (Hgood : 1 <= offset <= len out ->
            exists out', lzDecodeMatch out lo hi l = Done out' /\
                         len out' = len out + byteZ l).
  { intros Ho. unfold lzDecodeMatch. fold offset.
    destruct (Z.leb_spec offset 0); [lia |].
    destruct (Z.ltb_spec (len out) offset); [lia |]. cbn [orb].
    destruct (Z.to_nat (byteZ l)) as [|n] eqn:Hn.
    - exists out. split; [reflexivity | lia].
    - destruct (lzCopy_Done (S n) out (len out - offset) 0) as [out' Hc]; [lia |].
      exists out'. split; [assumption |].
      apply lzCopy_len in Hc. lia. }
  assert (Hbad : offset = 0 \/ len out < offset ->
            lzDecodeMatch out lo hi l = Fail (ErrInvalidMatchOffset offset (len out))).
  { intros Ho. unfold lzDecodeMatch. fold offset.
    destruct (Z.leb_spec offset 0); [reflexivity |].
    destruct (Z.ltb_spec (len out) offset); [reflexivity | lia]. }
  split; [| split; [| split]].
  - intros e. split.
    + intros He.
      destruct (Z.eq_dec offset 0) as [H0|H0];
        [rewrite Hbad in He by auto; injection He as <-; auto |].
      destruct (Z.lt_ge_cases (len out) offset) as [H1|H1];
        [rewrite Hbad in He by auto; injection He as <-; auto |].
      destruct Hgood as (out' & Hd & _); [lia |]. congruence.
    + intros [Ho ->]. auto.
  - split; [exact Hgood |].
    intros (out' & Hd & _).
    destruct (Z.eq_dec offset 0) as [H0|H0];
      [rewrite Hbad in Hd by auto; discriminate |].
    destruct (Z.lt_ge_cases (len out) offset) as [H1|H1];
      [rewrite Hbad in Hd by auto; discriminate | lia].
  - reflexivity.
  - reflexivity.
Qed.

(** ** C5: the header read back *)

Lemma leBytes_length (n : nat) : forall v, length (leBytes n v) = n.
Proof. induction n as [|n IH]; intros v; simpl; [reflexivity | now rewrite IH]. Qed.

Lemma leValue_leBytes (n : nat) :
  forall v, 0 <= v < 2 ^ (8 * Z.of_nat n) -> leValue (leBytes n v) = v.
Proof.
  induction n as [|n IH]; intros v Hv.
  - simpl in *. lia.
  - cbn [leBytes leValue].
    replace (8 * Z.of_nat (S n)) with (8 + 8 * Z.of_nat n) in Hv by lia.
    rewrite Z.pow_add_r in Hv by lia. change (2 ^ 8) with 256 in Hv.
    rewrite Z.shiftr_div_pow2 by lia. change (2 ^ 8) with 256.
    assert (0 <= v / 256 < 2 ^ (8 * Z.of_nat n)).
    { split; [apply Z.div_pos; lia | apply Z.div_lt_upper_bound; lia]. }
    rewrite IH by assumption.
    rewrite byteZ_toByte, lor_shiftl_8; [| apply Z.mod_pos_bound; lia | lia].
    pose proof (Z.div_mod v 256). lia.
Qed.

Lemma readFull_app (p rest : list byte) (n : Z) :
  n = len p -> readFull (p ++ rest) n = Done (p, rest).
Proof.
  intros ->. unfold readFull. rewrite len_app.
  pose proof (len_nonneg rest).
  destruct (Z.ltb_spec (len p + len rest) (len p)); [lia |].
  unfold len. rewrite Nat2Z.id, take_app_length, drop_app_length. reflexivity.
Qed.

Lemma readLE_leBytes (n : nat) (v : Z) (rest : list byte) :
  0 <= v < 2 ^ (8 * Z.of_nat n) ->
  readLE (leBytes n v ++ rest) n = Done (v, rest).
Proof.
  intros Hv. unfold readLE.
  rewrite readFull_app by (unfold len; now rewrite leBytes_length).
  cbn [bind fst snd]. now rewrite leValue_leBytes.
Qed.

Lemma readSizes_sizes (sizes : list Z) (rest : list byte) :
  Forall (fun s => 0 <= s < 2 ^ 64) sizes ->
  readSizes (length sizes) (concat (map (leBytes 8) sizes) ++ rest)
  = Done (sizes, rest).
Proof.
  induction 1 as [|s sizes Hs _ IH]; [reflexivity |].
  cbn [length readSizes map concat]. rewrite <- app_assoc.
  rewrite readLE_leBytes by exact Hs.
  cbn [bind fst snd]. rewrite IH. reflexivity.
Qed.

(** C5.  For a valid header [h], [WriteHeader] on an empty buffer returns no
    error, and [ReadHeader] on the bytes it wrote, whatever follows them,
    returns [h] and leaves what follows unread. *)
Theorem header_round_trip (h : FileHeader) (rest : list byte) :
  validHeader h ->
  exists bytes,
    WriteHeader [] h = (bytes, None) /\
    ReadHeader (bytes ++ rest) = Done (h, rest).
Proof.
  destruct h as [name osize bsize nblocks sizes].
  intros (Hname & Hos & Hbs & Hnb & Hsz & Hlen). cbn [Filename OriginalSize
    BlockSize NumBlocks BlockCompSizes] in *.
  pose proof (len_nonneg name) as Hn0.
  unfold WriteHeader. cbn [Filename OriginalSize BlockSize NumBlocks BlockCompSizes].
  destruct (Z.ltb_spec 0xFFFF (len name)); [lia |].
  unfold uint64, uint16.
  rewrite (Z.mod_small (len sizes)) by lia.
  rewrite (Z.mod_small (len name)) by (change (2 ^ 16) with 65536; lia).
  rewrite Hlen, Z.eqb_refl. cbn [negb].
  eexists. split; [reflexivity |].
  unfold ReadHeader. cbn [app]. rewrite <- !app_assoc.
  rewrite (readFull_app magic) by reflexivity.
  cbn [bind fst snd]. rewrite bool_decide_eq_true_2 by reflexivity. cbn [negb].
  rewrite readLE_leBytes by (change (2 ^ (8 * Z.of_nat 2)) with 65536; lia).
  cbn [bind fst snd].
  rewrite readLE_leBytes by exact Hos. cbn [bind fst snd].
  rewrite readFull_app by reflexivity. cbn [bind fst snd].
  rewrite readLE_leBytes by exact Hbs. cbn [bind fst snd].
  rewrite readLE_leBytes by exact Hnb. cbn [bind fst snd].
  rewrite <- Hlen. unfold len. rewrite Nat2Z.id.
  rewrite readSizes_sizes by assumption. reflexivity.
Qed.

Lemma header_round_trip_witness :
  validHeader (mkFileHeader ["a"%byte; "b"%byte] 5 1048576 1 [6]) /\
  exists bytes,
    WriteHeader [] (mkFileHeader ["a"%byte; "b"%byte] 5 1048576 1 [6])
    = (bytes, None) /\
    ReadHeader (bytes ++ ["255"%byte; "000"%byte])
    = Done (mkFileHeader ["a"%byte; "b"%byte] 5 1048576 1 [6],
            ["255"%byte; "000"%byte]).
Proof.
  assert (Hv : validHeader (mkFileHeader ["a"%byte; "b"%byte] 5 1048576 1 [6])).
  { unfold validHeader, len.
    cbn [Filename OriginalSize BlockSize NumBlocks BlockCompSizes length].
    split; [lia |]. split; [lia |]. split; [lia |]. split; [lia |].
    split; [| lia]. constructor; [lia | constructor]. }
  split; [exact Hv |].
  exact (header_round_trip _ ["255"%byte; "000"%byte] Hv).
Defined.

(** ** C8: the BSP partition *)

Lemma bspThreads_eq (threads numBlocks : Z) :
  bspThreads threads numBlocks = Z.min (Z.max threads 1) numBlocks.
Proof.
  unfold bspThreads.
  destruct (Z.leb_spec threads 0);
    [destruct (Z.ltb_spec numBlocks 1) | destruct (Z.ltb_spec numBlocks threads)]; lia.
Qed.

Lemma bspChunkSize_ceil (numBlocks T : Z) :
  1 <= numBlocks -> 1 <= T ->
  bspChunkSize numBlocks T = (numBlocks + T - 1) / T /\
  1 <= bspChunkSize numBlocks T /\
  numBlocks <= bspChunkSize numBlocks T * T.
Proof.
  intros Hn HT. unfold bspChunkSize.
  rewrite Z.quot_div_nonneg, Z.rem_mod_nonneg by lia.
  pose proof (Z.div_mod numBlocks T ltac:(lia)) as Hdm.
  pose proof (Z.mod_pos_bound numBlocks T ltac:(lia)) as Hm.
  set (q := numBlocks / T) in *. set (r := numBlocks mod T) in *.
  assert (Hq : 0 <= q) by (apply Z.div_pos; lia).
  assert (Hceil : (numBlocks + T - 1) / T = if r =? 0 then q else q + 1).
  { destruct (Z.eqb_spec r 0).
    - symmetry. apply (Z.div_unique _ _ q (T - 1)); lia.
    - symmetry. apply (Z.div_unique _ _ (q + 1) (r - 1)); lia. }
  rewrite Hceil.
  destruct (Z.eqb_spec r 0); cbn [negb]; repeat split; nia.
Qed.

Lemma bspRange_owns (numBlocks chunkSize id idx : Z) :
  1 <= chunkSize -> 0 <= id ->
  let r := bspRange numBlocks chunkSize id in
  r.1 <= idx < r.2 <->
  id * chunkSize <= idx < Z.min ((id + 1) * chunkSize) numBlocks.
Proof.
  intros Hc Hid. unfold bspRange.
  destruct (Z.leb_spec numBlocks (id * chunkSize)); cbn [fst snd].
  - destruct (Z.ltb_spec numBlocks 0); cbn [fst snd]; nia.
  - destruct (Z.ltb_spec numBlocks (id * chunkSize + chunkSize)); cbn [fst snd]; nia.
Qed.

(** C8.  With [T = min (max threads 1) numBlocks] workers and chunks of
    [ceil (numBlocks / T)] indices, worker [w] runs exactly the indices of
    [[w * chunk, min ((w + 1) * chunk) numBlocks)]; these lie in
    [[0, numBlocks)], and every index of [[0, numBlocks)] is run by one
    worker and no other. *)
Theorem bsp_partition (numBlocks threads : Z) :
  1 <= numBlocks ->
  let T := bspThreads threads numBlocks in
  let chunk := bspChunkSize numBlocks T in
  T = Z.min (Z.max threads 1) numBlocks /\
  chunk = (numBlocks + T - 1) / T /\
  (forall w idx, 0 <= w < T ->
     (bspOwns numBlocks threads w idx <->
      w * chunk <= idx < Z.min ((w + 1) * chunk) numBlocks)) /\
  (forall w idx, 0 <= w < T ->
     bspOwns numBlocks threads w idx -> 0 <= idx < numBlocks) /\
  (forall idx, 0 <= idx < numBlocks ->
     exists w, 0 <= w < T /\ bspOwns numBlocks threads w idx /\
       forall w', 0 <= w' < T -> bspOwns numBlocks threads w' idx -> w' = w).
Proof.
  intros Hn T chunk.
  assert (HT : T = Z.min (Z.max threads 1) numBlocks) by apply bspThreads_eq.
  assert (HT1 : 1 <= T) by lia.
  destruct (bspChunkSize_ceil numBlocks T Hn HT1) as (Hceil & Hc1 & Hcov).
  fold chunk in Hceil, Hc1, Hcov.
  assert (Hown : forall w idx, 0 <= w < T ->
            (bspOwns numBlocks threads w idx <->
             w * chunk <= idx < Z.min ((w + 1) * chunk) numBlocks)).
  { intros w idx Hw. unfold bspOwns. apply bspRange_owns; [exact Hc1 | lia]. }
  split; [exact HT |]. split; [exact Hceil |]. split; [exact Hown |]. split.
  - intros w idx Hw Ho. apply Hown in Ho; [| exact Hw]. nia.
  - intros idx Hidx.
    pose proof (Z.div_mod idx chunk ltac:(lia)) as Hdm.
    pose proof (Z.mod_pos_bound idx chunk ltac:(lia)) as Hm.
    assert (Hq : 0 <= idx / chunk) by (apply Z.div_pos; lia).
    exists (idx / chunk).
    assert (Hw : 0 <= idx / chunk < T) by nia.
    split; [exact Hw |]. split.
    + apply Hown; [exact Hw |]. nia.
    + intros w' Hw' Ho. apply Hown in Ho; [| exact Hw']. nia.
Qed.

Lemma bsp_partition_witness :
  1 <= 5 /\
  bspThreads 4 5 = 4 /\ bspChunkSize 5 4 = 2 /\
  (forall w idx, 0 <= w < 4 -> bspOwns 5 4 w idx -> 0 <= idx < 5).
Proof.
  split; [lia |]. split; [reflexivity |]. split; [reflexivity |].
  exact (proj1 (proj2 (proj2 (proj2 (bsp_partition 5 4 ltac:(lia)))))).
Defined.

(** ** C10: headers that the decompressors take for an empty file *)

(** C10.  When the header read from [file] has [OriginalSize = 0] or
    [NumBlocks = 0], each of the three decompressors returns success with an
    empty output, without looking at the other field, at the size table or at
    the payload; so does the container [sizeWithoutBlocks], whose header says
    5 bytes in 0 blocks. *)
Theorem decompress_empty_header (file rest : list byte) (h : FileHeader) :
  ReadHeader file = Done (h, rest) ->
  OriginalSize h = 0 \/ NumBlocks h = 0 ->
  SequentialDecompressFile file = Done [] /\
  (forall decodePayload threads,
     BSPDecompressFile decodePayload file threads = Done []) /\
  (forall decodePayload threads,
     WorkStealingDecompressFile decodePayload file threads = Done []).
Proof.
  intros Hr Hz.
  assert (Hc : (OriginalSize h =? 0) || (NumBlocks h =? 0) = true).
  { destruct Hz as [-> | ->]; [reflexivity | apply orb_true_r]. }
  unfold SequentialDecompressFile, BSPDecompressFile, WorkStealingDecompressFile.
  rewrite Hr, Hc. auto.
Qed.

Lemma decompress_empty_header_witness :
  ReadHeader sizeWithoutBlocks
  = Done (mkFileHeader ["f"%byte] 5 1048576 0 [], []) /\
  SequentialDecompressFile sizeWithoutBlocks = Done [] /\
  (forall decodePayload threads,
     BSPDecompressFile decodePayload sizeWithoutBlocks threads = Done []) /\
  (forall decodePayload threads,
     WorkStealingDecompressFile decodePayload sizeWithoutBlocks threads = Done []).
Proof.
  split; [reflexivity |].
  apply (decompress_empty_header sizeWithoutBlocks []
           (mkFileHeader ["f"%byte] 5 1048576 0 [])).
  - reflexivity.
  - right. reflexivity.
Defined.

(** ** C9: the work-stealing deque *)

(** The state machine, run for one call without interference, does what the
    method does. *)
Section DequeMethods.
Import Deque.

Lemma PushBottom_run (d d' : WSDeque) (task : Z) (ths : list thiefPc) :
  PushBottom d task = Done d' ->
  run (mkState d OIdle ths false) [CallPush task; OwnerStep; OwnerStep]
  = (mkState d' OIdle ths false, [Pushed task]).
Proof.
  unfold PushBottom. cbn [run step crashed owner deque thieves ownerStep].
  destruct (store (tasks d) (Z.land (bottom d) (mask d)) task) as [ts| | |];
    cbn [bind]; try discriminate.
  intros [= <-]. reflexivity.
Qed.

Lemma PopBottom_run (d d' : WSDeque) (r : Z * bool) (ths : list thiefPc) :
  PopBottom d = Done (d', r) ->
  run (mkState d OIdle ths false)
      [CallPop; OwnerStep; OwnerStep; OwnerStep; OwnerStep; OwnerStep]
  = (mkState d' OIdle ths false, [popEvent r]).
Proof.
  unfold PopBottom. cbn [run step crashed owner deque thieves ownerStep].
  destruct (bottom d =? 0); [intros [= <- <-]; reflexivity |].
  cbn [run step crashed owner deque thieves ownerStep setBottom top bottom tasks mask fst snd].
  destruct (top d <=? uint64 (bottom d - 1));
    [| intros [= <- <-]; reflexivity].
  cbn [run step crashed owner deque thieves ownerStep setBottom top bottom tasks mask fst snd].
  destruct (index (tasks d) (Z.land (uint64 (bottom d - 1)) (mask d))) as [task| | |];
    cbn [bind]; try discriminate.
  destruct (top d =? uint64 (bottom d - 1)) eqn:Heq;
    [| intros [= <- <-]; reflexivity].
  cbn [run step crashed owner deque thieves ownerStep].
  unfold casTop. cbn [top setBottom]. rewrite Z.eqb_refl. cbn [negb].
  intros [= <- <-]. reflexivity.
Qed.

Ltac thief_go :=
  try unfold step at 1; cbn [thiefStep bind crashed thieves deque owner].

Lemma Steal_run (d d' : WSDeque) (r : Z * bool) (pc : ownerPc)
  (ths : list thiefPc) (i : nat) :
  ths !! i = Some TIdle ->
  Steal d = Done (d', r) ->
  run (mkState d pc ths false)
      (replicate (if bottom d <=? top d then 2 else 4) (ThiefStep i))
  = (mkState d' pc ths false, [stealEvent r]).
Proof.
  intros Hi. unfold Steal.
  assert (Hlt : (i < length ths)%nat) by (eapply lookup_lt_Some; exact Hi).
  assert (Hback : forall pc1, <[i := TIdle]> (<[i := pc1]> ths) = ths).
  { intros pc1. rewrite list_insert_insert_eq. now apply list_insert_id. }
  assert (Hget : forall pc1, <[i := pc1]> ths !! i = Some pc1).
  { intros pc1. now apply list_lookup_insert_eq. }
  destruct (bottom d <=? top d) eqn:Hempty.
  - intros [= <- <-]. cbn [replicate run].
    thief_go. rewrite Hi. thief_go. rewrite Hget. thief_go.
    rewrite Hempty, Hback. reflexivity.
  - destruct (index (tasks d) (Z.land (top d) (mask d))) as [task| | |] eqn:Hidx;
      cbn [bind]; try discriminate.
    unfold casTop. rewrite Z.eqb_refl. cbn [negb]. intros [= <- <-].
    cbn [replicate run].
    thief_go. rewrite Hi. thief_go. rewrite Hget. thief_go.
    rewrite Hempty. thief_go. rewrite list_insert_insert_eq, Hget. thief_go.
    rewrite Hidx. thief_go. rewrite list_insert_insert_eq, Hget. thief_go.
    unfold casTop. rewrite Z.eqb_refl. cbn [negb].
    rewrite Hback. reflexivity.
Qed.
End DequeMethods.

Section DequeSlots.
Import Deque.

Lemma land_mask (d : WSDeque) (k : Z) :
  wfDeque d -> 0 <= k ->
  Z.land k (mask d) = k mod len (tasks d) /\
  0 <= Z.land k (mask d) < len (tasks d).
Proof.
  intros (n & Hn & Hm & Hl) Hk. rewrite Hm, Hl, Z.land_ones by lia.
  split; [reflexivity |]. apply Z.mod_pos_bound. lia.
Qed.

Lemma index_slot (d : WSDeque) (k : Z) :
  wfDeque d -> 0 <= k ->
  index (tasks d) (Z.land k (mask d)) = Done (slot d k).
Proof.
  intros Hwf Hk. destruct (land_mask d k Hwf Hk) as [_ Hr].
  destruct (index_in_range _ _ Hr) as [x Hx]. rewrite Hx.
  apply index_Done_iff in Hx as [_ Hx]. unfold slot. now rewrite Hx.
Qed.

Lemma wfDeque_setTasks (d : WSDeque) (ts : list Z) :
  wfDeque d -> len ts = len (tasks d) -> wfDeque (setTasks d ts).
Proof.
  intros (n & Hn & Hm & Hl) Hts. exists n. cbn. rewrite Hts. auto.
Qed.

Lemma store_slot (d : WSDeque) (k v : Z) :
  wfDeque d -> 0 <= k ->
  exists ts, store (tasks d) (Z.land k (mask d)) v = Done ts /\
    len ts = len (tasks d) /\
    slot (setTasks d ts) k = v /\
    (forall k', 0 <= k' -> k' mod len (tasks d) <> k mod len (tasks d) ->
                slot (setTasks d ts) k' = slot d k').
Proof.
  intros Hwf Hk. destruct (land_mask d k Hwf Hk) as [Hmod Hr].
  unfold store.
  destruct (Z.ltb_spec (Z.land k (mask d)) 0); [lia |].
  destruct (Z.leb_spec (len (tasks d)) (Z.land k (mask d))); [lia |].
  cbn [orb]. eexists. split; [reflexivity |].
  split; [unfold len; now rewrite length_insert |].
  split.
  - unfold slot. cbn [tasks mask setTasks].
    rewrite list_lookup_insert_eq; [reflexivity | unfold len in Hr; lia].
  - intros k' Hk' Hne. destruct (land_mask d k' Hwf Hk') as [Hmod' Hr'].
    unfold slot. cbn [tasks mask setTasks].
    rewrite list_lookup_insert_ne; [reflexivity | lia].
Qed.

Lemma slots_nil (d : WSDeque) (lo : Z) : slots d lo lo = [].
Proof. unfold slots. now rewrite Z.sub_diag. Qed.

Lemma slots_cons (d : WSDeque) (lo hi : Z) :
  lo < hi -> slots d lo hi = slot d lo :: slots d (lo + 1) hi.
Proof.
  intros H. unfold slots.
  rewrite seqZ_cons by lia. cbn [map]. do 3 f_equal; lia.
Qed.

Lemma slots_snoc (d : WSDeque) (lo hi : Z) :
  lo <= hi -> slots d lo (hi + 1) = slots d lo hi ++ [slot d hi].
Proof.
  intros H. unfold slots.
  replace (hi + 1 - lo) with ((hi - lo) + 1) by lia.
  rewrite seqZ_app by lia. rewrite map_app.
  rewrite (seqZ_cons _ 1) by lia. rewrite (seqZ_nil _ (Z.pred 1)) by lia.
  cbn [map]. do 3 f_equal. lia.
Qed.

Lemma slots_ext (d d' : WSDeque) (lo hi : Z) :
  (forall k, lo <= k < hi -> slot d' k = slot d k) ->
  slots d' lo hi = slots d lo hi.
Proof.
  intros H. unfold slots. apply map_ext_in. intros k Hk.
  apply list_elem_of_In, elem_of_seqZ in Hk. apply H. lia.
Qed.

Lemma mod_differs (C a b : Z) :
  0 < b - a < C -> a mod C <> b mod C.
Proof.
  intros H Heq.
  pose proof (Z.div_mod a C ltac:(lia)). pose proof (Z.div_mod b C ltac:(lia)).
  assert (b - a = C * (b / C - a / C)) by lia.
  assert (0 < b / C - a / C < 1) by nia. lia.
Qed.
End DequeSlots.

Section DequeInvariant.
Import Deque.

Lemma uint64_small (v : Z) : 0 <= v < 2 ^ 64 -> uint64 v = v.
Proof. intros H. unfold uint64. now apply Z.mod_small. Qed.

Lemma thiefInv_same_top (d d' : WSDeque) (lim lim' : Z) (pc : thiefPc) :
  thiefInv d lim pc -> top d' = top d ->
  (top d < lim -> top d < lim' /\ slot d' (top d) = slot d (top d)) ->
  thiefInv d' lim' pc.
Proof.
  intros H Ht Hl. destruct pc as [|t|t|t x]; cbn [thiefInv] in *; rewrite ?Ht.
  - exact I.
  - exact H.
  - destruct H as [H1 H2]. split; [exact H1 |]. intros ->.
    specialize (H2 eq_refl). destruct (Hl H2). assumption.
  - destruct H as [H1 H2]. split; [exact H1 |]. intros ->.
    destruct (H2 eq_refl) as [H3 ->]. destruct (Hl H3) as [H4 H5].
    split; [assumption | now rewrite H5].
Qed.

Lemma thiefInv_top_advance (d d' : WSDeque) (lim lim' : Z) (pc : thiefPc) :
  thiefInv d lim pc -> top d < top d' -> thiefInv d' lim' pc.
Proof.
  intros H Ht. destruct pc as [|t|t|t x]; cbn [thiefInv] in *.
  - exact I.
  - lia.
  - split; [lia |]. intros ->. lia.
  - split; [lia |]. intros ->. lia.
Qed.

Lemma bottom_le_lim (d : WSDeque) (pc : ownerPc) :
  ownerInv d pc -> bottom d <= limOf d pc /\ limOf d pc <= hiOf d pc.
Proof.
  destruct pc; cbn [ownerInv limOf hiOf]; intros H; try lia.
  destruct (Z.ltb_spec t b); lia.
Qed.

Lemma slot_setTop (d : WSDeque) (t k : Z) : slot (setTop d t) k = slot d k.
Proof. reflexivity. Qed.


Lemma slots_setTop (d : WSDeque) (t lo hi : Z) :
  slots (setTop d t) lo hi = slots d lo hi.
Proof. reflexivity. Qed.

Lemma slots_setBottom (d : WSDeque) (b lo hi : Z) :
  slots (setBottom d b) lo hi = slots d lo hi.
Proof. reflexivity. Qed.

Lemma pushed_app (evs evs' : list event) :
  pushed (evs ++ evs') = pushed evs ++ pushed evs'.
Proof. apply omap_app. Qed.

Lemma returned_app (evs evs' : list event) :
  returned (evs ++ evs') = returned evs ++ returned evs'.
Proof. apply omap_app. Qed.
End DequeInvariant.

Section DequeSteps.
Import Deque.

Lemma pushed_snoc (evs : list event) (e : event) :
  pushed (evs ++ [e])
  = pushed evs ++ match e with Pushed x => [x] | _ => [] end.
Proof. rewrite pushed_app. now destruct e. Qed.

Lemma returned_snoc (evs : list event) (e : event) :
  returned (evs ++ [e])
  = returned evs ++ match e with Popped x | Stolen x => [x] | _ => [] end.
Proof. rewrite returned_app. now destruct e. Qed.

Ltac inv_split :=
  split; [split; [reflexivity |
          split; [| split; [| split; [| split; [| split; [| split]]]]]] |].

Ltac same_thieves Hth :=
  eapply Forall_impl; [exact Hth |];
  let pc0 := fresh "pc0" in let Hpc := fresh "Hpc" in
  intros pc0 Hpc; eapply thiefInv_same_top; [exact Hpc | reflexivity |].

Lemma ownerStep_inv (d : WSDeque) (pc : ownerPc) (ths : list thiefPc)
  (evs : list event) (a : action) :
  (forall i, a <> ThiefStep i) ->
  Inv (mkState d pc ths false) evs -> pushFits (mkState d pc ths false) a ->
  exists d' pc' evs',
    ownerStep d pc a = Done (d', pc', evs') /\
    Inv (mkState d' pc' ths false) (evs ++ evs') /\
    top d <= top d'.
Proof.
  intros Ha HI Hfit.
  assert (Hnoop : exists d' pc' evs',
    Done (d, pc, @nil event) = Done (d', pc', evs') /\
    Inv (mkState d' pc' ths false) (evs ++ evs') /\ top d <= top d').
  { exists d, pc, []. rewrite app_nil_r. split; [reflexivity |]. split; [exact HI | lia]. }
  destruct a as [task| | |i]; [| | | now destruct (Ha i)];
  destruct pc as [|task' b|task' b|b|b|b t|b t x|b x|b]; cbn [ownerStep];
  try exact Hnoop; clear Hnoop;
  unfold Inv in *; cbn [deque owner thieves crashed] in *;
  destruct HI as (_ & Hwf & HT & Hcap & Hhi & Hown & Hth & Hperm);
  cbn [hiOf limOf ownerInv inflight pushFits owner deque] in *.
  - (* PushBottom: b := d.bottom.Load() *)
    destruct (Hfit eq_refl) as [Hroom Hend].
    eexists _, _, _. split; [reflexivity |].
    cbn [hiOf limOf ownerInv inflight]. rewrite app_nil_r.
    inv_split; auto; lia.
  - (* PopBottom: b := d.bottom.Load(); b == 0; b = b - 1 *)
    destruct (Z.eqb_spec (bottom d) 0) as [Hb|Hb];
      eexists _, _, _; (split; [reflexivity |]);
      cbn [hiOf limOf ownerInv inflight].
    + rewrite pushed_snoc, returned_snoc, !app_nil_r.
      inv_split; auto; try lia. now rewrite app_nil_r in Hperm.
    + rewrite uint64_small, app_nil_r by lia.
      replace (bottom d - 1 + 1) with (bottom d) by lia.
      inv_split; auto; lia.
  - (* d.tasks[b&d.mask] = task *)
    destruct Hown as (-> & Hroom & Hend).
    destruct (store_slot d (bottom d) task' Hwf ltac:(lia))
      as (ts & -> & Hlen & Hs1 & Hs2).
    assert (Hkeep : forall k, top d <= k < bottom d ->
              slot (setTasks d ts) k = slot d k).
    { intros k Hk. apply Hs2; [lia |]. apply mod_differs. lia. }
    cbn [bind]. eexists _, _, _. split; [reflexivity |].
    cbn [hiOf limOf ownerInv inflight setTasks top bottom tasks].
    rewrite app_nil_r, Hlen.
    inv_split; auto; try lia.
    + now apply wfDeque_setTasks.
    + same_thieves Hth. intros Hlt. split; [exact Hlt |]. apply Hkeep. lia.
    + rewrite (slots_ext d (setTasks d ts)) by exact Hkeep. exact Hperm.
  - (* d.bottom.Store(b + 1) *)
    destruct Hown as (-> & Hroom & Hend & Hslot).
    rewrite uint64_small by lia.
    eexists _, _, _. split; [reflexivity |].
    cbn [hiOf limOf ownerInv inflight setBottom top bottom tasks].
    rewrite pushed_snoc, returned_snoc, !app_nil_r, slots_setBottom.
    inv_split; auto; try lia.
    + same_thieves Hth. intros Hlt. split; [lia | reflexivity].
    + rewrite slots_snoc, Hslot, Hperm, app_nil_r by lia.
      now rewrite app_assoc.
  - (* d.bottom.Store(b) *)
    destruct Hown as [Hb Hb0].
    eexists _, _, _. split; [reflexivity |].
    cbn [hiOf limOf ownerInv inflight setBottom top bottom tasks].
    rewrite app_nil_r, slots_setBottom.
    inv_split; auto; try lia.
  - (* t := d.top.Load(); t <= b *)
    destruct Hown as [Hb Hb0].
    destruct (Z.leb_spec (top d) b) as [Hle|Hgt];
      eexists _, _, _; (split; [reflexivity |]);
      cbn [hiOf limOf ownerInv inflight]; rewrite app_nil_r.
    + inv_split; auto; try lia.
      same_thieves Hth. intros Hlt. destruct (Z.ltb_spec (top d) b); auto; lia.
    + inv_split; auto; lia.
  - (* task := d.tasks[b&d.mask]; t == b *)
    destruct Hown as (Hb & Ht & HtT & Hlim).
    rewrite index_slot by (auto; lia). cbn [bind].
    destruct (Z.eqb_spec t b) as [Heq|Hne];
      eexists _, _, _; (split; [reflexivity |]);
      cbn [hiOf limOf ownerInv inflight].
    + rewrite app_nil_r. subst t.
      destruct (Z.ltb_spec b b); [lia |].
      inv_split; auto; lia.
    + rewrite pushed_snoc, returned_snoc, !app_nil_r.
      destruct (Z.ltb_spec t b); [| lia].
      specialize (Hlim ltac:(lia)). subst b.
      inv_split; auto; try lia.
      rewrite Hperm, slots_snoc, app_nil_r by lia.
      rewrite <- !app_assoc. f_equiv. apply Permutation_app_comm.
  - (* d.top.CompareAndSwap(t, t+1) *)
    destruct Hown as (Hb & -> & HbT & Hx).
    unfold casTop.
    destruct (Z.eqb_spec (top d) b) as [Heq|Hne]; cbn [negb];
      eexists _, _, _; (split; [reflexivity |]);
      cbn [hiOf limOf ownerInv inflight setTop top bottom tasks];
      rewrite app_nil_r.
    + rewrite uint64_small, slots_setTop by lia.
      inv_split; auto; try lia.
      * eapply Forall_impl; [exact Hth |]. intros pc0 Hpc.
        eapply thiefInv_top_advance; [exact Hpc |]. cbn. lia.
      * rewrite Hperm, Heq, slots_nil, (slots_cons d b), slots_nil by lia.
        now rewrite (Hx Heq).
    + inv_split; auto; lia.
  - (* d.bottom.Store(b + 1); return task, true *)
    destruct Hown as [Hb HbT].
    eexists _, _, _. split; [reflexivity |].
    cbn [hiOf limOf ownerInv inflight setBottom top bottom tasks].
    rewrite uint64_small, pushed_snoc, returned_snoc, !app_nil_r, slots_setBottom by lia.
    inv_split; auto; try lia.
    rewrite Hperm, HbT, slots_nil. now rewrite app_nil_r.
  - (* d.bottom.Store(b + 1); return 0, false *)
    destruct Hown as [Hb HbT].
    eexists _, _, _. split; [reflexivity |].
    cbn [hiOf limOf ownerInv inflight setBottom top bottom tasks].
    rewrite uint64_small, pushed_snoc, returned_snoc, !app_nil_r, slots_setBottom by lia.
    inv_split; auto; try lia.
    now rewrite app_nil_r in Hperm.
Qed.

Lemma ownerInv_steal (d : WSDeque) (pc : ownerPc) :
  ownerInv d pc -> 0 <= top d < limOf d pc -> top d + 1 < 2 ^ 64 ->
  ownerInv (setTop d (top d + 1)) pc.
Proof.
  destruct pc as [|task' b|task' b|b|b|b t|b t x|b x|b];
    cbn [ownerInv limOf hiOf setTop top bottom tasks]; intros H Hl Hr;
    rewrite ?slot_setTop; try lia.
  destruct (Z.ltb_spec t b); lia.
Qed.

Lemma thiefStep_inv (d : WSDeque) (pc : ownerPc) (ths : list thiefPc)
  (evs : list event) (i : nat) (tpc : thiefPc) :
  Inv (mkState d pc ths false) evs -> ths !! i = Some tpc ->
  exists d' tpc' evs',
    thiefStep d tpc = Done (d', tpc', evs') /\
    Inv (mkState d' pc (<[i := tpc']> ths) false) (evs ++ evs') /\
    top d <= top d'.
Proof.
  unfold Inv; cbn [deque owner thieves crashed].
  intros (_ & Hwf & HT & Hcap & Hhi & Hown & Hth & Hperm) Hi.
  pose proof (proj1 (Forall_lookup _ _) Hth i tpc Hi) as Htpc.
  destruct (bottom_le_lim d pc Hown) as [HBl Hlh].
  destruct tpc as [|t|t|t x]; cbn [thiefStep thiefInv] in *.
  - (* t := d.top.Load() *)
    eexists _, _, _. split; [reflexivity |]. rewrite app_nil_r.
    inv_split; auto; try lia.
    apply Forall_insert; [exact Hth |]. cbn [thiefInv]. lia.
  - (* b := d.bottom.Load(); t >= b *)
    destruct (Z.leb_spec (bottom d) t);
      eexists _, _, _; (split; [reflexivity |]).
    + rewrite pushed_snoc, returned_snoc, !app_nil_r.
      inv_split; auto; try lia.
      apply Forall_insert; [exact Hth | exact I].
    + rewrite app_nil_r. inv_split; auto; try lia.
      apply Forall_insert; [exact Hth |]. cbn [thiefInv]. split; [lia |].
      intros _. lia.
  - (* task := d.tasks[t&d.mask] *)
    destruct Htpc as [Ht Hlim].
    rewrite index_slot by (auto; lia). cbn [bind].
    eexists _, _, _. split; [reflexivity |]. rewrite app_nil_r.
    inv_split; auto; try lia.
    apply Forall_insert; [exact Hth |]. cbn [thiefInv]. split; [lia |].
    intros Heq. split; [auto | reflexivity].
  - (* d.top.CompareAndSwap(t, t+1) *)
    destruct Htpc as [Ht Hlim]. unfold casTop.
    destruct (Z.eqb_spec (top d) t) as [Heq|Hne]; cbn [negb];
      eexists _, _, _; (split; [reflexivity |]).
    + subst t. destruct (Hlim eq_refl) as [Hlt ->].
      rewrite uint64_small by lia.
      rewrite pushed_snoc, returned_snoc, !app_nil_r.
      assert (Hhi' : hiOf (setTop d (top d + 1)) pc = hiOf d pc) by now destruct pc.
      assert (Hlim' : limOf (setTop d (top d + 1)) pc = limOf d pc) by now destruct pc.
      rewrite Hhi', Hlim', slots_setTop. cbn [setTop top tasks].
      inv_split; auto; try lia.
      * apply ownerInv_steal; auto; lia.
      * apply Forall_insert; [| exact I].
        eapply Forall_impl; [exact Hth |]. intros pc0 Hpc.
        eapply thiefInv_top_advance; [exact Hpc |]. cbn. lia.
      * rewrite Hperm, (slots_cons d (top d)) by lia.
        now rewrite <- !app_assoc.
    + rewrite pushed_snoc, returned_snoc, !app_nil_r.
      inv_split; auto; try lia.
      apply Forall_insert; [exact Hth | exact I].
Qed.

Lemma step_inv (s : state) (evs : list event) (a : action) :
  Inv s evs -> pushFits s a ->
  Inv (step s a).1 (evs ++ (step s a).2) /\
  top (deque s) <= top (deque (step s a).1).
Proof.
  intros HI Hfit. destruct s as [d pc ths cr].
  assert (cr = false) as -> by apply HI.
  unfold step. cbn [crashed deque owner thieves].
  assert (Howner : (forall i, a <> ThiefStep i) ->
    let r := match ownerStep d pc a with
             | Done (d', pc', evs0) => (mkState d' pc' ths false, evs0)
             | _ => (crash (mkState d pc ths false), [])
             end in
    Inv r.1 (evs ++ r.2) /\ top d <= top (deque r.1)).
  { intros Ha.
    destruct (ownerStep_inv d pc ths evs a Ha HI Hfit)
      as (d' & pc' & evs' & -> & HI' & Hmono). cbn. auto. }
  destruct a as [task| | |i]; try (apply Howner; discriminate).
  destruct (ths !! i) as [tpc|] eqn:Hi.
  - destruct (thiefStep_inv d pc ths evs i tpc HI Hi)
      as (d' & tpc' & evs' & -> & HI' & Hmono). cbn. auto.
  - cbn. rewrite app_nil_r. split; [exact HI | lia].
Qed.

Lemma run_app (sched1 sched2 : list action) :
  forall s,
  run s (sched1 ++ sched2)
  = ((run (run s sched1).1 sched2).1,
     (run s sched1).2 ++ (run (run s sched1).1 sched2).2).
Proof.
  induction sched1 as [|a sched1 IH]; intros s; cbn [run app].
  - cbn [fst snd app]. now destruct (run s sched2).
  - destruct (step s a) as [s1 evs1]. rewrite IH.
    destruct (run s1 sched1) as [s2 evs2]. cbn [fst snd].
    now rewrite app_assoc.
Qed.

Lemma withinCapacity_app (sched1 sched2 : list action) :
  forall s,
  withinCapacity s (sched1 ++ sched2) ->
  withinCapacity s sched1 /\ withinCapacity (run s sched1).1 sched2.
Proof.
  induction sched1 as [|a sched1 IH]; intros s; cbn [withinCapacity run app].
  - auto.
  - intros [Hfit H]. apply IH in H as [H1 H2].
    destruct (step s a) as [s1 evs1]. cbn [fst] in *.
    destruct (run s1 sched1) as [s2 evs2]. auto.
Qed.

Lemma run_inv (sched : list action) :
  forall s evs,
  Inv s evs -> withinCapacity s sched ->
  Inv (run s sched).1 (evs ++ (run s sched).2) /\
  top (deque s) <= top (deque (run s sched).1).
Proof.
  induction sched as [|a sched IH]; intros s evs HI Hcap; cbn [run withinCapacity] in *.
  - cbn [fst snd]. rewrite app_nil_r. split; [exact HI | lia].
  - destruct Hcap as [Hfit Hcap].
    destruct (step_inv s evs a HI Hfit) as [HI1 Hm1].
    destruct (step s a) as [s1 evs1]. cbn [fst snd] in *.
    destruct (IH s1 (evs ++ evs1) HI1 Hcap) as [HI2 Hm2].
    destruct (run s1 sched) as [s2 evs2]. cbn [fst snd] in *.
    rewrite app_assoc. split; [exact HI2 | lia].
Qed.
End DequeSteps.

Section NextPow2.
Import Deque.
Variable x : Z.

Lemma smeared_start : smeared x 1 x.
Proof.
  intros i Hi. split.
  - intros H. exists i. split; [lia | exact H].
  - intros (j & Hj & H). now replace i with j by lia.
Qed.

Lemma smeared_step (w y : Z) :
  0 < w -> smeared x w y -> smeared x (2 * w) (Z.lor y (Z.shiftr y w)).
Proof.
  intros Hw Hy i Hi.
  rewrite Z.lor_spec, Z.shiftr_spec, orb_true_iff by lia.
  rewrite (Hy i Hi), (Hy (i + w)) by lia.
  split.
  - intros [(j & Hj & H) | (j & Hj & H)]; exists j; (split; [lia | exact H]).
  - intros (j & Hj & H).
    destruct (Z.lt_ge_cases j (i + w)); [left | right]; exists j; (split; [lia | exact H]).
Qed.

Lemma smeared_ones (y : Z) :
  0 <= x < 2 ^ 64 -> smeared x 64 y -> 0 <= y ->
  y = Z.ones (if x =? 0 then 0 else Z.log2 x + 1).
Proof.
  intros Hx Hy Hy0. apply Z.bits_inj'. intros i Hi.
  destruct (Z.eqb_spec x 0) as [H0|H0].
  - change (Z.ones 0) with 0. rewrite Z.bits_0.
    apply not_true_is_false. intros H. apply Hy in H as (j & _ & H); [| lia].
    rewrite H0, Z.bits_0 in H. discriminate.
  - assert (Hm : Z.testbit x (Z.log2 x) = true) by (apply Z.bit_log2; lia).
    assert (Hm64 : Z.log2 x < 64) by (apply Z.log2_lt_pow2; lia).
    pose proof (Z.log2_nonneg x) as Hm0.
    destruct (Z.lt_ge_cases i (Z.log2 x + 1)) as [Hlt|Hge].
    + rewrite Z.ones_spec_low by lia. apply Hy; [lia |].
      exists (Z.log2 x). split; [lia | exact Hm].
    + rewrite Z.ones_spec_high by lia.
      apply not_true_is_false. intros H. apply Hy in H as (j & Hj & H); [| lia].
      rewrite Z.bits_above_log2 in H by lia. discriminate.
Qed.
End NextPow2.

Section NewDeque.
Import Deque.


Lemma nextPow2_spec (n : Z) :
1 <= n <= 2 ^ 62 ->
exists k, 0 <= k <= 62 /\ nextPow2 n = 2 ^ k /\ n <= 2 ^ k.
Proof.
intros Hn. unfold nextPow2.
rewrite (uint64_small (n - 1)) by lia.
set (x := n - 1).
set (x1 := Z.lor x (Z.shiftr x 1)).
set (x2 := Z.lor x1 (Z.shiftr x1 2)).
set (x3 := Z.lor x2 (Z.shiftr x2 4)).
set (x4 := Z.lor x3 (Z.shiftr x3 8)).
set (x5 := Z.lor x4 (Z.shiftr x4 16)).
set (x6 := Z.lor x5 (Z.shiftr x5 32)).
assert (H1 : smeared x 2 x1) by (apply (smeared_step x 1); [lia | apply smeared_start]).
assert (H2 : smeared x 4 x2) by (apply (smeared_step x 2); [lia | exact H1]).
assert (H3 : smeared x 8 x3) by (apply (smeared_step x 4); [lia | exact H2]).
assert (H4 : smeared x 16 x4) by (apply (smeared_step x 8); [lia | exact H3]).
assert (H5 : smeared x 32 x5) by (apply (smeared_step x 16); [lia | exact H4]).
assert (H6 : smeared x 64 x6) by (apply (smeared_step x 32); [lia | exact H5]).
assert (Hx : 0 <= x < 2 ^ 62) by (unfold x; lia).
assert (Hnn : forall a s, 0 <= a -> 0 <= Z.lor a (Z.shiftr a s)).
{ intros a s Ha. apply Z.lor_nonneg. split; [exact Ha | now apply Z.shiftr_nonneg]. }
assert (H60 : 0 <= x6) by (repeat apply Hnn; lia).
rewrite (smeared_ones x x6) by (auto; lia).
set (k := if x =? 0 then 0 else Z.log2 x + 1).
assert (Hk : 0 <= k <= 62).
{ unfold k. destruct (Z.eqb_spec x 0); [lia |].
  pose proof (Z.log2_nonneg x).
  assert (Z.log2 x < 62) by (apply Z.log2_lt_pow2; lia). lia. }
assert (Hpow : n <= 2 ^ k).
{ unfold k. destruct (Z.eqb_spec x 0) as [H0|H0]; [unfold x in H0; lia |].
  pose proof (Z.log2_spec x ltac:(lia)) as Hl.
  replace (Z.log2 x + 1) with (Z.succ (Z.log2 x)) by lia. unfold x in *. lia. }
exists k. split; [exact Hk |]. split; [| exact Hpow].
rewrite Z.ones_equiv.
replace (Z.pred (2 ^ k) + 1) with (2 ^ k) by lia.
assert (0 < 2 ^ k <= 2 ^ 62).
{ split; [apply Z.pow_pos_nonneg; lia | apply Z.pow_le_mono_r; lia]. }
rewrite uint64_small by lia.
unfold int64. rewrite Z.mod_small by lia. lia.
Qed.

Lemma NewWSDeque_wf (capacity : Z) :
capacity <= 2 ^ 62 ->
wfDeque (NewWSDeque capacity) /\
top (NewWSDeque capacity) = 0 /\ bottom (NewWSDeque capacity) = 0 /\
capacity <= len (tasks (NewWSDeque capacity)).
Proof.
intros Hc. unfold NewWSDeque.
set (c := if capacity <=? 0 then 1 else capacity).
assert (Hc1 : 1 <= c <= 2 ^ 62 /\ capacity <= c).
{ unfold c. destruct (Z.leb_spec capacity 0); lia. }
destruct (nextPow2_spec c (proj1 Hc1)) as (k & Hk & -> & Hle).
cbn [tasks mask top bottom].
assert (0 < 2 ^ k <= 2 ^ 62).
{ split; [apply Z.pow_pos_nonneg; lia | apply Z.pow_le_mono_r; lia]. }
assert (Hlen : len (replicate (Z.to_nat (2 ^ k)) 0) = 2 ^ k).
{ unfold len. rewrite length_replicate. lia. }
split; [| rewrite Hlen; destruct Hc1; split; [reflexivity | split; [reflexivity | lia]]].
exists k. split; [lia |]. split; [| exact Hlen].
rewrite uint64_small by lia. rewrite Z.ones_equiv. cbn [mask]. lia.
Qed.
End NewDeque.

Section DequeRuns.
Import Deque.

Lemma start_inv (capacity : Z) (n : nat) :
  capacity <= 2 ^ 62 -> Inv (start capacity n) [].
Proof.
  intros Hc. destruct (NewWSDeque_wf capacity Hc) as (Hwf & Ht & Hb & _).
  unfold Inv, start. cbn [deque owner thieves crashed hiOf limOf ownerInv inflight].
  rewrite Ht, Hb, slots_nil. pose proof (len_nonneg (tasks (NewWSDeque capacity))).
  split; [reflexivity |]. split; [exact Hwf |].
  split; [lia |]. split; [lia |]. split; [lia |]. split; [exact I |].
  split; [| reflexivity].
  apply Forall_replicate. exact I.
Qed.

(** C9, as the code has it.  In every run of the owner's calls and the
    thieves' calls, interleaved access by access, that never pushes onto a
    full deque: no access of [tasks] is out of range; the tasks returned by
    [PopBottom] and [Steal] are among the tasks pushed, each at most as
    often as it was pushed; when no call is in progress the tasks pushed are
    the tasks returned and the tasks at the positions [top, bottom), so with
    [top = bottom] each pushed task has been returned once; and [top] never
    decreases.  Nothing is said of [bottom]. *)
Theorem deque_returns_each_task_once (capacity : Z) (n : nat)
  (sched : list action) :
  capacity <= 2 ^ 62 ->
  withinCapacity (start capacity n) sched ->
  let s := (run (start capacity n) sched).1 in
  let evs := (run (start capacity n) sched).2 in
  crashed s = false /\
  submseteq (returned evs) (pushed evs) /\
  (quiescent s ->
     Permutation (pushed evs)
       (returned evs ++ slots (deque s) (top (deque s)) (bottom (deque s)))) /\
  (quiescent s -> top (deque s) = bottom (deque s) ->
     Permutation (returned evs) (pushed evs)) /\
  (forall sched1 sched2, sched = sched1 ++ sched2 ->
     top (deque (run (start capacity n) sched1).1) <= top (deque s)).
Proof.
  intros Hc Hcap s evs.
  destruct (run_inv sched _ [] (start_inv capacity n Hc) Hcap) as [HI _].
  fold s evs in HI. cbn [app] in HI.
  destruct HI as (Hcr & Hwf & HT & Hroom & Hhi & Hown & Hth & Hperm).
  assert (Hq : quiescent s ->
            Permutation (pushed evs)
              (returned evs ++ slots (deque s) (top (deque s)) (bottom (deque s)))).
  { intros [Ho _]. rewrite Ho in Hperm. cbn [hiOf inflight] in Hperm.
    now rewrite app_nil_r in Hperm. }
  split; [exact Hcr |]. split; [| split; [exact Hq | split]].
  - rewrite Hperm. apply submseteq_inserts_r. reflexivity.
  - intros Hquiet Heq. specialize (Hq Hquiet).
    rewrite Heq, slots_nil, app_nil_r in Hq. now symmetry.
  - intros sched1 sched2 ->. subst s.
    apply withinCapacity_app in Hcap as [Hcap1 Hcap2].
    destruct (run_inv sched1 _ [] (start_inv capacity n Hc) Hcap1) as [HI1 _].
    destruct (run_inv sched2 _ _ HI1 Hcap2) as [_ Hmono].
    rewrite run_app. cbn [fst]. exact Hmono.
Qed.

Lemma deque_returns_each_task_once_witness :
  withinCapacity (start 2 1)
    [CallPush 7; OwnerStep; OwnerStep; CallPush 8; OwnerStep; OwnerStep;
     ThiefStep 0; ThiefStep 0; CallPop; OwnerStep; OwnerStep; ThiefStep 0;
     OwnerStep; ThiefStep 0] /\
  (run (start 2 1)
    [CallPush 7; OwnerStep; OwnerStep; CallPush 8; OwnerStep; OwnerStep;
     ThiefStep 0; ThiefStep 0; CallPop; OwnerStep; OwnerStep; ThiefStep 0;
     OwnerStep; ThiefStep 0]).2 = [Pushed 7; Pushed 8; Popped 8; Stolen 7] /\
  submseteq (returned [Pushed 7; Pushed 8; Popped 8; Stolen 7])
            (pushed [Pushed 7; Pushed 8; Popped 8; Stolen 7]).
Proof.
  assert (Hcap : withinCapacity (start 2 1)
    [CallPush 7; OwnerStep; OwnerStep; CallPush 8; OwnerStep; OwnerStep;
     ThiefStep 0; ThiefStep 0; CallPop; OwnerStep; OwnerStep; ThiefStep 0;
     OwnerStep; ThiefStep 0]).
  { vm_compute. repeat split; intros; first [discriminate | exact I | reflexivity]. }
  split; [exact Hcap |]. split; [reflexivity |].
  exact (proj1 (proj2 (deque_returns_each_task_once 2 1 _ ltac:(lia) Hcap))).
Defined.

(** With two tasks in the deque and no thief, a [PopBottom] that returns a
    task leaves [bottom] one lower than it was. *)
Lemma deque_bottom_decreases :
  withinCapacity (start 2 0)
    ([CallPush 7; OwnerStep; OwnerStep; CallPush 8; OwnerStep; OwnerStep]
     ++ [CallPop; OwnerStep; OwnerStep; OwnerStep]) /\
  (run (start 2 0)
     ([CallPush 7; OwnerStep; OwnerStep; CallPush 8; OwnerStep; OwnerStep]
      ++ [CallPop; OwnerStep; OwnerStep; OwnerStep])).2
  = [Pushed 7; Pushed 8; Popped 8] /\
  bottom (deque (run (start 2 0)
     [CallPush 7; OwnerStep; OwnerStep; CallPush 8; OwnerStep; OwnerStep]).1) = 2 /\
  bottom (deque (run (start 2 0)
     ([CallPush 7; OwnerStep; OwnerStep; CallPush 8; OwnerStep; OwnerStep]
      ++ [CallPop; OwnerStep; OwnerStep; OwnerStep])).1) = 1.
Proof.
  split; [| repeat split; reflexivity].
  vm_compute. repeat split; intros; first [discriminate | exact I | reflexivity].
Qed.
End DequeRuns.

(** ** The size of a token stream *)

Lemma span_cons (t : token) (toks : list token) :
  span (t :: toks) = tokenSpan t + span toks.
Proof. reflexivity. Qed.

Lemma tokensFrom_span (input : list byte) (toks : list token) :
  forall i, tokensFrom input i toks -> span toks = len input - i.
Proof.
  induction toks as [|[b|offset matchLen] toks IH]; intros i H;
    rewrite ?span_cons; cbn [tokensFrom tokenSpan] in *.
  - unfold span. simpl. lia.
  - destruct H as [_ H]. apply IH in H. lia.
  - destruct H as (_ & _ & _ & _ & _ & H). apply IH in H. lia.
Qed.

Lemma tokensFrom_bytes_len (input : list byte) (toks : list token) :
  forall i, tokensFrom input i toks ->
  4 * span toks <= 255 * len (concat (map tokenBytes toks)) /\
  len (concat (map tokenBytes toks)) <= 2 * span toks.
Proof.
  induction toks as [|[b|offset matchLen] toks IH]; intros i H;
    rewrite ?span_cons; cbn [tokensFrom tokenSpan map concat] in *.
  - unfold span, len. simpl. lia.
  - destruct H as [_ H]. apply IH in H.
    rewrite len_app. unfold len at 1 3. cbn [tokenBytes length]. lia.
  - destruct H as (_ & _ & Hm & _ & _ & H). apply IH in H.
    unfold lzMinMatch, lzMaxMatch in Hm.
    rewrite len_app. unfold len at 1 3. cbn [tokenBytes length]. lia.
Qed.

(** The encoder never more than doubles its input and never shrinks it below
    4/255 of its length: a literal token spends 2 bytes on 1 input byte, a
    match token 4 bytes on 4 to 255 input bytes. *)
Theorem lz_token_stream_size (x : list byte) :
  exists tokens,
    lzCompressTokens x = Done tokens /\
    4 * len x <= 255 * len tokens /\
    len tokens <= 2 * len x.
Proof.
  destruct (lzTokens_spec x) as (toks & Hr & Hs).
  exists (concat (map tokenBytes toks)).
  unfold lzCompressTokens. rewrite Hr. split; [reflexivity |].
  pose proof (tokensFrom_span x toks 0 Hs) as Hspan.
  pose proof (tokensFrom_bytes_len x toks 0 Hs). lia.
Qed.

(** ** The decoder on arbitrary bytes *)


Lemma index_app_l {A : Type} (s t : list A) (i : Z) :
  0 <= i < len s -> index (s ++ t) i = index s i.
Proof.
  intros Hi. destruct (index_in_range s i Hi) as [a Ha]. rewrite Ha.
  apply index_Done_iff in Ha as [_ Ha]. apply index_Done_iff.
  split; [lia |]. unfold len in Hi. rewrite lookup_app_l by lia. exact Ha.
Qed.

Lemma index_app_here {A : Type} (s t : list A) (a : A) :
  index (s ++ a :: t) (len s) = Done a.
Proof.
  apply index_Done_iff. pose proof (len_nonneg s). split; [lia |].
  unfold len. rewrite Nat2Z.id. now apply list_lookup_middle.
Qed.





(** ** What a match copies *)

Lemma lzCopy_chain (n : nat) :
  forall cur start j out',
  0 <= start + j < len cur ->
  lzCopy n cur start j = Done out' ->
  exists ext, out' = cur ++ ext /\ len ext = Z.of_nat n /\
    forall k, 0 <= k < Z.of_nat n ->
      index out' (len cur + k) = index out' (start + j + k).
Proof.
  induction n as [|n IH]; intros cur start j out' Hs H; cbn [lzCopy] in H.
  - injection H as <-. exists []. rewrite app_nil_r.
    split; [reflexivity |]. split; [reflexivity |]. intros k Hk. lia.
  - destruct (index_in_range cur (start + j) Hs) as [b Hb].
    rewrite Hb in H. cbn [bind] in H.
    apply IH in H as (ext & -> & Hlen & Hk).
    2: { rewrite len_app. unfold len at 2. simpl. lia. }
    exists (b :: ext). rewrite <- app_assoc. cbn [app].
    split; [reflexivity |]. split; [unfold len in *; simpl; lia |].
    intros k Hk'. destruct (Z.eq_dec k 0) as [-> | Hne].
    + rewrite !Z.add_0_r, index_app_here, index_app_l by lia. now rewrite Hb.
    + specialize (Hk (k - 1) ltac:(lia)).
      rewrite len_app in Hk. unfold len at 2 in Hk. simpl in Hk.
      rewrite <- app_assoc in Hk. cbn [app] in Hk.
      replace (start + (j + 1) + (k - 1)) with (start + j + k) in Hk by lia.
      rewrite <- Hk. f_equal. lia.
Qed.

(** A match that is accepted leaves the output it found in place and appends
    [l] bytes, each the byte [offset] positions before it in the result: the
    copy reads what it has just written when [offset < l]. *)
Theorem lzDecodeMatch_copies (out out' : list byte) (lo hi l : byte) :
  lzDecodeMatch out lo hi l = Done out' ->
  let offset := Z.lor (byteZ lo) (Z.shiftl (byteZ hi) 8) in
  1 <= offset <= len out /\
  exists ext, out' = out ++ ext /\ len ext = byteZ l /\
    forall k, 0 <= k < byteZ l ->
      index out' (len out + k) = index out' (len out + k - offset).
Proof.
  intros H offset. unfold lzDecodeMatch in H. fold offset in H.
  pose proof (byteZ_range l) as Hl.
  destruct (Z.leb_spec offset 0); [discriminate |].
  destruct (Z.ltb_spec (len out) offset); [discriminate |]. cbn [orb] in H.
  split; [lia |].
  destruct (Z.to_nat (byteZ l)) as [|n] eqn:Hn.
  - cbn [lzCopy] in H. injection H as <-. exists []. rewrite app_nil_r.
    split; [reflexivity |]. split; [unfold len; simpl; lia |]. intros k Hk. lia.
  - apply lzCopy_chain in H as (ext & -> & Hlen & Hk); [| lia].
    exists ext. split; [reflexivity |]. split; [lia |].
    intros k Hk'. rewrite Hk by lia. f_equal. lia.
Qed.

Lemma lzDecodeMatch_copies_witness :
  lzDecodeMatch ["a"%byte; "b"%byte] "002"%byte "000"%byte "005"%byte
  = Done ["a"%byte; "b"%byte; "a"%byte; "b"%byte; "a"%byte; "b"%byte; "a"%byte] /\
  1 <= Z.lor (byteZ "002") (Z.shiftl (byteZ "000") 8) <= len ["a"%byte; "b"%byte].
Proof.
  split; [reflexivity |].
  exact (proj1 (lzDecodeMatch_copies ["a"%byte; "b"%byte] _ "002"%byte "000"%byte
                  "005"%byte eq_refl)).
Defined.

(** ** A token stream cut short *)

Section Truncation.
Variable input : list byte.

Lemma lzDecodeLoop_cut (toks : list token) :
  forall i p k,
  0 <= i -> tokensFrom input i toks ->
  concat (map tokenBytes toks) = p ++ k -> k <> [] ->
  (exists e, lzDecodeLoop p (take (Z.to_nat i) input) = Fail e) \/
  (exists out, lzDecodeLoop p (take (Z.to_nat i) input) = Done out /\
               len out < len input).
Proof.
  induction toks as [|[b|offset matchLen] toks IH]; intros i p k Hi Ht Hp Hk.
  - cbn in Hp. symmetry in Hp. apply app_eq_nil in Hp as [_ ->]. now destruct Hk.
  - destruct Ht as [Hb Ht]. cbn [map concat tokenBytes app] in Hp.
    assert (Hlt : i < len input).
    { destruct (Z.lt_ge_cases i (len input)); [assumption |].
      apply index_Done_iff in Hb as [_ Hb]. apply lookup_lt_Some in Hb.
      unfold len in *. lia. }
    destruct p as [|p0 [|p1 p]].
    + right. eexists. split; [reflexivity |]. rewrite len_take by lia. exact Hlt.
    + left. injection Hp as <- _. eexists. reflexivity.
    + injection Hp as <- <- Hp. cbn [lzDecodeLoop Byte.eqb].
      change (lzDecodeLoop ("000"%byte :: b :: p) (take (Z.to_nat i) input))
        with (lzDecodeLoop p (take (Z.to_nat i) input ++ [b])).
      rewrite (take_index_snoc _ _ _ Hb).
      apply (IH (i + 1) p k); auto; lia.
  - destruct Ht as (Ho & Hw & Hm & Hl & Hsame & Ht).
    cbn [map concat tokenBytes app] in Hp. unfold lzMinMatch in Hm.
    destruct p as [|p0 [|p1 [|p2 [|p3 p]]]].
    + right. eexists. split; [reflexivity |]. rewrite len_take by lia. lia.
    + left. injection Hp as <- _. eexists. reflexivity.
    + left. injection Hp as <- <- _. eexists. reflexivity.
    + left. injection Hp as <- <- <- _. eexists. reflexivity.
    + injection Hp as <- <- <- <- Hp.
      rewrite lzDecodeLoop_match, (lzDecodeMatch_spec input) by (auto; lia).
      cbn [bind]. apply (IH (i + matchLen) p k); auto; lia.
Qed.
End Truncation.

(** A token stream of the encoder that has lost bytes at its end is refused:
    decoding any proper prefix of it with the size of the input returns an
    error, never a shorter or different output. *)
Theorem lz_truncated_stream_fails (x tokens p k : list byte) :
  lzCompressTokens x = Done tokens ->
  tokens = p ++ k -> k <> [] ->
  exists e, lzDecompressTokens p (len x) = Fail e.
Proof.
  intros Hc Hp Hk.
  destruct (lzTokens_spec x) as (toks & Hr & Hs).
  unfold lzCompressTokens in Hc. rewrite Hr in Hc. cbn [bind] in Hc.
  injection Hc as Hc. rewrite <- Hc in Hp.
  unfold lzDecompressTokens.
  destruct (_ && _) eqn:Hz.
  - apply andb_prop in Hz as [_ Hx]. apply Z.eqb_eq in Hx.
    destruct x; [| discriminate].
    unfold lzTokens in Hr. cbn in Hr. injection Hr as <-. cbn in Hp.
    symmetry in Hp. apply app_eq_nil in Hp as [_ ->]. now destruct Hk.
  - destruct (lzDecodeLoop_cut x toks 0 p k ltac:(lia) Hs Hp Hk)
      as [[e He] | (out & Ho & Hlt)];
      change (take (Z.to_nat 0) x) with (@nil byte) in *.
    + rewrite He. eauto.
    + rewrite Ho. cbn [bind].
      destruct (Z.eqb_spec (len out) (len x)); [lia |]. cbn [negb]. eauto.
Qed.

Lemma lz_truncated_stream_fails_witness :
  lzCompressTokens (replicate 6 "a"%byte)
  = Done (["000"%byte; "a"%byte; "001"%byte; "001"%byte]
          ++ ["000"%byte; "005"%byte]) /\
  exists e, lzDecompressTokens ["000"%byte; "a"%byte; "001"%byte; "001"%byte]
              (len (replicate 6 "a"%byte)) = Fail e.
Proof.
  split; [reflexivity |].
  apply (lz_truncated_stream_fails (replicate 6 "a"%byte)
           (["000"%byte; "a"%byte; "001"%byte; "001"%byte]
            ++ ["000"%byte; "005"%byte])
           ["000"%byte; "a"%byte; "001"%byte; "001"%byte]
           ["000"%byte; "005"%byte]);
    [reflexivity | reflexivity | discriminate].
Defined.

(** ** The header, written and read *)

Lemma leValue_range (bs : list byte) :
  0 <= leValue bs < 2 ^ (8 * len bs).
Proof.
  induction bs as [|b bs IH]; cbn [leValue].
  - unfold len. simpl. lia.
  - pose proof (byteZ_range b) as Hb.
    rewrite lor_shiftl_8 by lia.
    replace (8 * len (b :: bs)) with (8 + 8 * len bs) by (unfold len; simpl; lia).
    pose proof (len_nonneg bs).
    rewrite Z.pow_add_r by lia. change (2 ^ 8) with 256. lia.
Qed.

Lemma leBytes_leValue (bs : list byte) :
  leBytes (length bs) (leValue bs) = bs.
Proof.
  induction bs as [|b bs IH]; [reflexivity |].
  cbn [length leBytes leValue].
  pose proof (byteZ_range b) as Hb. pose proof (leValue_range bs) as Hr.
  rewrite lor_shiftl_8 by lia.
  rewrite Z.shiftr_div_pow2 by lia. change (2 ^ 8) with 256.
  assert (Hq : (byteZ b + 256 * leValue bs) / 256 = leValue bs).
  { symmetry. apply (Z.div_unique _ _ _ (byteZ b)); lia. }
  assert (Hm : (byteZ b + 256 * leValue bs) mod 256 = byteZ b).
  { symmetry. apply (Z.mod_unique _ _ (leValue bs)); lia. }
  rewrite Hq, IH. f_equal.
  unfold toByte. rewrite Hm. unfold byteZ.
  rewrite N2Z.id, Byte.of_to_N. reflexivity.
Qed.

Lemma leBytes_leValue_n (n : nat) (bs : list byte) :
  length bs = n -> leBytes n (leValue bs) = bs.
Proof. intros <-. apply leBytes_leValue. Qed.

Lemma len_leBytes (n : nat) (v : Z) : len (leBytes n v) = Z.of_nat n.
Proof. unfold len. now rewrite leBytes_length. Qed.

Lemma len_concat_leBytes (sizes : list Z) :
  len (concat (map (leBytes 8) sizes)) = 8 * len sizes.
Proof.
  induction sizes as [|s sizes IH]; [reflexivity |].
  cbn [map concat]. rewrite len_app, len_leBytes, IH. unfold len. simpl. lia.
Qed.

(** [WriteHeader] returns no error exactly when the name has at most 65535
    bytes and the table has [NumBlocks] entries, and then it has written
    [26 + len name + 8 * NumBlocks] bytes.  A name too long is found after the
    magic is written and before anything else; a table of the wrong length is
    found after the fixed fields and the name, before any entry. *)
Theorem WriteHeader_outcome (w : list byte) (h : FileHeader) :
  match (WriteHeader w h).2 with
  | None =>
      len (Filename h) <= 65535 /\
      uint64 (len (BlockCompSizes h)) = NumBlocks h /\
      len (WriteHeader w h).1
      = len w + 26 + len (Filename h) + 8 * len (BlockCompSizes h)
  | Some e =>
      (e = ErrFilenameTooLong /\ 65535 < len (Filename h) /\
       (WriteHeader w h).1 = w ++ magic) \/
      (e = ErrBlockCountMismatch /\ len (Filename h) <= 65535 /\
       uint64 (len (BlockCompSizes h)) <> NumBlocks h /\
       len (WriteHeader w h).1 = len w + 26 + len (Filename h))
  end.
Proof.
  unfold WriteHeader.
  destruct (Z.ltb_spec 0xFFFF (len (Filename h))) as [Hn|Hn]; cbn [fst snd].
  - left. auto.
  - destruct (Z.eqb_spec (uint64 (len (BlockCompSizes h))) (NumBlocks h)) as [He|He];
      cbn [negb fst snd].
    + split; [lia |]. split; [exact He |].
      rewrite !len_app, !len_leBytes, len_concat_leBytes.
      unfold len at 2. cbn [magic length]. lia.
    + right. split; [reflexivity |]. split; [lia |]. split; [exact He |].
      rewrite !len_app, !len_leBytes. unfold len at 2. cbn [magic length]. lia.
Qed.

Lemma readFull_Done (r a r' : list byte) (n : Z) :
  0 <= n -> readFull r n = Done (a, r') -> r = a ++ r' /\ len a = n.
Proof.
  intros Hn. unfold readFull.
  destruct (Z.ltb_spec (len r) n); [discriminate |].
  intros [= <- <-]. split; [symmetry; apply take_drop |].
  unfold len in *. rewrite length_take. lia.
Qed.

Lemma readLE_Done (r r' : list byte) (n : nat) (v : Z) :
  readLE r n = Done (v, r') ->
  exists a, r = a ++ r' /\ length a = n /\ v = leValue a.
Proof.
  unfold readLE, bind.
  destruct (readFull r (Z.of_nat n)) as [[a r1]| | |] eqn:Hr; try discriminate.
  cbn [fst snd]. intros [= <- <-].
  apply readFull_Done in Hr as [-> Hl]; [| lia].
  exists a. unfold len in Hl. repeat split; lia.
Qed.

Lemma readSizes_Done (n : nat) :
  forall r sizes r',
  readSizes n r = Done (sizes, r') ->
  r = concat (map (leBytes 8) sizes) ++ r' /\ length sizes = n /\
  Forall (fun s => 0 <= s < 2 ^ 64) sizes.
Proof.
  induction n as [|n IH]; intros r sizes r'; cbn [readSizes].
  - intros [= <- <-]. auto.
  - unfold bind.
    destruct (readLE r 8) as [[v r1]| | |] eqn:Hv; try discriminate.
    cbn [fst snd].
    destruct (readSizes n r1) as [[sizes1 r2]| | |] eqn:Hs; try discriminate.
    cbn [fst snd]. intros [= <- <-].
    apply readLE_Done in Hv as (a & -> & Ha & ->).
    apply IH in Hs as (-> & Hlen & Hall).
    cbn [map concat length]. rewrite (leBytes_leValue_n 8 a Ha), <- app_assoc.
    split; [reflexivity |]. split; [lia |].
    constructor; [| exact Hall].
    pose proof (leValue_range a) as Hr. unfold len in Hr. rewrite Ha in Hr. exact Hr.
Qed.

(** What [ReadHeader] accepts is what [WriteHeader] writes: when it returns a
    header [h] and the rest [rest] of its input, [h] is valid and the input is
    the bytes [WriteHeader] writes for [h], followed by [rest].  No byte of
    the header is left uninterpreted and none of the payload is read. *)
Theorem ReadHeader_canonical (r rest : list byte) (h : FileHeader) :
  ReadHeader r = Done (h, rest) ->
  validHeader h /\
  exists bytes, WriteHeader [] h = (bytes, None) /\ r = bytes ++ rest.
Proof.
  unfold ReadHeader, bind.
  destruct (readFull r 4) as [[m r1]| | |] eqn:H1; try discriminate. cbn [fst snd].
  destruct (decide (m = magic)) as [-> | Hm];
    [rewrite bool_decide_eq_true_2 by reflexivity
    | rewrite bool_decide_eq_false_2 by exact Hm; discriminate].
  cbn [negb].
  destruct (readLE r1 2) as [[nameLen r2]| | |] eqn:H2; try discriminate. cbn [fst snd].
  destruct (readLE r2 8) as [[osize r3]| | |] eqn:H3; try discriminate. cbn [fst snd].
  pose proof H2 as H2'. apply readLE_Done in H2' as (a2 & -> & Hl2 & ->).
  pose proof (leValue_range a2) as Hr2. unfold len in Hr2. rewrite Hl2 in Hr2.
  destruct (readFull r3 (leValue a2)) as [[name r4]| | |] eqn:H4; try discriminate.
  cbn [fst snd].
  destruct (readLE r4 4) as [[bsize r5]| | |] eqn:H5; try discriminate. cbn [fst snd].
  destruct (readLE r5 8) as [[nblocks r6]| | |] eqn:H6; try discriminate. cbn [fst snd].
  destruct (readSizes (Z.to_nat nblocks) r6) as [[sizes r7]| | |] eqn:H7;
    try discriminate. cbn [fst snd].
  intros [= <- <-].
  apply readFull_Done in H1 as [-> _]; [| lia].
  apply readLE_Done in H3 as (a3 & -> & Hl3 & ->).
  apply readFull_Done in H4 as [-> Hl4]; [| lia].
  apply readLE_Done in H5 as (a5 & -> & Hl5 & ->).
  apply readLE_Done in H6 as (a6 & -> & Hl6 & ->).
  apply readSizes_Done in H7 as (-> & Hl7 & Hall).
  pose proof (leValue_range a3) as Hr3. unfold len in Hr3. rewrite Hl3 in Hr3.
  pose proof (leValue_range a5) as Hr5. unfold len in Hr5. rewrite Hl5 in Hr5.
  pose proof (leValue_range a6) as Hr6. unfold len in Hr6. rewrite Hl6 in Hr6.
  change (2 ^ (8 * Z.of_nat 2)) with 65536 in Hr2.
  assert (Hcount : len sizes = leValue a6) by (unfold len; lia).
  split.
  - unfold validHeader. cbn [Filename OriginalSize BlockSize NumBlocks BlockCompSizes].
    repeat split; try lia; try assumption.
  - unfold WriteHeader. cbn [Filename OriginalSize BlockSize NumBlocks BlockCompSizes].
    destruct (Z.ltb_spec 0xFFFF (len name)); [lia |].
    unfold uint16, uint64.
    rewrite (Z.mod_small (len name)) by (change (2 ^ 16) with 65536; lia).
    rewrite (Z.mod_small (len sizes)) by lia.
    rewrite Hcount, Z.eqb_refl. cbn [negb].
    eexists. split; [reflexivity |].
    rewrite Hl4, !leBytes_leValue_n by assumption.
    cbn [app]. rewrite <- !app_assoc. reflexivity.
Qed.

Lemma ReadHeader_canonical_witness :
  ReadHeader (sizeWithoutBlocks ++ ["255"%byte])
  = Done (mkFileHeader ["f"%byte] 5 1048576 0 [], ["255"%byte]) /\
  validHeader (mkFileHeader ["f"%byte] 5 1048576 0 []).
Proof.
  split; [reflexivity |].
  exact (proj1 (ReadHeader_canonical (sizeWithoutBlocks ++ ["255"%byte])
                  ["255"%byte] _ eq_refl)).
Defined.

(** ** A header cut short *)

Lemma app_cut {A : Type} (a rest p k : list A) :
  a ++ rest = p ++ k ->
  (length p < length a)%nat \/ exists p', p = a ++ p' /\ rest = p' ++ k.
Proof.
  intros H. destruct (Nat.lt_ge_cases (length p) (length a)) as [Hlt|Hge];
    [left; exact Hlt | right].
  exists (drop (length a) p).
  assert (Hp : p = a ++ drop (length a) p).
  { rewrite <- (take_drop (length a) p) at 1. f_equal.
    apply (f_equal (take (length a))) in H.
    rewrite take_app_length in H. rewrite take_app_le in H by lia. now symmetry. }
  split; [exact Hp |].
  rewrite Hp in H at 1. rewrite <- app_assoc in H. now apply app_inv_head in H.
Qed.

Lemma readFull_short (p : list byte) (n : Z) :
  len p < n -> readFull p n = Fail ErrShortRead.
Proof.
  intros H. unfold readFull. destruct (Z.ltb_spec (len p) n); [reflexivity | lia].
Qed.

Lemma readLE_short (p : list byte) (n : nat) :
  (length p < n)%nat -> readLE p n = Fail ErrShortRead.
Proof.
  intros H. unfold readLE. rewrite readFull_short by (unfold len; lia). reflexivity.
Qed.

Lemma readSizes_cut (sizes : list Z) :
  forall p k,
  Forall (fun s => 0 <= s < 2 ^ 64) sizes ->
  concat (map (leBytes 8) sizes) = p ++ k -> k <> [] ->
  readSizes (length sizes) p = Fail ErrShortRead.
Proof.
  induction sizes as [|s sizes IH]; intros p k Hall Hp Hk.
  - cbn in Hp. symmetry in Hp. apply app_eq_nil in Hp as [_ ->]. now destruct Hk.
  - apply Forall_cons in Hall as [Hs Hall].
    cbn [map concat length readSizes] in *.
    destruct (app_cut _ _ _ _ Hp) as [Hlt | (p' & -> & Hrest)].
    + rewrite leBytes_length in Hlt. rewrite readLE_short by exact Hlt. reflexivity.
    + rewrite readLE_leBytes by exact Hs. cbn [bind fst snd].
      rewrite (IH p' k Hall Hrest Hk). reflexivity.
Qed.

Lemma ReadHeader_cut (h : FileHeader) (p k : list byte) :
  validHeader h ->
  WriteHeader [] h = (p ++ k, None) -> k <> [] ->
  ReadHeader p = Fail ErrShortRead.
Proof.
  destruct h as [name osize bsize nblocks sizes].
  intros (Hname & Hos & Hbs & Hnb & Hsz & Hlen) Hw Hk.
  cbn [Filename OriginalSize BlockSize NumBlocks BlockCompSizes] in *.
  pose proof (len_nonneg name) as Hn0.
  unfold WriteHeader in Hw.
  cbn [Filename OriginalSize BlockSize NumBlocks BlockCompSizes] in Hw.
  destruct (Z.ltb_spec 0xFFFF (len name)); [lia |].
  unfold uint64, uint16 in Hw.
  rewrite (Z.mod_small (len sizes)) in Hw by lia.
  rewrite (Z.mod_small (len name)) in Hw by (change (2 ^ 16) with 65536; lia).
  rewrite Hlen, Z.eqb_refl in Hw. cbn [negb] in Hw.
  apply (f_equal fst) in Hw. cbn [fst] in Hw.
  rewrite app_nil_l, <- !app_assoc in Hw.
  unfold ReadHeader.
  destruct (app_cut _ _ _ _ Hw) as [Hlt | (p1 & -> & Hw1)].
  { rewrite readFull_short by (unfold len; cbn [magic length] in Hlt; lia).
    reflexivity. }
  rewrite (readFull_app magic) by reflexivity. cbn [bind fst snd].
  rewrite bool_decide_eq_true_2 by reflexivity. cbn [negb].
  destruct (app_cut _ _ _ _ Hw1) as [Hlt | (p2 & -> & Hw2)].
  { rewrite leBytes_length in Hlt. rewrite readLE_short by exact Hlt. reflexivity. }
  rewrite readLE_leBytes by (change (2 ^ (8 * Z.of_nat 2)) with 65536; lia).
  cbn [bind fst snd].
  destruct (app_cut _ _ _ _ Hw2) as [Hlt | (p3 & -> & Hw3)].
  { rewrite leBytes_length in Hlt. rewrite readLE_short by exact Hlt. reflexivity. }
  rewrite readLE_leBytes by exact Hos. cbn [bind fst snd].
  destruct (app_cut _ _ _ _ Hw3) as [Hlt | (p4 & -> & Hw4)].
  { rewrite readFull_short by (unfold len; lia). reflexivity. }
  rewrite readFull_app by reflexivity. cbn [bind fst snd].
  destruct (app_cut _ _ _ _ Hw4) as [Hlt | (p5 & -> & Hw5)].
  { rewrite leBytes_length in Hlt. rewrite readLE_short by exact Hlt. reflexivity. }
  rewrite readLE_leBytes by exact Hbs. cbn [bind fst snd].
  destruct (app_cut _ _ _ _ Hw5) as [Hlt | (p6 & -> & Hw6)].
  { rewrite leBytes_length in Hlt. rewrite readLE_short by exact Hlt. reflexivity. }
  rewrite readLE_leBytes by exact Hnb. cbn [bind fst snd].
  rewrite <- Hlen. unfold len. rewrite Nat2Z.id.
  rewrite (readSizes_cut sizes p6 k Hsz Hw6 Hk). reflexivity.
Qed.

(** A header that has lost bytes at its end is refused: on every proper
    prefix of the bytes written for a valid header, [ReadHeader] returns the
    short-read error. *)
Theorem ReadHeader_truncated (h : FileHeader) (p k : list byte) :
  validHeader h ->
  WriteHeader [] h = (p ++ k, None) -> k <> [] ->
  ReadHeader p = Fail ErrShortRead.
Proof. exact (ReadHeader_cut h p k). Qed.

Lemma ReadHeader_truncated_witness :
  validHeader (mkFileHeader ["f"%byte] 5 1048576 1 [6]) /\
  ReadHeader (take 33 (WriteHeader [] (mkFileHeader ["f"%byte] 5 1048576 1 [6])).1)
  = Fail ErrShortRead.
Proof.
  assert (Hv : validHeader (mkFileHeader ["f"%byte] 5 1048576 1 [6])).
  { unfold validHeader, len.
    cbn [Filename OriginalSize BlockSize NumBlocks BlockCompSizes length].
    split; [lia |]. split; [lia |]. split; [lia |]. split; [lia |].
    split; [| lia]. constructor; [lia | constructor]. }
  split; [exact Hv |].
  apply (ReadHeader_truncated _ _
           (drop 33 (WriteHeader [] (mkFileHeader ["f"%byte] 5 1048576 1 [6])).1) Hv);
    [reflexivity | discriminate].
Defined.

(** ** A file that is no container *)

(** A file that does not begin with the four bytes [PCZ2] is refused by each
    of the three decompressors with a read-header error, before anything else
    of it is looked at: a short read when it has fewer than four bytes, an
    invalid magic otherwise. *)
Theorem decompress_rejects_other_files (file : list byte) :
  take 4 file <> magic ->
  let e := if len file <? 4 then ErrShortRead else ErrInvalidMagic in
  SequentialDecompressFile file = Fail (ErrReadHeader e) /\
  (forall decodePayload threads,
     BSPDecompressFile decodePayload file threads = Fail (ErrReadHeader e)) /\
  (forall decodePayload threads,
     WorkStealingDecompressFile decodePayload file threads
     = Fail (ErrReadHeader e)).
Proof.
  intros Hm e.
  assert (Hr : ReadHeader file = Fail e).
  { unfold ReadHeader, readFull, e.
    destruct (Z.ltb_spec (len file) 4); [reflexivity |]. cbn [bind fst snd].
    change (Z.to_nat 4) with 4%nat.
    rewrite bool_decide_eq_false_2 by exact Hm. reflexivity. }
  unfold SequentialDecompressFile, BSPDecompressFile, WorkStealingDecompressFile.
  rewrite Hr. auto.
Qed.

Lemma decompress_rejects_other_files_witness :
  take 4 ["P"%byte; "K"%byte; "003"%byte; "004"%byte; "000"%byte] <> magic /\
  SequentialDecompressFile ["P"%byte; "K"%byte; "003"%byte; "004"%byte; "000"%byte]
  = Fail (ErrReadHeader ErrInvalidMagic).
Proof.
  assert (H : take 4 ["P"%byte; "K"%byte; "003"%byte; "004"%byte; "000"%byte]
              <> magic) by discriminate.
  split; [exact H |].
  exact (proj1 (decompress_rejects_other_files _ H)).
Defined.

(** ** Blocks, encoded and decoded *)

Lemma lzDecompressTokens_tokensFrom (x : list byte) (toks : list token) :
  tokensFrom x 0 toks ->
  lzDecompressTokens (concat (map tokenBytes toks)) (len x) = Done x.
Proof.
  intros Hs. unfold lzDecompressTokens.
  pose proof (lzDecodeLoop_tokensFrom x toks 0 [] ltac:(lia) Hs) as Hd.
  rewrite app_nil_r in Hd. change (take (Z.to_nat 0) x) with (@nil byte) in Hd.
  rewrite Hd. cbn [lzDecodeLoop bind].
  rewrite Z.eqb_refl. cbn [negb].
  destruct (_ && _) eqn:Hc; [| reflexivity].
  apply andb_prop in Hc as [_ Hx]. apply Z.eqb_eq in Hx.
  destruct x; [reflexivity | discriminate].
Qed.

Lemma encodeBlock_decodable (buf : list byte) :
  exists encoded,
    encodeBlock buf = Done encoded /\
    1 <= len encoded <= 1 + len buf /\
    (encoded = "255"%byte :: buf \/
     exists tokens, encoded = "000"%byte :: tokens /\
       lzDecompressTokens tokens (len buf) = Done buf).
Proof.
  destruct (lzTokens_spec buf) as (toks & Hr & Hs).
  unfold encodeBlock, lzCompressTokens. rewrite Hr. cbn [bind].
  set (tokens := concat (map tokenBytes toks)).
  pose proof (len_nonneg tokens). pose proof (len_nonneg buf).
  destruct (Z.leb_spec (len buf + 1) (len tokens + 1)).
  - eexists. split; [reflexivity |]. split; [unfold len in *; simpl; lia |].
    now left.
  - eexists. split; [reflexivity |]. split; [unfold len in *; simpl; lia |].
    right. exists tokens. split; [reflexivity |].
    now apply lzDecompressTokens_tokensFrom.
Qed.

Lemma encodedBlocks_length (n : nat) (blockSize : Z) :
  forall r, length (encodedBlocks n blockSize r) = n.
Proof.
  induction n as [|n IH]; intros r; cbn [encodedBlocks]; [reflexivity |].
  destruct (encodeBlock_decodable (take (Z.to_nat blockSize) r)) as (e & -> & _).
  cbn [length]. now rewrite IH.
Qed.

Lemma ReadHeader_written (h : FileHeader) (rest : list byte) :
  validHeader h ->
  (WriteHeader [] h).2 = None /\
  ReadHeader ((WriteHeader [] h).1 ++ rest) = Done (h, rest).
Proof.
  destruct h as [name osize bsize nblocks sizes].
  intros (Hname & Hos & Hbs & Hnb & Hsz & Hlen). cbn [Filename OriginalSize
    BlockSize NumBlocks BlockCompSizes] in *.
  pose proof (len_nonneg name) as Hn0.
  unfold WriteHeader. cbn [Filename OriginalSize BlockSize NumBlocks BlockCompSizes].
  destruct (Z.ltb_spec 0xFFFF (len name)); [lia |].
  unfold uint64, uint16.
  rewrite (Z.mod_small (len sizes)) by lia.
  rewrite (Z.mod_small (len name)) by (change (2 ^ 16) with 65536; lia).
  rewrite Hlen, Z.eqb_refl. cbn [negb fst snd].
  split; [reflexivity |].
  unfold ReadHeader. rewrite app_nil_l, <- !app_assoc.
  rewrite (readFull_app magic) by reflexivity.
  cbn [bind fst snd]. rewrite bool_decide_eq_true_2 by reflexivity. cbn [negb].
  rewrite readLE_leBytes by (change (2 ^ (8 * Z.of_nat 2)) with 65536; lia).
  cbn [bind fst snd].
  rewrite readLE_leBytes by exact Hos. cbn [bind fst snd].
  rewrite readFull_app by reflexivity. cbn [bind fst snd].
  rewrite readLE_leBytes by exact Hbs. cbn [bind fst snd].
  rewrite readLE_leBytes by exact Hnb. cbn [bind fst snd].
  rewrite <- Hlen. unfold len. rewrite Nat2Z.id.
  rewrite readSizes_sizes by assumption. reflexivity.
Qed.

Lemma int64_small (v : Z) : - 2 ^ 63 <= v < 2 ^ 63 -> int64 v = v.
Proof. intros H. unfold int64. rewrite Z.mod_small by lia. lia. Qed.

Lemma store_app_here {A : Type} (done todo : list A) (x v : A) (i : Z) :
  len done = i -> store (done ++ x :: todo) i v = Done (done ++ v :: todo).
Proof.
  intros <-. unfold store, len. rewrite length_app. cbn [length].
  destruct (Z.ltb_spec (Z.of_nat (length done)) 0); [lia |].
  destruct (Z.leb_spec (Z.of_nat (length done + S (length todo)))
              (Z.of_nat (length done))); [lia |].
  cbn [orb]. rewrite Nat2Z.id.
  rewrite insert_app_r_alt by lia. rewrite Nat.sub_diag. reflexivity.
Qed.

Lemma index_head {A : Type} (x : A) (s : list A) : index (x :: s) 0 = Done x.
Proof. reflexivity. Qed.

Section SequentialFile.
Variables (bs n L : Z).
Hypothesis Hbs : 0 < bs < 2 ^ 32.
Hypothesis HL : 0 < L < 2 ^ 62.
Hypothesis Hn : bs * (n - 1) < L <= bs * n.

Lemma blocks_count_pos : 1 <= n <= L.
Proof using Hbs HL Hn. nia. Qed.


Lemma blocksLeft_next (m : nat) (r : list byte) :
  blocksLeft bs n L (S m) r -> blocksLeft bs n L m (drop (Z.to_nat bs) r).
Proof using Hbs HL Hn.
  intros (Hm & Hle & Hpos). destruct (Hpos ltac:(lia)) as [Hr Hlt].
  unfold blocksLeft, len in *. rewrite length_drop.
  rewrite Nat2Z.inj_succ in *.
  split; [lia |]. split; [nia |]. intros Hm1. split; nia.
Qed.

Lemma thisBlock_read (m : nat) (r : list byte) :
  blocksLeft bs n L (S m) r ->
  let thisBlockSize :=
    if n - Z.of_nat (S m) <? n - 1 then bs
    else int64 (L - int64 (bs * (n - 1))) in
  0 <= thisBlockSize /\ thisBlockSize = len (take (Z.to_nat bs) r) /\
  readFull r thisBlockSize
  = Done (take (Z.to_nat bs) r, drop (Z.to_nat bs) r).
Proof using Hbs HL Hn.
  intros (Hm & Hle & Hpos). destruct (Hpos ltac:(lia)) as [Hr Hlt].
  pose proof blocks_count_pos as Hn1.
  destruct (Z.ltb_spec (n - Z.of_nat (S m)) (n - 1)) as [Hmany|Hlast];
    cbv beta iota zeta.
  - assert (Hge : bs <= len r) by nia.
    split; [lia |]. unfold readFull, len in *. rewrite length_take.
    split; [lia |].
    destruct (Z.ltb_spec (Z.of_nat (length r)) bs); [lia | reflexivity].
  - assert (Hm0 : m = 0%nat) by lia. subst m.
    rewrite (int64_small (bs * (n - 1))) by nia.
    rewrite int64_small by nia.
    replace (L - bs * (n - 1)) with (len r) by lia.
    unfold readFull, len in *. rewrite length_take.
    split; [lia |]. split; [lia |].
    destruct (Z.ltb_spec (Z.of_nat (length r)) (Z.of_nat (length r))); [lia |].
    rewrite Nat2Z.id. rewrite !take_ge, !drop_ge by lia. reflexivity.
Qed.

Lemma seqEncodeBlocks_spec (m : nat) :
  forall r doneB doneS todoB todoS,
  blocksLeft bs n L m r ->
  length todoB = m -> length todoS = m ->
  len doneB = n - Z.of_nat m -> len doneS = n - Z.of_nat m ->
  seqEncodeBlocks m bs n L r (n - Z.of_nat m) (doneB ++ todoB) (doneS ++ todoS)
  = Done (doneB ++ encodedBlocks m bs r,
          doneS ++ map len (encodedBlocks m bs r), None).
Proof using Hbs HL Hn.
  induction m as [|m IH]; intros r doneB doneS todoB todoS Hleft HtB HtS HdB HdS.
  - destruct todoB; [| discriminate]. destruct todoS; [| discriminate].
    reflexivity.
  - destruct todoB as [|xB todoB]; [discriminate |].
    destruct todoS as [|xS todoS]; [discriminate |].
    cbn [seqEncodeBlocks encodedBlocks].
    destruct (thisBlock_read m r Hleft) as (H0 & _ & Hread).
    cbv zeta in H0, Hread.
    destruct (Z.ltb_spec
      (if n - Z.of_nat (S m) <? n - 1 then bs
       else int64 (L - int64 (bs * (n - 1)))) 0); [lia |].
    rewrite Hread.
    destruct (encodeBlock_decodable (take (Z.to_nat bs) r))
      as (e & -> & Hlen & _).
    cbn [bind].
    rewrite (store_app_here doneB todoB xB e) by exact HdB. cbn [bind].
    rewrite (store_app_here doneS todoS xS (uint64 (len e))) by exact HdS.
    cbn [bind].
    assert (Hu : uint64 (len e) = len e).
    { unfold uint64. apply Z.mod_small.
      assert (len (take (Z.to_nat bs) r) <= bs)
        by (unfold len; rewrite length_take; lia). lia. }
    rewrite Hu.
    replace (n - Z.of_nat (S m) + 1) with (n - Z.of_nat m) by lia.
    change (doneB ++ e :: todoB) with (doneB ++ [e] ++ todoB).
    change (doneS ++ len e :: todoS) with (doneS ++ [len e] ++ todoS).
    rewrite !app_assoc.
    rewrite IH.
    + cbn [map]. rewrite <- !app_assoc. reflexivity.
    + now apply blocksLeft_next.
    + cbn in HtB. lia.
    + cbn in HtS. lia.
    + rewrite len_app. unfold len at 2. cbn [length]. lia.
    + rewrite len_app. unfold len at 2. cbn [length]. lia.
Qed.

Lemma encodedBlocks_sizes (m : nat) :
  forall r, blocksLeft bs n L m r ->
  Forall (fun s => 1 <= s <= 1 + bs) (map len (encodedBlocks m bs r)).
Proof using Hbs HL Hn.
  induction m as [|m IH]; intros r Hleft; cbn [encodedBlocks]; [constructor |].
  destruct (encodeBlock_decodable (take (Z.to_nat bs) r)) as (e & -> & Hlen & _).
  cbn [map]. constructor.
  - assert (len (take (Z.to_nat bs) r) <= bs)
      by (unfold len; rewrite length_take; lia). lia.
  - apply IH. now apply blocksLeft_next.
Qed.

Lemma seqDecodeBlocks_read (m : nat) (name : list byte) (sizes : list Z)
  (r : list byte) (sdone : list Z) (out p : list byte) :
  blocksLeft bs n L (S m) r ->
  sizes = sdone ++ map len (encodedBlocks (S m) bs r) ->
  len sdone = n - Z.of_nat (S m) ->
  exists e,
    encodeBlock (take (Z.to_nat bs) r) = Done e /\
    (len p < len e ->
     seqDecodeBlocks (S m) (mkFileHeader name L bs n sizes) p
       (n - Z.of_nat (S m)) out
     = Fail (ErrReadBlock (n - Z.of_nat (S m)) ErrShortRead)) /\
    (forall rest, p = e ++ rest ->
     seqDecodeBlocks (S m) (mkFileHeader name L bs n sizes) p
       (n - Z.of_nat (S m)) out
     = seqDecodeBlocks m (mkFileHeader name L bs n sizes) rest
         (n - Z.of_nat m) (out ++ take (Z.to_nat bs) r)).
Proof using Hbs HL Hn.
  intros Hleft Hsizes Hsdone.
  pose proof (encodedBlocks_sizes (S m) r Hleft) as Hall.
  pose proof blocks_count_pos as Hn1.
  cbn [seqDecodeBlocks encodedBlocks] in *.
  destruct (thisBlock_read m r Hleft) as (H0 & Hexp & _). cbv zeta in H0, Hexp.
  destruct (encodeBlock_decodable (take (Z.to_nat bs) r))
    as (e & He & Hlen & Hdec).
  rewrite He in *. cbn [map concat] in *.
  apply Forall_cons in Hall as [Hs _].
  cbn [BlockCompSizes NumBlocks OriginalSize BlockSize].
  assert (Hidx : index sizes (n - Z.of_nat (S m)) = Done (len e)).
  { rewrite Hsizes, <- Hsdone. apply index_app_here. }
  rewrite Hidx. cbn [bind].
  destruct (Z.eqb_spec (len e) 0); [lia |].
  destruct (Z.leb_spec (2 ^ 63) (len e)); [lia |].
  exists e. split; [reflexivity |]. split.
  - intros Hshort. rewrite readFull_short by exact Hshort. reflexivity.
  - intros rest ->.
    rewrite readFull_app by reflexivity.
    destruct (Z.eqb_spec (len e) 0); [lia |].
    rewrite (int64_small n), (int64_small L), (int64_small (n - 1)) by lia.
    set (expected := if n - Z.of_nat (S m) <? n - 1 then bs
                     else int64 (L - int64 (bs * (n - 1)))) in *.
    replace (n - Z.of_nat (S m) + 1) with (n - Z.of_nat m) by lia.
    destruct Hdec as [-> | (tokens & -> & Htok)].
    + rewrite index_head. cbn [bind drop]. rewrite drop_0.
      change (Byte.eqb "255" "255") with true. cbv iota.
      destruct (Z.eqb_spec (len (take (Z.to_nat bs) r)) expected); [| lia].
      reflexivity.
    + rewrite index_head. cbn [bind drop]. rewrite drop_0.
      change (Byte.eqb "000" "255") with false.
      change (Byte.eqb "000" "000") with true. cbv iota.
      rewrite Hexp, Htok. reflexivity.
Qed.

Lemma seqDecodeBlocks_spec (m : nat) (name : list byte) (sizes : list Z) :
  forall r sdone out,
  blocksLeft bs n L m r ->
  sizes = sdone ++ map len (encodedBlocks m bs r) ->
  len sdone = n - Z.of_nat m ->
  seqDecodeBlocks m (mkFileHeader name L bs n sizes)
    (concat (encodedBlocks m bs r)) (n - Z.of_nat m) out
  = Done (out ++ r).
Proof using Hbs HL Hn.
  induction m as [|m IH]; intros r sdone out Hleft Hsizes Hsdone.
  - destruct Hleft as (_ & Hle & _).
    assert (r = []) as -> by (destruct r; [reflexivity | unfold len in Hle; simpl in Hle; lia]).
    cbn. now rewrite app_nil_r.
  - destruct (seqDecodeBlocks_read m name sizes r sdone out
                (concat (encodedBlocks (S m) bs r)) Hleft Hsizes Hsdone)
      as (e & He & _ & Hstep).
    cbn [encodedBlocks] in *. rewrite He in *. cbn [map concat] in *.
    rewrite (Hstep _ eq_refl).
    rewrite (IH _ (sdone ++ [len e])).
    + now rewrite <- app_assoc, take_drop.
    + now apply blocksLeft_next.
    + now rewrite Hsizes, <- app_assoc.
    + rewrite len_app. unfold len at 2. cbn [length]. lia.
Qed.

Lemma seqDecodeBlocks_cut (m : nat) (name : list byte) (sizes : list Z) :
  forall r sdone out p k,
  blocksLeft bs n L m r ->
  sizes = sdone ++ map len (encodedBlocks m bs r) ->
  len sdone = n - Z.of_nat m ->
  concat (encodedBlocks m bs r) = p ++ k -> k <> [] ->
  exists blockIndex,
    seqDecodeBlocks m (mkFileHeader name L bs n sizes) p (n - Z.of_nat m) out
    = Fail (ErrReadBlock blockIndex ErrShortRead).
Proof using Hbs HL Hn.
  induction m as [|m IH]; intros r sdone out p k Hleft Hsizes Hsdone Hp Hk.
  - cbn in Hp. symmetry in Hp. apply app_eq_nil in Hp as [_ ->]. now destruct Hk.
  - destruct (seqDecodeBlocks_read m name sizes r sdone out p Hleft Hsizes Hsdone)
      as (e & He & Hshort & Hstep).
    cbn [encodedBlocks] in *. rewrite He in *. cbn [map concat] in *.
    destruct (app_cut _ _ _ _ Hp) as [Hlt | (p' & -> & Hrest)].
    + exists (n - Z.of_nat (S m)). apply Hshort. unfold len. lia.
    + rewrite (Hstep p' eq_refl).
      apply (IH (drop (Z.to_nat bs) r) (sdone ++ [len e]) _ p' k).
      * now apply blocksLeft_next.
      * now rewrite Hsizes, <- app_assoc.
      * rewrite len_app. unfold len at 2. cbn [length]. lia.
      * exact Hrest.
      * exact Hk.
Qed.
End SequentialFile.

Lemma numBlocksOf_ceil (L bs : Z) :
  0 < bs < 2 ^ 32 -> 0 <= L < 2 ^ 62 ->
  numBlocksOf L bs = (L + bs - 1) / bs /\
  bs * (numBlocksOf L bs - 1) < L <= bs * numBlocksOf L bs /\
  0 <= numBlocksOf L bs <= L.
Proof.
  intros Hbs HL. unfold numBlocksOf.
  rewrite int64_small by lia. rewrite Z.quot_div_nonneg by lia.
  pose proof (Z.div_mod (L + bs - 1) bs ltac:(lia)) as Hdm.
  pose proof (Z.mod_pos_bound (L + bs - 1) bs ltac:(lia)) as Hm.
  assert (0 <= (L + bs - 1) / bs) by (apply Z.div_pos; lia).
  split; [reflexivity |]. split; nia.
Qed.

Lemma encodedBlocks_total (bs : Z) (m : nat) :
  0 < bs ->
  forall r,
  sumSizes (map len (encodedBlocks m bs r)) = len (concat (encodedBlocks m bs r)) /\
  len (concat (encodedBlocks m bs r)) <= len r + Z.of_nat m.
Proof.
  intros Hbs. induction m as [|m IH]; intros r; cbn [encodedBlocks].
  - pose proof (len_nonneg r). split; [reflexivity | unfold len at 1; simpl; lia].
  - destruct (encodeBlock_decodable (take (Z.to_nat bs) r)) as (e & -> & Hlen & _).
    cbn [map concat]. unfold sumSizes in *. cbn [foldr].
    destruct (IH (drop (Z.to_nat bs) r)) as [IH1 IH2].
    rewrite len_app, IH1. split; [reflexivity |].
    assert (len r = len (take (Z.to_nat bs) r) + len (drop (Z.to_nat bs) r))
      by (rewrite <- len_app, take_drop; reflexivity).
    lia.
Qed.

Section CompressedFile.
Variables (name data : list byte) (bs : Z).
Hypothesis Hname : len name <= 65535.
Hypothesis Hbs : 0 < bs < 2 ^ 32.
Hypothesis Hdata : len data < 2 ^ 62.

(** What [SequentialCompressFile] writes: the header, then the blocks. *)
Lemma SequentialCompressFile_spec :
  let n := numBlocksOf (len data) bs in
  let encs := encodedBlocks (Z.to_nat n) bs data in
  let h := mkFileHeader name (len data) bs n (map len encs) in
  validHeader h /\
  SequentialCompressFile name bs data
  = Done (Some ((WriteHeader [] h).1 ++ concat encs), None).
Proof using Hname Hbs Hdata.
  intros n encs h. pose proof (len_nonneg data) as HL0.
  destruct (numBlocksOf_ceil (len data) bs Hbs ltac:(lia)) as (_ & Hceil & Hn0).
  fold n in Hceil, Hn0.
  assert (Hlen : len (map len encs) = n).
  { unfold len, encs. rewrite length_map, encodedBlocks_length. lia. }
  destruct (Z.eq_dec (len data) 0) as [Hz|Hnz].
  - assert (n = 0) by lia.
    assert (Hencs : encs = []) by (unfold encs; now replace n with 0).
    assert (Hv : validHeader h).
    { unfold h, validHeader. rewrite Hencs.
      cbn [Filename OriginalSize BlockSize NumBlocks BlockCompSizes map].
      repeat split; try lia; try constructor. unfold len. simpl. lia. }
    split; [exact Hv |].
    unfold SequentialCompressFile. rewrite Hz. cbn [Z.eqb].
    destruct (ReadHeader_written h [] Hv) as [Hw _].
    unfold h in *. rewrite Hencs, Hz in *. replace n with 0 in * by lia.
    cbn [map concat] in *. rewrite app_nil_r.
    destruct (WriteHeader [] (mkFileHeader name 0 bs 0 [])) as [out err].
    cbn [fst snd] in *. now subst err.
  - assert (Hblocks : blocksLeft bs n (len data) (Z.to_nat n) data).
    { unfold blocksLeft. rewrite Z2Nat.id by lia.
      split; [lia |]. split; [lia |]. intros _. split; lia. }
    assert (Hsizes : Forall (fun s => 1 <= s <= 1 + bs) (map len encs)).
    { apply (encodedBlocks_sizes bs n (len data)); [lia | lia | lia | exact Hblocks]. }
    assert (Hv : validHeader h).
    { unfold h, validHeader.
      cbn [Filename OriginalSize BlockSize NumBlocks BlockCompSizes].
      repeat split; try lia; try assumption.
      eapply Forall_impl; [exact Hsizes |]. simpl. intros s Hs. lia. }
    split; [exact Hv |].
    unfold SequentialCompressFile.
    destruct (Z.eqb_spec (len data) 0); [lia |].
    destruct (Z.eqb_spec bs 0); [lia |]. fold n.
    destruct (Z.ltb_spec n 0); [lia |].
    pose proof (seqEncodeBlocks_spec bs n (len data) Hbs ltac:(lia) Hceil
      (Z.to_nat n) data [] []
      (replicate (Z.to_nat n) []) (replicate (Z.to_nat n) 0) Hblocks
      ltac:(apply length_replicate) ltac:(apply length_replicate)
      ltac:(unfold len; simpl; lia) ltac:(unfold len; simpl; lia)) as Henc.
    rewrite Z2Nat.id in Henc by lia. rewrite Z.sub_diag in Henc.
    cbn [app] in Henc. rewrite Henc. cbn [bind]. fold encs.
    unfold uint64, uint32.
    rewrite !Z.mod_small by lia. fold h.
    destruct (ReadHeader_written h [] Hv) as [Hw _].
    destruct (WriteHeader [] h) as [out err]. cbn [fst snd] in *.
    now subst err.
Qed.

(** What [SequentialDecompressFile] makes of that. *)
Lemma SequentialDecompressFile_written :
  let n := numBlocksOf (len data) bs in
  let encs := encodedBlocks (Z.to_nat n) bs data in
  let h := mkFileHeader name (len data) bs n (map len encs) in
  SequentialDecompressFile ((WriteHeader [] h).1 ++ concat encs) = Done data.
Proof using Hname Hbs Hdata.
  pose proof SequentialCompressFile_spec as Hspec. cbv zeta in Hspec.
  destruct Hspec as [Hv _]. intros n encs h. fold n encs h in Hv.
  pose proof (len_nonneg data) as HL0.
  destruct (numBlocksOf_ceil (len data) bs Hbs ltac:(lia)) as (_ & Hceil & Hn0).
  fold n in Hceil, Hn0.
  unfold SequentialDecompressFile.
  destruct (ReadHeader_written h (concat encs) Hv) as [_ ->].
  unfold h. cbn [OriginalSize NumBlocks].
  destruct (Z.eqb_spec (len data) 0) as [Hz|Hnz]; cbn [orb].
  - destruct data; [reflexivity | discriminate].
  - destruct (Z.eqb_spec n 0); [lia |].
    rewrite int64_small by lia.
    assert (Hblocks : blocksLeft bs n (len data) (Z.to_nat n) data).
    { unfold blocksLeft. rewrite Z2Nat.id by lia.
      split; [lia |]. split; [lia |]. intros _. split; lia. }
    pose proof (seqDecodeBlocks_spec bs n (len data) Hbs ltac:(lia) Hceil
      (Z.to_nat n) name (map len encs) data [] [] Hblocks eq_refl
      ltac:(unfold len; simpl; lia)) as Hdec.
    rewrite Z2Nat.id in Hdec by lia. rewrite Z.sub_diag in Hdec.
    exact Hdec.
Qed.

(** The container [SequentialCompressFile] writes: a header with the name,
    the size of the input, the block size and [ceil (size / blockSize)]
    blocks; a size table whose entries are between 1 and [1 + blockSize] and
    add up to the length of the payload; a payload at most one byte per block
    longer than the input. *)
Theorem sequential_container_layout :
  exists file h payload,
    SequentialCompressFile name bs data = Done (Some file, None) /\
    ReadHeader file = Done (h, payload) /\
    Filename h = name /\ OriginalSize h = len data /\ BlockSize h = bs /\
    NumBlocks h = (len data + bs - 1) / bs /\
    len (BlockCompSizes h) = NumBlocks h /\
    Forall (fun s => 1 <= s <= 1 + bs) (BlockCompSizes h) /\
    sumSizes (BlockCompSizes h) = len payload /\
    len payload <= len data + NumBlocks h.
Proof using Hname Hbs Hdata.
  pose proof SequentialCompressFile_spec as Hspec. cbv zeta in Hspec.
  destruct Hspec as [Hv Hc].
  set (n := numBlocksOf (len data) bs) in *.
  set (encs := encodedBlocks (Z.to_nat n) bs data) in *.
  set (h := mkFileHeader name (len data) bs n (map len encs)) in *.
  pose proof (len_nonneg data) as HL0.
  destruct (numBlocksOf_ceil (len data) bs Hbs ltac:(lia)) as (Hdiv & Hceil & Hn0).
  fold n in Hdiv, Hceil, Hn0.
  exists ((WriteHeader [] h).1 ++ concat encs), h, (concat encs).
  split; [exact Hc |].
  split; [apply (ReadHeader_written h (concat encs) Hv) |].
  cbn [Filename OriginalSize BlockSize NumBlocks BlockCompSizes h].
  split; [reflexivity |]. split; [reflexivity |]. split; [reflexivity |].
  split; [exact Hdiv |].
  split; [apply Hv |].
  destruct (encodedBlocks_total bs (Z.to_nat n) ltac:(lia) data) as [Hsum Hle].
  fold encs in Hsum, Hle.
  split; [| split; [exact Hsum | lia]].
  destruct (Z.eq_dec n 0) as [Hz|Hnz].
  - unfold encs. rewrite Hz. constructor.
  - apply (encodedBlocks_sizes bs n (len data)); [lia | lia | lia |].
    unfold blocksLeft. rewrite Z2Nat.id by lia.
    split; [lia |]. split; [lia |]. intros _. split; lia.
Qed.
End CompressedFile.

(** A file compressed by [SequentialCompressFile] is given back by
    [SequentialDecompressFile], byte for byte, whatever its content and for
    every block size a [uint32] can hold but 0: the compressor returns no
    error and the decompressor, run on what it wrote, returns the input. *)
Theorem sequential_file_round_trip (name data : list byte) (bs : Z) :
  len name <= 65535 -> 0 < bs < 2 ^ 32 -> len data < 2 ^ 62 ->
  exists file,
    SequentialCompressFile name bs data = Done (Some file, None) /\
    SequentialDecompressFile file = Done data.
Proof.
  intros Hname Hbs Hdata.
  destruct (SequentialCompressFile_spec name data bs Hname Hbs Hdata) as [_ Hc].
  eexists. split; [exact Hc |].
  exact (SequentialDecompressFile_written name data bs Hname Hbs Hdata).
Qed.

Lemma sequential_file_round_trip_witness :
  len ["f"%byte] <= 65535 /\ 0 < 4 < 2 ^ 32 /\
  len (replicate 10 "a"%byte) < 2 ^ 62 /\
  exists file,
    SequentialCompressFile ["f"%byte] 4 (replicate 10 "a"%byte)
    = Done (Some file, None) /\
    SequentialDecompressFile file = Done (replicate 10 "a"%byte).
Proof.
  assert (H1 : len ["f"%byte] <= 65535) by (unfold len; simpl; lia).
  assert (H2 : 0 < 4 < 2 ^ 32) by lia.
  assert (H3 : len (replicate 10 "a"%byte) < 2 ^ 62) by (unfold len; simpl; lia).
  split; [exact H1 |]. split; [exact H2 |]. split; [exact H3 |].
  exact (sequential_file_round_trip ["f"%byte] (replicate 10 "a"%byte) 4 H1 H2 H3).
Defined.

Lemma sequential_container_layout_witness :
  len ["f"%byte] <= 65535 /\ 0 < 4 < 2 ^ 32 /\
  len (replicate 10 "a"%byte) < 2 ^ 62 /\
  exists file h payload,
    SequentialCompressFile ["f"%byte] 4 (replicate 10 "a"%byte)
    = Done (Some file, None) /\
    ReadHeader file = Done (h, payload) /\
    Filename h = ["f"%byte] /\ OriginalSize h = len (replicate 10 "a"%byte) /\
    BlockSize h = 4 /\
    NumBlocks h = (len (replicate 10 "a"%byte) + 4 - 1) / 4 /\
    len (BlockCompSizes h) = NumBlocks h /\
    Forall (fun s => 1 <= s <= 1 + 4) (BlockCompSizes h) /\
    sumSizes (BlockCompSizes h) = len payload /\
    len payload <= len (replicate 10 "a"%byte) + NumBlocks h.
Proof.
  assert (H1 : len ["f"%byte] <= 65535) by (unfold len; simpl; lia).
  assert (H2 : 0 < 4 < 2 ^ 32) by lia.
  assert (H3 : len (replicate 10 "a"%byte) < 2 ^ 62) by (unfold len; simpl; lia).
  split; [exact H1 |]. split; [exact H2 |]. split; [exact H3 |].
  exact (sequential_container_layout ["f"%byte] (replicate 10 "a"%byte) 4 H1 H2 H3).
Defined.

(** ** The configured block size *)

Lemma SetBlockSizeBytes_range (n : Z) :
  4096 <= SetBlockSizeBytes n <= 4194304 /\
  (4096 <= n <= 4194304 -> SetBlockSizeBytes n = n).
Proof.
  unfold SetBlockSizeBytes.
  change (4 * 1024 * 1024) with 4194304. change (4 * 1024) with 4096.
  destruct (Z.ltb_spec n 4096); destruct (Z.ltb_spec 4194304 n);
    try destruct (Z.ltb_spec 4194304 4096); lia.
Qed.

(** Whatever is passed to [SetBlockSizeBytes], the block size it leaves is
    between 4 KiB and 4 MiB, and a file compressed under it (its name at most
    65535 bytes) is given back by the decompressor, which takes the block
    size from the header and not from the setting. *)
Theorem configured_block_size_round_trip (requested : Z)
  (name data : list byte) :
  len name <= 65535 -> len data < 2 ^ 62 ->
  4096 <= SetBlockSizeBytes requested <= 4194304 /\
  exists file,
    SequentialCompressFile name (SetBlockSizeBytes requested) data
    = Done (Some file, None) /\
    SequentialDecompressFile file = Done data.
Proof.
  intros Hname Hdata.
  destruct (SetBlockSizeBytes_range requested) as [Hr _].
  split; [exact Hr |].
  assert (Hbs : 0 < SetBlockSizeBytes requested < 2 ^ 32) by lia.
  destruct (SequentialCompressFile_spec name data _ Hname Hbs Hdata) as [_ Hc].
  eexists. split; [exact Hc |].
  exact (SequentialDecompressFile_written name data _ Hname Hbs Hdata).
Qed.

Lemma configured_block_size_round_trip_witness :
  len ["f"%byte] <= 65535 /\ len (replicate 10 "a"%byte) < 2 ^ 62 /\
  4096 <= SetBlockSizeBytes 0 <= 4194304.
Proof.
  assert (H1 : len ["f"%byte] <= 65535) by (unfold len; simpl; lia).
  assert (H3 : len (replicate 10 "a"%byte) < 2 ^ 62) by (unfold len; simpl; lia).
  split; [exact H1 |]. split; [exact H3 |].
  exact (proj1 (configured_block_size_round_trip 0 ["f"%byte]
                  (replicate 10 "a"%byte) H1 H3)).
Defined.

(** A file whose base name has more than 65535 bytes is compressed block by
    block all the same; the compressor then fails at the header and leaves an
    output file that holds the four bytes of the magic and nothing else. *)
Theorem sequential_compress_long_name (name data : list byte) (bs : Z) :
  65535 < len name -> 0 < bs < 2 ^ 32 -> len data < 2 ^ 62 ->
  SequentialCompressFile name bs data
  = Done (Some magic, Some (ErrWriteHeader ErrFilenameTooLong)).
Proof.
  intros Hname Hbs Hdata. pose proof (len_nonneg data) as HL0.
  assert (Hw : forall os b nb sizes,
    WriteHeader [] (mkFileHeader name os b nb sizes)
    = (magic, Some ErrFilenameTooLong)).
  { intros. unfold WriteHeader. cbn [Filename].
    destruct (Z.ltb_spec 0xFFFF (len name)); [reflexivity | lia]. }
  unfold SequentialCompressFile.
  destruct (Z.eqb_spec (len data) 0) as [Hz|Hnz]; [now rewrite Hw |].
  destruct (Z.eqb_spec bs 0) as [Hbs0|Hbs0]; [lia |].
  destruct (numBlocksOf_ceil (len data) bs Hbs ltac:(lia)) as (_ & Hceil & Hn0).
  set (n := numBlocksOf (len data) bs) in *.
  destruct (Z.ltb_spec n 0); [lia |].
  assert (Hblocks : blocksLeft bs n (len data) (Z.to_nat n) data).
  { unfold blocksLeft. rewrite Z2Nat.id by lia.
    split; [lia |]. split; [lia |]. intros _. split; lia. }
  pose proof (seqEncodeBlocks_spec bs n (len data) Hbs ltac:(lia) Hceil
    (Z.to_nat n) data [] []
    (replicate (Z.to_nat n) []) (replicate (Z.to_nat n) 0) Hblocks
    ltac:(apply length_replicate) ltac:(apply length_replicate)
    ltac:(unfold len; simpl; lia) ltac:(unfold len; simpl; lia)) as Henc.
  rewrite Z2Nat.id in Henc by lia. rewrite Z.sub_diag in Henc.
  cbn [app] in Henc. rewrite Henc. cbn [bind]. now rewrite Hw.
Qed.

Lemma sequential_compress_long_name_witness :
  65535 < len (replicate (Z.to_nat 65536) "n"%byte) /\
  SequentialCompressFile (replicate (Z.to_nat 65536) "n"%byte) 4
    (replicate 10 "a"%byte)
  = Done (Some magic, Some (ErrWriteHeader ErrFilenameTooLong)).
Proof.
  assert (H1 : 65535 < len (replicate (Z.to_nat 65536) "n"%byte)).
  { unfold len. rewrite length_replicate, Z2Nat.id; lia. }
  split; [exact H1 |].
  apply sequential_compress_long_name; [exact H1 | lia |].
  unfold len. simpl. lia.
Defined.

(** ** A container cut short *)

(** A container that has lost bytes at its end is refused: on every proper
    prefix of a file written by [SequentialCompressFile] the decompressor
    returns an error, a short read of the header or of a block. *)
Theorem sequential_truncated_container_fails (name data p k : list byte)
  (bs : Z) :
  len name <= 65535 -> 0 < bs < 2 ^ 32 -> len data < 2 ^ 62 ->
  SequentialCompressFile name bs data = Done (Some (p ++ k), None) ->
  k <> [] ->
  SequentialDecompressFile p = Fail (ErrReadHeader ErrShortRead) \/
  exists blockIndex,
    SequentialDecompressFile p = Fail (ErrReadBlock blockIndex ErrShortRead).
Proof.
  intros Hname Hbs Hdata Hfile Hk.
  destruct (SequentialCompressFile_spec name data bs Hname Hbs Hdata) as [Hv Hc].
  set (n := numBlocksOf (len data) bs) in *.
  set (encs := encodedBlocks (Z.to_nat n) bs data) in *.
  set (h := mkFileHeader name (len data) bs n (map len encs)) in *.
  rewrite Hc in Hfile. injection Hfile as Hfile.
  destruct (ReadHeader_written h [] Hv) as [Hnone _].
  pose proof (len_nonneg data) as HL0.
  destruct (numBlocksOf_ceil (len data) bs Hbs ltac:(lia)) as (_ & Hceil & Hn0).
  fold n in Hceil, Hn0.
  destruct (app_cut _ _ _ _ Hfile) as [Hlt | (p' & -> & Hrest)].
  - left.
    assert (Hp : (WriteHeader [] h).1
                 = p ++ drop (length p) (WriteHeader [] h).1).
    { rewrite <- (take_drop (length p) (WriteHeader [] h).1) at 1. f_equal.
      apply (f_equal (take (length p))) in Hfile.
      rewrite take_app_le in Hfile by lia. rewrite take_app_length in Hfile.
      exact Hfile. }
    assert (Hd : drop (length p) (WriteHeader [] h).1 <> []).
    { intros Hnil. apply (f_equal length) in Hnil.
      rewrite length_drop in Hnil. simpl in Hnil. lia. }
    unfold SequentialDecompressFile.
    rewrite (ReadHeader_cut h p (drop (length p) (WriteHeader [] h).1) Hv);
      [reflexivity | | exact Hd].
    rewrite <- Hp. destruct (WriteHeader [] h) as [out err].
    cbn [fst snd] in *. now subst err.
  - right. unfold SequentialDecompressFile.
    destruct (ReadHeader_written h p' Hv) as [_ ->].
    unfold h. cbn [OriginalSize NumBlocks].
    assert (Hne : concat encs <> []).
    { intros Hnil. rewrite Hnil in Hrest. symmetry in Hrest.
      apply app_eq_nil in Hrest as [_ ->]. now destruct Hk. }
    assert (Hn1 : n <> 0).
    { intros Hz. apply Hne. unfold encs. now rewrite Hz. }
    destruct (Z.eqb_spec (len data) 0) as [Hz|Hnz]; [lia |].
    destruct (Z.eqb_spec n 0); [lia |]. cbn [orb].
    rewrite int64_small by lia.
    assert (Hblocks : blocksLeft bs n (len data) (Z.to_nat n) data).
    { unfold blocksLeft. rewrite Z2Nat.id by lia.
      split; [lia |]. split; [lia |]. intros _. split; lia. }
    pose proof (seqDecodeBlocks_cut bs n (len data) Hbs ltac:(lia) Hceil
      (Z.to_nat n) name (map len encs) data [] [] p' k Hblocks eq_refl
      ltac:(unfold len; simpl; lia) Hrest Hk) as Hcut.
    rewrite Z2Nat.id in Hcut by lia. rewrite Z.sub_diag in Hcut.
    exact Hcut.
Qed.

Lemma sequential_truncated_container_fails_witness :
  let file :=
    match SequentialCompressFile ["f"%byte] 4 (replicate 10 "a"%byte) with
    | Done (Some file, None) => file
    | _ => []
    end in
  len file = 64 /\
  (SequentialDecompressFile (take 60 file) = Fail (ErrReadHeader ErrShortRead) \/
   exists blockIndex,
     SequentialDecompressFile (take 60 file)
     = Fail (ErrReadBlock blockIndex ErrShortRead)).
Proof.
  intros file. split; [vm_compute; reflexivity |].
  apply (sequential_truncated_container_fails ["f"%byte] (replicate 10 "a"%byte)
           (take 60 file) (drop 60 file) 4).
  - unfold len. simpl. lia.
  - lia.
  - unfold len. simpl. lia.
  - vm_compute. reflexivity.
  - vm_compute. discriminate.
Defined.

Section DequeAlone.
Import Deque.

Lemma PushBottom_Done (d : WSDeque) (task : Z) :
  wfDeque d -> 0 <= bottom d -> bottom d + 1 < 2 ^ 64 ->
  exists d', PushBottom d task = Done d' /\
    wfDeque d' /\ len (tasks d') = len (tasks d) /\
    top d' = top d /\ bottom d' = bottom d + 1 /\
    slot d' (bottom d) = task /\
    (forall k, 0 <= k -> k mod len (tasks d) <> bottom d mod len (tasks d) ->
               slot d' k = slot d k).
Proof.
  intros Hwf Hb Hb1. unfold PushBottom.
  destruct (store_slot d (bottom d) task Hwf Hb) as (ts & -> & Hlen & Hnew & Hold).
  cbn [bind]. eexists. split; [reflexivity |].
  rewrite uint64_small by lia.
  split; [apply (wfDeque_setTasks d ts Hwf Hlen) |].
  cbn [tasks top bottom setBottom setTasks].
  split; [exact Hlen |]. split; [reflexivity |]. split; [reflexivity |].
  split; [exact Hnew | exact Hold].
Qed.

Lemma PushBottom_push (d : WSDeque) (task : Z) :
  dequeOk d -> bottom d - top d < len (tasks d) -> bottom d + 1 < 2 ^ 64 ->
  exists d', PushBottom d task = Done d' /\ dequeOk d' /\
    top d' = top d /\ bottom d' = bottom d + 1 /\
    len (tasks d') = len (tasks d) /\
    dequeTasks d' = dequeTasks d ++ [task].
Proof.
  intros (Hwf & Ht & Hroom & Hhi) Hfree Hb1.
  destruct (PushBottom_Done d task Hwf ltac:(lia) Hb1)
    as (d' & Hpush & Hwf' & Hlen & Htop & Hbot & Hnew & Hold).
  exists d'. split; [exact Hpush |].
  split; [unfold dequeOk; rewrite Hlen, Htop, Hbot; repeat split; try lia; exact Hwf' |].
  split; [exact Htop |]. split; [exact Hbot |]. split; [exact Hlen |].
  unfold dequeTasks. rewrite Htop, Hbot, slots_snoc by lia.
  rewrite Hnew. f_equal. apply slots_ext. intros k Hk.
  apply Hold; [lia |]. apply mod_differs. lia.
Qed.

(** [PushBottom] on a deque with a free slot adds the task at the bottom:
    the call returns, the deque holds the tasks it held, in their order,
    and the new task after them. *)
Theorem PushBottom_appends (d : WSDeque) (task : Z) :
  dequeOk d -> bottom d - top d < len (tasks d) -> bottom d + 1 < 2 ^ 64 ->
  exists d', PushBottom d task = Done d' /\ dequeOk d' /\
    top d' = top d /\ dequeTasks d' = dequeTasks d ++ [task].
Proof.
  intros Hok Hfree Hb1.
  destruct (PushBottom_push d task Hok Hfree Hb1)
    as (d' & Hpush & Hok' & Htop & _ & _ & Htasks).
  exists d'. auto.
Qed.

Lemma PushBottom_appends_witness :
  dequeTasks (NewWSDeque 2) = [] /\
  exists d', PushBottom (NewWSDeque 2) 7 = Done d' /\ dequeOk d' /\
    top d' = top (NewWSDeque 2) /\ dequeTasks d' = dequeTasks (NewWSDeque 2) ++ [7].
Proof.
  split; [reflexivity |].
  apply (PushBottom_appends (NewWSDeque 2) 7).
  - unfold dequeOk. split; [| vm_compute; repeat split; discriminate].
    exists 1. vm_compute. repeat split; discriminate.
  - vm_compute. reflexivity.
  - vm_compute. reflexivity.
Defined.

(** [PushBottom] has no check for a full deque.  On a deque that holds as
    many tasks as it has slots the call returns all the same; the new task
    takes the slot of the oldest one, which is lost: the next [Steal] returns
    the new task. *)
Theorem PushBottom_full_overwrites (d : WSDeque) (task : Z) :
  dequeOk d -> bottom d - top d = len (tasks d) -> bottom d + 1 < 2 ^ 64 ->
  exists d' d'', PushBottom d task = Done d' /\
    bottom d' - top d' = len (tasks d') + 1 /\
    Steal d' = Done (d'', (task, true)).
Proof.
  intros (Hwf & Ht & Hroom & Hhi) Hfull Hb1.
  destruct (PushBottom_Done d task Hwf ltac:(lia) Hb1)
    as (d' & Hpush & Hwf' & Hlen & Htop & Hbot & Hnew & Hold).
  assert (Hpos : 0 < len (tasks d)).
  { destruct Hwf as (n & Hn & _ & ->). apply Z.pow_pos_nonneg; lia. }
  exists d'. eexists. split; [exact Hpush |].
  split; [lia |].
  unfold Steal. destruct (Z.leb_spec (bottom d') (top d')); [lia |].
  rewrite (index_slot d' (top d') Hwf') by lia. cbn [bind].
  unfold casTop. rewrite Z.eqb_refl. cbn [negb].
  assert (Hsame : slot d' (top d') = task).
  { rewrite <- Hnew. unfold slot.
    destruct (land_mask d' (top d') Hwf' ltac:(lia)) as [-> _].
    destruct (land_mask d' (bottom d) Hwf' ltac:(lia)) as [-> _].
    rewrite Htop, Hlen.
    replace (bottom d) with (top d + 1 * len (tasks d)) by lia.
    now rewrite Z.mod_add by lia. }
  rewrite Hsame. reflexivity.
Qed.

Lemma PushBottom_full_overwrites_witness :
  dequeTasks (mkWSDeque [5; 6] 1 0 2) = [5; 6] /\
  exists d' d'', PushBottom (mkWSDeque [5; 6] 1 0 2) 7 = Done d' /\
    bottom d' - top d' = len (tasks d') + 1 /\
    Steal d' = Done (d'', (7, true)).
Proof.
  split; [reflexivity |].
  apply (PushBottom_full_overwrites (mkWSDeque [5; 6] 1 0 2) 7).
  - unfold dequeOk. split; [| vm_compute; repeat split; discriminate].
    exists 1. vm_compute. repeat split; discriminate.
  - vm_compute. reflexivity.
  - vm_compute. reflexivity.
Defined.

Lemma dequeTasks_nil (d : WSDeque) :
  top d = bottom d -> dequeTasks d = [].
Proof. intros H. unfold dequeTasks. rewrite H. apply slots_nil. Qed.

(** [PopBottom] takes the newest task: on a deque that holds tasks the call
    returns the last one pushed, with [true], and leaves the others in their
    order; on an empty deque it returns [0, false] and leaves the deque as
    it was. *)
Theorem PopBottom_takes_last (d : WSDeque) :
  dequeOk d ->
  exists d' r, PopBottom d = Done (d', r) /\ dequeOk d' /\
    ((dequeTasks d = [] /\ r = (0, false) /\ d' = d) \/
     (exists task, r = (task, true) /\ dequeTasks d = dequeTasks d' ++ [task])).
Proof.
  intros (Hwf & Ht & Hroom & Hhi). unfold PopBottom.
  destruct (Z.eqb_spec (bottom d) 0) as [Hb0|Hb0].
  { exists d, (0, false). split; [reflexivity |].
    split; [repeat split; try lia; exact Hwf |].
    left. split; [apply dequeTasks_nil; lia | auto]. }
  rewrite (uint64_small (bottom d - 1)) by lia.
  cbn [top setBottom tasks mask].
  replace (uint64 (bottom d - 1 + 1)) with (bottom d)
    by (rewrite uint64_small by lia; lia).
  destruct (Z.leb_spec (top d) (bottom d - 1)) as [Hle|Hgt].
  - rewrite (index_slot d (bottom d - 1) Hwf) by lia. cbn [bind].
    destruct (Z.eqb_spec (top d) (bottom d - 1)) as [Heq|Hne].
    + unfold casTop. cbn [top setBottom]. rewrite Z.eqb_refl. cbn [negb].
      rewrite (uint64_small (top d + 1)) by lia.
      eexists _, _. split; [reflexivity |]. 
      split.
      { unfold dequeOk. cbn [top bottom tasks setBottom setTop].
        split; [exact Hwf |]. pose proof (len_nonneg (tasks d)). lia. }
      right. eexists. split; [reflexivity |].
      unfold dequeTasks at 2. cbn [top bottom setBottom setTop].
      replace (top d + 1) with (bottom d) by lia. rewrite slots_nil.
      unfold dequeTasks. rewrite Heq.
      replace (bottom d) with (bottom d - 1 + 1) at 2 by lia.
      rewrite slots_snoc by lia. now rewrite slots_nil.
    + eexists _, _. split; [reflexivity |].
      split.
      { unfold dequeOk. cbn [top bottom tasks setBottom].
        split; [exact Hwf |]. lia. }
      right. eexists. split; [reflexivity |].
      unfold dequeTasks. cbn [top bottom setBottom]. rewrite slots_setBottom.
      replace (bottom d) with (bottom d - 1 + 1) at 1 by lia.
      now rewrite slots_snoc by lia.
  - exists d, (0, false).
    replace (setBottom (setBottom d (bottom d - 1)) (bottom d)) with d
      by now destruct d.
    split; [reflexivity |].
    split; [repeat split; try lia; exact Hwf |].
    left. split; [apply dequeTasks_nil; lia | auto].
Qed.

Lemma PopBottom_takes_last_witness :
  dequeTasks (mkWSDeque [5; 6] 1 0 2) = [5; 6] /\
  exists d' r, PopBottom (mkWSDeque [5; 6] 1 0 2) = Done (d', r) /\ dequeOk d' /\
    ((dequeTasks (mkWSDeque [5; 6] 1 0 2) = [] /\ r = (0, false) /\
      d' = mkWSDeque [5; 6] 1 0 2) \/
     (exists task, r = (task, true) /\
        dequeTasks (mkWSDeque [5; 6] 1 0 2) = dequeTasks d' ++ [task])).
Proof.
  split; [reflexivity |].
  apply (PopBottom_takes_last (mkWSDeque [5; 6] 1 0 2)).
  unfold dequeOk. split; [| vm_compute; repeat split; discriminate].
  exists 1. vm_compute. repeat split; discriminate.
Defined.

(** [Steal] takes the oldest task: on a deque that holds tasks the call
    returns the first one pushed of those it holds, with [true], and leaves
    the others in their order; on an empty deque it returns [0, false] and
    leaves the deque as it was. *)
Theorem Steal_takes_first (d : WSDeque) :
  dequeOk d ->
  exists d' r, Steal d = Done (d', r) /\ dequeOk d' /\
    ((dequeTasks d = [] /\ r = (0, false) /\ d' = d) \/
     (exists task, r = (task, true) /\ dequeTasks d = task :: dequeTasks d')).
Proof.
  intros (Hwf & Ht & Hroom & Hhi). unfold Steal.
  destruct (Z.leb_spec (bottom d) (top d)) as [Hle|Hlt].
  { exists d, (0, false). split; [reflexivity |].
    split; [repeat split; try lia; exact Hwf |].
    left. split; [apply dequeTasks_nil; lia | auto]. }
  rewrite (index_slot d (top d) Hwf) by lia. cbn [bind].
  unfold casTop. rewrite Z.eqb_refl. cbn [negb].
  rewrite (uint64_small (top d + 1)) by lia.
  eexists _, _. split; [reflexivity |].
  split.
  { unfold dequeOk. cbn [top bottom tasks setTop].
    split; [exact Hwf |]. lia. }
  right. eexists. split; [reflexivity |].
  unfold dequeTasks. cbn [top bottom setTop]. rewrite slots_setTop.
  now apply slots_cons.
Qed.

Lemma Steal_takes_first_witness :
  dequeTasks (mkWSDeque [5; 6] 1 0 2) = [5; 6] /\
  exists d' r, Steal (mkWSDeque [5; 6] 1 0 2) = Done (d', r) /\ dequeOk d' /\
    ((dequeTasks (mkWSDeque [5; 6] 1 0 2) = [] /\ r = (0, false) /\
      d' = mkWSDeque [5; 6] 1 0 2) \/
     (exists task, r = (task, true) /\
        dequeTasks (mkWSDeque [5; 6] 1 0 2) = task :: dequeTasks d')).
Proof.
  split; [reflexivity |].
  apply (Steal_takes_first (mkWSDeque [5; 6] 1 0 2)).
  unfold dequeOk. split; [| vm_compute; repeat split; discriminate].
  exists 1. vm_compute. repeat split; discriminate.
Defined.
End DequeAlone.

Section NewDequeSize.
Import Deque.

Lemma nextPow2_least (n : Z) :
  1 <= n <= 2 ^ 62 ->
  exists k, 0 <= k <= 62 /\ nextPow2 n = 2 ^ k /\ n <= 2 ^ k < 2 * n.
Proof.
  intros Hn. unfold nextPow2.
  rewrite (uint64_small (n - 1)) by lia.
  set (x := n - 1).
  set (x1 := Z.lor x (Z.shiftr x 1)).
  set (x2 := Z.lor x1 (Z.shiftr x1 2)).
  set (x3 := Z.lor x2 (Z.shiftr x2 4)).
  set (x4 := Z.lor x3 (Z.shiftr x3 8)).
  set (x5 := Z.lor x4 (Z.shiftr x4 16)).
  set (x6 := Z.lor x5 (Z.shiftr x5 32)).
  assert (H1 : smeared x 2 x1) by (apply (smeared_step x 1); [lia | apply smeared_start]).
  assert (H2 : smeared x 4 x2) by (apply (smeared_step x 2); [lia | exact H1]).
  assert (H3 : smeared x 8 x3) by (apply (smeared_step x 4); [lia | exact H2]).
  assert (H4 : smeared x 16 x4) by (apply (smeared_step x 8); [lia | exact H3]).
  assert (H5 : smeared x 32 x5) by (apply (smeared_step x 16); [lia | exact H4]).
  assert (H6 : smeared x 64 x6) by (apply (smeared_step x 32); [lia | exact H5]).
  assert (Hx : 0 <= x < 2 ^ 62) by (unfold x; lia).
  assert (Hnn : forall a s, 0 <= a -> 0 <= Z.lor a (Z.shiftr a s)).
  { intros a s Ha. apply Z.lor_nonneg. split; [exact Ha | now apply Z.shiftr_nonneg]. }
  assert (H60 : 0 <= x6) by (repeat apply Hnn; lia).
  rewrite (smeared_ones x x6) by (auto; lia).
  set (k := if x =? 0 then 0 else Z.log2 x + 1).
  assert (Hk : 0 <= k <= 62).
  { unfold k. destruct (Z.eqb_spec x 0); [lia |].
    pose proof (Z.log2_nonneg x).
    assert (Z.log2 x < 62) by (apply Z.log2_lt_pow2; lia). lia. }
  assert (Hpow : n <= 2 ^ k < 2 * n).
  { unfold k. destruct (Z.eqb_spec x 0) as [H0|H0]; [unfold x in H0; simpl; lia |].
    pose proof (Z.log2_spec x ltac:(lia)) as Hl.
    pose proof (Z.log2_nonneg x).
    replace (Z.log2 x + 1) with (Z.succ (Z.log2 x)) in * by lia.
    rewrite Z.pow_succ_r in * by lia. unfold x in *. lia. }
  exists k. split; [exact Hk |]. split; [| exact Hpow].
  rewrite Z.ones_equiv.
  replace (Z.pred (2 ^ k) + 1) with (2 ^ k) by lia.
  assert (0 < 2 ^ k <= 2 ^ 62).
  { split; [apply Z.pow_pos_nonneg; lia | apply Z.pow_le_mono_r; lia]. }
  rewrite uint64_small by lia.
  unfold int64. rewrite Z.mod_small by lia. lia.
Qed.

Lemma NewWSDeque_least (capacity : Z) :
  capacity <= 2 ^ 62 ->
  dequeOk (NewWSDeque capacity) /\
  top (NewWSDeque capacity) = 0 /\ bottom (NewWSDeque capacity) = 0 /\
  Z.max 1 capacity <= len (tasks (NewWSDeque capacity)) < 2 * Z.max 1 capacity.
Proof.
  intros Hc. unfold NewWSDeque.
  set (c := if capacity <=? 0 then 1 else capacity).
  assert (Hc1 : 1 <= c <= 2 ^ 62 /\ c = Z.max 1 capacity).
  { unfold c. destruct (Z.leb_spec capacity 0); lia. }
  destruct Hc1 as [Hc1 <-].
  destruct (nextPow2_least c Hc1) as (k & Hk & -> & Hle).
  assert (0 < 2 ^ k <= 2 ^ 62).
  { split; [apply Z.pow_pos_nonneg; lia | apply Z.pow_le_mono_r; lia]. }
  assert (Hlen : len (replicate (Z.to_nat (2 ^ k)) 0) = 2 ^ k).
  { unfold len. rewrite length_replicate. lia. }
  unfold dequeOk. cbn [tasks mask top bottom]. rewrite Hlen.
  split; [| lia]. split; [| lia].
  exists k. split; [lia |]. split; [| exact Hlen].
  rewrite uint64_small by lia. rewrite Z.ones_equiv. cbn [mask]. lia.
Qed.

(** [NewWSDeque] gives an empty deque whose number of slots is the least
    power of two that is at least the capacity asked for (at least one): no
    fewer slots than asked for, and fewer than twice as many. *)
Theorem NewWSDeque_size (capacity : Z) :
  capacity <= 2 ^ 62 ->
  let d := NewWSDeque capacity in
  dequeOk d /\ dequeTasks d = [] /\
  (exists k, 0 <= k /\ len (tasks d) = 2 ^ k /\ mask d = 2 ^ k - 1) /\
  Z.max 1 capacity <= len (tasks d) < 2 * Z.max 1 capacity.
Proof.
  intros Hc d. destruct (NewWSDeque_least capacity Hc) as (Hok & Ht & Hb & Hsz).
  fold d in Hok, Ht, Hb, Hsz.
  split; [exact Hok |]. split; [apply dequeTasks_nil; lia |].
  split; [| exact Hsz].
  destruct Hok as ((k & Hk & Hm & Hl) & _). exists k.
  split; [exact Hk |]. split; [exact Hl |].
  rewrite Hm, Z.ones_equiv. lia.
Qed.

Lemma NewWSDeque_size_witness :
  let d := NewWSDeque 5 in
  dequeOk d /\ dequeTasks d = [] /\
  (exists k, 0 <= k /\ len (tasks d) = 2 ^ k /\ mask d = 2 ^ k - 1) /\
  Z.max 1 5 <= len (tasks d) < 2 * Z.max 1 5.
Proof. apply (NewWSDeque_size 5). lia. Defined.
End NewDequeSize.

Section Seeding.
Import Deque.

Lemma ceil_here (T idx : Z) :
  0 < T -> 0 <= idx ->
  (idx - idx mod T + T - 1) / T = idx / T /\
  (idx + 1 - idx mod T + T - 1) / T = idx / T + 1.
Proof.
  intros HT Hidx. pose proof (Z.div_mod idx T ltac:(lia)) as Hdm.
  pose proof (Z.mod_pos_bound idx T HT) as Hm.
  split.
  - symmetry. apply (Z.div_unique _ _ _ (T - 1)); lia.
  - symmetry. apply (Z.div_unique _ _ _ 0); lia.
Qed.

Lemma ceil_step (T idx w : Z) :
  0 < T -> 0 <= idx -> 0 <= w < T -> idx mod T <> w ->
  (idx + 1 - w + T - 1) / T = (idx - w + T - 1) / T.
Proof.
  intros HT Hidx Hw Hne. pose proof (Z.div_mod idx T ltac:(lia)) as Hdm.
  pose proof (Z.mod_pos_bound idx T HT) as Hm.
  destruct (Z.lt_ge_cases (idx mod T) w) as [Hlt|Hge].
  - rewrite <- (Z.div_unique (idx + 1 - w + T - 1) T (idx / T)
                  (idx mod T - w + T)) by lia.
    rewrite <- (Z.div_unique (idx - w + T - 1) T (idx / T)
                  (idx mod T - w + T - 1)) by lia.
    reflexivity.
  - rewrite <- (Z.div_unique (idx + 1 - w + T - 1) T (idx / T + 1)
                  (idx mod T - w)) by lia.
    rewrite <- (Z.div_unique (idx - w + T - 1) T (idx / T + 1)
                  (idx mod T - w - 1)) by lia.
    reflexivity.
Qed.

Lemma concat_insert_snoc {A B : Type} (f : A -> list B) (l : list A) (i : nat)
  (a a' : A) (b : B) :
  l !! i = Some a -> f a' = f a ++ [b] ->
  Permutation (concat (map f (<[i := a']> l))) (concat (map f l) ++ [b]).
Proof.
  revert i. induction l as [|x l IH]; intros [|i] Hi Hf; try discriminate.
  - injection Hi as ->. cbn. rewrite Hf. rewrite <- !app_assoc.
    apply Permutation_app_head. apply Permutation_app_comm.
  - cbn. rewrite (IH i Hi Hf). now rewrite app_assoc.
Qed.

Lemma seedLoop_spec (T cap numBlocks : Z) (n : nat) :
  0 < T -> numBlocks <= 2 ^ 62 ->
  (numBlocks - 1) / T < cap ->
  forall idx deques,
  0 <= idx -> idx + Z.of_nat n = numBlocks ->
  seeded T cap idx deques ->
  exists deques', seedLoop n T idx deques = Done deques' /\
                  seeded T cap numBlocks deques'.
Proof.
  intros HT Hmax Hcap. induction n as [|n IH]; intros idx deques Hidx Hn Hs.
  - exists deques. split; [reflexivity |].
    replace numBlocks with idx by lia. exact Hs.
  - cbn [seedLoop]. destruct (Z.eqb_spec T 0); [lia |].
    rewrite Z.rem_mod_nonneg by lia.
    pose proof (Z.mod_pos_bound idx T HT) as Hm.
    pose proof (Z.div_mod idx T ltac:(lia)) as Hdm.
    destruct Hs as (Hlen & Hall & Hperm).
    destruct (index_in_range deques (idx mod T) ltac:(lia)) as [d Hd].
    rewrite Hd. cbn [bind].
    apply index_Done_iff in Hd as [_ Hd].
    destruct (Hall _ _ Hm Hd) as (Hok & Htop & Hbot & Hsz & Htasks).
    destruct (ceil_here T idx HT Hidx) as [Hq Hq1].
    rewrite Hq in Hbot.
    assert (Hqle : idx / T <= (numBlocks - 1) / T)
      by (apply Z.div_le_mono; lia).
    assert (Hq0 : 0 <= idx / T) by (apply Z.div_pos; lia).
    assert (Hqn : idx / T <= idx) by (apply Z.div_le_upper_bound; nia).
    destruct (PushBottom_push d idx Hok ltac:(lia) ltac:(lia))
      as (d' & -> & Hok' & Htop' & Hbot' & Hlen' & Htasks').
    cbn [bind]. unfold store.
    destruct (Z.ltb_spec (idx mod T) 0); [lia |].
    destruct (Z.leb_spec (len deques) (idx mod T)); [lia |].
    cbn [orb bind].
    apply (IH (idx + 1)); [lia | lia |].
    split; [unfold len in *; now rewrite length_insert |].
    split.
    + intros w dw Hw Hdw.
      destruct (Z.eq_dec w (idx mod T)) as [->|Hne].
      * rewrite list_lookup_insert_eq in Hdw by (unfold len in *; lia).
        injection Hdw as <-.
        split; [exact Hok' |]. split; [lia |].
        split; [rewrite Hq1; lia |]. split; [lia |].
        rewrite Htasks', Htasks, Hbot', Hbot.
        rewrite (seqZ_app 0 (idx / T) 1) by lia. rewrite map_app.
        f_equal. rewrite seqZ_cons by lia. rewrite seqZ_nil by lia.
        cbn [map]. f_equal. lia.
      * rewrite list_lookup_insert_ne in Hdw by lia.
        destruct (Hall _ _ Hw Hdw) as (H1 & H2 & H3 & H4 & H5).
        split; [exact H1 |]. split; [exact H2 |].
        split; [| split; [exact H4 | exact H5]].
        rewrite H3. symmetry. apply ceil_step; auto.
    + rewrite (concat_insert_snoc dequeTasks deques _ d d' idx Hd Htasks').
      rewrite Hperm. rewrite (seqZ_app 0 idx 1) by lia. reflexivity.
Qed.

(** The work-stealing drivers hand every block index to exactly one deque,
    and no deque is given more than it has slots for.  With [T] deques, the
    thread count brought into [1 .. numBlocks], the loop returns; deque [w]
    then holds [w], [w + T], [w + 2T], ... below [numBlocks], the least at
    its top; taken together the deques hold each index [0 .. numBlocks - 1]
    once. *)
Theorem seedDeques_distribution (numBlocks threads : Z) :
  1 <= numBlocks <= 2 ^ 62 ->
  let T := Z.min (Z.max 1 threads) numBlocks in
  exists deques, seedDeques numBlocks threads = Done deques /\
    len deques = T /\
    (forall w, 0 <= w < T ->
       exists d, index deques w = Done d /\ dequeOk d /\ top d = 0 /\
         dequeTasks d
         = map (fun i => w + i * T) (seqZ 0 ((numBlocks - w + T - 1) / T))) /\
    Permutation (concat (map dequeTasks deques)) (seqZ 0 numBlocks).
Proof.
  intros Hn T. unfold seedDeques.
  set (t1 := if threads <=? 0 then 1 else threads).
  assert (HT : (if numBlocks <? t1 then numBlocks else t1) = T).
  { unfold t1, T. destruct (Z.leb_spec threads 0);
      [destruct (Z.ltb_spec numBlocks 1) | destruct (Z.ltb_spec numBlocks threads)];
      lia. }
  rewrite HT. assert (HT1 : 1 <= T <= numBlocks) by (unfold T; lia).
  destruct (Z.ltb_spec T 0); [lia |].
  set (cap := Z.quot (numBlocks + T - 1) T).
  assert (Hcap : cap = (numBlocks - 1) / T + 1).
  { unfold cap. rewrite Z.quot_div_nonneg by lia.
    replace (numBlocks + T - 1) with (numBlocks - 1 + 1 * T) by lia.
    now rewrite Z.div_add by lia. }
  assert (Hcapn : 1 <= cap <= numBlocks).
  { assert (0 <= (numBlocks - 1) / T) by (apply Z.div_pos; lia).
    assert ((numBlocks - 1) / T <= numBlocks - 1)
      by (apply Z.div_le_upper_bound; nia). lia. }
  destruct (NewWSDeque_least cap ltac:(lia)) as (Hok & Ht & Hb & Hsz).
  destruct (seedLoop_spec T cap numBlocks (Z.to_nat numBlocks) ltac:(lia)
              ltac:(lia) ltac:(lia) 0
              (replicate (Z.to_nat T) (NewWSDeque cap)) ltac:(lia) ltac:(lia))
    as (deques & Hrun & Hlen & Hall & Hperm).
  { split; [unfold len; rewrite length_replicate; lia |]. split.
    - intros w d Hw Hd. apply lookup_replicate in Hd as [-> _].
      split; [exact Hok |]. split; [exact Ht |].
      assert (Hz : (0 - w + T - 1) / T = 0) by (apply Z.div_small; lia).
      split; [lia |]. split; [lia |].
      rewrite dequeTasks_nil by lia. now rewrite Hb.
    - replace (concat (map dequeTasks (replicate (Z.to_nat T) (NewWSDeque cap))))
        with (@nil Z); [reflexivity |].
      induction (Z.to_nat T) as [|k IHk]; [reflexivity |].
      cbn. rewrite dequeTasks_nil by lia. exact IHk. }
  exists deques. split; [exact Hrun |]. split; [exact Hlen |].
  split; [| exact Hperm].
  intros w Hw. destruct (index_in_range deques w ltac:(lia)) as [d Hd].
  exists d. split; [exact Hd |].
  apply index_Done_iff in Hd as [_ Hd].
  destruct (Hall _ _ Hw Hd) as (H1 & H2 & H3 & _ & H5).
  split; [exact H1 |]. split; [exact H2 |]. now rewrite <- H3.
Qed.

Lemma seedDeques_distribution_witness :
  exists deques, seedDeques 5 2 = Done deques /\
    len deques = 2 /\
    (forall w, 0 <= w < 2 ->
       exists d, index deques w = Done d /\ dequeOk d /\ top d = 0 /\
         dequeTasks d
         = map (fun i => w + i * 2) (seqZ 0 ((5 - w + 2 - 1) / 2))) /\
    Permutation (concat (map dequeTasks deques)) (seqZ 0 5).
Proof. apply (seedDeques_distribution 5 2). lia. Defined.
End Seeding.

(** ** The runs of the BSP compressor *)

Section BspWorkers.
Import BSP.

Lemma waiting_nonneg (ws : list workerPc) : 0 <= waiting ws.
Proof. induction ws as [|pc ws IH]; cbn; [lia | destruct (isWaiting pc); lia]. Qed.

Lemma waiting_le (ws : list workerPc) : waiting ws <= len ws.
Proof.
  induction ws as [|pc ws IH]; [reflexivity |].
  unfold len in *. cbn [waiting length]. destruct (isWaiting pc); lia.
Qed.

Lemma waiting_lt (ws : list workerPc) (i : nat) (pc : workerPc) :
  ws !! i = Some pc -> isWaiting pc = false -> waiting ws < len ws.
Proof.
  revert i. induction ws as [|x ws IH]; intros [|i] Hi Hw; try discriminate.
  - injection Hi as ->. pose proof (waiting_le ws).
    unfold len in *. cbn [waiting length]. rewrite Hw. lia.
  - specialize (IH i Hi Hw). unfold len in *. cbn [waiting length].
    destruct (isWaiting x); lia.
Qed.

Lemma waiting_insert (ws : list workerPc) (i : nat) (pc pc' : workerPc) :
  ws !! i = Some pc ->
  waiting (<[i := pc']> ws)
  = waiting ws - (if isWaiting pc then 1 else 0) + (if isWaiting pc' then 1 else 0).
Proof.
  revert i. induction ws as [|x ws IH]; intros [|i] Hi; try discriminate.
  - injection Hi as ->.
    change (<[0%nat := pc']> (pc :: ws)) with (pc' :: ws). cbn [waiting]. lia.
  - change (<[S i := pc']> (x :: ws)) with (x :: <[i := pc']> ws).
    cbn [waiting]. rewrite (IH i Hi). lia.
Qed.

Lemma not_all_waiting (ws : list workerPc) :
  waiting ws < len ws -> exists i pc, ws !! i = Some pc /\ isWaiting pc = false.
Proof.
  induction ws as [|x ws IH]; intros H; [unfold len in H; cbn in H; lia |].
  destruct (isWaiting x) eqn:Hx.
  - destruct IH as (i & pc & Hi & Hpc).
    { unfold len in *. cbn [waiting length] in H. rewrite Hx in H. lia. }
    exists (S i), pc. auto.
  - exists 0%nat, x. auto.
Qed.

Lemma all_waiting_woken (ws : list workerPc) (i : nat) (pc : workerPc) :
  ws !! i = Some pc -> isWaiting pc = false ->
  waiting ws + 1 = len ws ->
  Forall (fun pc => beforeBarrier pc = false) (<[i := WLeave]> (map wake ws)).
Proof.
  revert i. induction ws as [|x ws IH]; intros [|i] Hi Hw Hall; try discriminate.
  - injection Hi as ->. cbn [map]. constructor; [reflexivity |].
    unfold len in Hall. cbn [waiting length] in Hall. rewrite Hw in Hall.
    assert (Hws : waiting ws = len ws) by (unfold len; lia).
    clear -Hws. induction ws as [|y ws IH]; [constructor |].
    pose proof (waiting_le ws). unfold len in *. cbn [waiting length] in Hws.
    destruct y; cbn [isWaiting] in Hws; try lia.
    cbn [map wake]. constructor; [reflexivity |]. apply IH. lia.
  - cbn [map]. pose proof (waiting_lt ws i pc Hi Hw) as Hlt.
    unfold len in *. cbn [waiting length] in Hall.
    destruct x; cbn [isWaiting] in Hall; try lia.
    cbn. constructor; [reflexivity |]. apply (IH i Hi Hw). lia.
Qed.

Lemma work_wake (ws : list workerPc) : map work (map wake ws) = map work ws.
Proof.
  induction ws as [|x ws IH]; [reflexivity |].
  cbn [map]. rewrite IH. now destruct x.
Qed.

Lemma sum_work_insert (ws : list workerPc) (i : nat) (pc pc' : workerPc) :
  ws !! i = Some pc ->
  (sum_list (map work (<[i := pc']> ws)) + work pc
   = sum_list (map work ws) + work pc')%nat.
Proof.
  revert i. induction ws as [|x ws IH]; intros [|i] Hi; try discriminate.
  - injection Hi as ->.
    change (<[0%nat := pc']> (pc :: ws)) with (pc' :: ws).
    cbn [map sum_list sum_list_with id]. lia.
  - change (<[S i := pc']> (x :: ws)) with (x :: <[i := pc']> ws).
    cbn [map sum_list sum_list_with id]. specialize (IH i Hi). lia.
Qed.

Lemma wake_lookup (ws : list workerPc) (i : nat) :
  map wake ws !! i = wake <$> ws !! i.
Proof. apply list_lookup_fmap. Qed.

End BspWorkers.

Section BspRun.
Import BSP.
Variables (blocks encs : list (list byte)) (N T chunk : Z).
Hypothesis HN : 1 <= N.
Hypothesis HT : 1 <= T.
Hypothesis Hchunk : 1 <= chunk.
Hypothesis Hcover : N <= chunk * T.
Hypothesis Hblocks : Forall2 (fun b e => encodeBlock b = Done e) blocks encs.
Hypothesis Hlen : len blocks = N.
Hypothesis Hsmall : Forall (fun e => len e < 2 ^ 64) encs.

Lemma bspRange_bounds (id : Z) :
  0 <= id ->
  0 <= (bspRange N chunk id).1 <= (bspRange N chunk id).2 /\
  (bspRange N chunk id).2 <= N.
Proof using HN Hchunk.
  intros Hid. unfold bspRange.
  destruct (Z.leb_spec N (id * chunk)); cbn [fst snd].
  - destruct (Z.ltb_spec N 0); cbn [fst snd]; lia.
  - destruct (Z.ltb_spec N (id * chunk + chunk)); cbn [fst snd]; nia.
Qed.

Lemma bspRange_disjoint (id id' j : Z) :
  0 <= id -> 0 <= id' -> id <> id' ->
  (bspRange N chunk id).1 <= j < (bspRange N chunk id).2 ->
  ~ ((bspRange N chunk id').1 <= j < (bspRange N chunk id').2).
Proof using HN Hchunk.
  intros Hid Hid' Hne H H'.
  apply (bspRange_owns N chunk id j Hchunk Hid) in H.
  apply (bspRange_owns N chunk id' j Hchunk Hid') in H'.
  nia.
Qed.

Lemma filled_frame (s s' : state) (lo hi : Z) :
  (forall j, lo <= j < hi ->
     compressedBlocks s' !! Z.to_nat j = compressedBlocks s !! Z.to_nat j /\
     blockCompSizes s' !! Z.to_nat j = blockCompSizes s !! Z.to_nat j) ->
  filled encs s lo hi -> filled encs s' lo hi.
Proof using Type.
  intros Hsame Hf j Hj. destruct (Hf j Hj) as (e & He & Hc & Hs).
  destruct (Hsame j Hj) as [-> ->]. eauto.
Qed.

Lemma workerInv_frame (s s' : state) (id : Z) (pc : workerPc) :
  (forall j, (bspRange N chunk id).1 <= j < (bspRange N chunk id).2 ->
     compressedBlocks s' !! Z.to_nat j = compressedBlocks s !! Z.to_nat j /\
     blockCompSizes s' !! Z.to_nat j = blockCompSizes s !! Z.to_nat j) ->
  workerInv encs N chunk s id pc -> workerInv encs N chunk s' id pc.
Proof using Type.
  intros Hsame. unfold workerInv.
  destruct pc as [idx e|idx e enc| | | |]; cbv zeta.
  - intros (He & Hidx & Hf). split; [exact He |]. split; [exact Hidx |].
    eapply filled_frame; [| exact Hf]. intros j Hj. apply Hsame. lia.
  - intros (He & Hidx & Hf & Henc & Hc). split; [exact He |].
    split; [exact Hidx |]. split; [| split; [exact Henc |]].
    + eapply filled_frame; [| exact Hf]. intros j Hj. apply Hsame. lia.
    + destruct (Hsame idx ltac:(lia)) as [-> _]. exact Hc.
  - apply filled_frame. exact Hsame.
  - apply filled_frame. exact Hsame.
  - apply filled_frame. exact Hsame.
  - apply filled_frame. exact Hsame.
Qed.

(** A worker that is not at the barrier moves from [pc] to [pc'] and writes
    in its own partition only. *)
Lemma bsp_Inv_move (s s' : state) (i : nat) (pc pc' : workerPc) :
  Inv encs N T chunk s -> workers s !! i = Some pc ->
  crashed s' = false ->
  len (compressedBlocks s') = N -> len (blockCompSizes s') = N ->
  workers s' = <[i := pc']> (workers s) -> count s' = count s ->
  (forall j, ~ ((bspRange N chunk (Z.of_nat i)).1 <= j
                < (bspRange N chunk (Z.of_nat i)).2) -> 0 <= j ->
     compressedBlocks s' !! Z.to_nat j = compressedBlocks s !! Z.to_nat j /\
     blockCompSizes s' !! Z.to_nat j = blockCompSizes s !! Z.to_nat j) ->
  workerInv encs N chunk s' (Z.of_nat i) pc' ->
  isWaiting pc = false -> isWaiting pc' = false ->
  beforeBarrier pc' = beforeBarrier pc ->
  (work pc' < work pc)%nat ->
  Inv encs N T chunk s' /\ (workLeft s' < workLeft s)%nat.
Proof using HN Hchunk.
  intros (Hcr & HlB & HlS & HlW & Hws & Hbar) Hi Hcr' HlB' HlS' Hw' Hc' Hsame
    Hpc' Hwait Hwait' Hbb Hwork.
  assert (Hlt : (i < length (workers s))%nat) by (eapply lookup_lt_Some; exact Hi).
  split.
  - split; [exact Hcr' |]. split; [exact HlB' |]. split; [exact HlS' |].
    split; [rewrite Hw'; unfold len in *; now rewrite length_insert |].
    split.
    + intros id pc0 Hid. rewrite Hw' in Hid.
      destruct (Nat.eq_dec id i) as [->|Hne].
      * rewrite list_lookup_insert_eq in Hid by exact Hlt.
        injection Hid as <-. exact Hpc'.
      * rewrite list_lookup_insert_ne in Hid by auto.
        apply (workerInv_frame s); [| now apply Hws].
        intros j Hj.
        pose proof (bspRange_bounds (Z.of_nat id) ltac:(lia)).
        apply Hsame; [| lia].
        apply (bspRange_disjoint (Z.of_nat id)); [lia | lia | lia | exact Hj].
    + rewrite Hw', Hc'. destruct Hbar as [(Hall & Hcnt & Hct) | (Hall & Hcnt)].
      * left. split; [| split; [| exact Hct]].
        -- apply Forall_insert; [exact Hall |]. rewrite Hbb.
           exact (proj1 (Forall_lookup _ _) Hall i pc Hi).
        -- rewrite (waiting_insert _ _ pc pc' Hi), Hwait, Hwait'. lia.
      * right. split; [| exact Hcnt].
        apply Forall_insert; [exact Hall |]. rewrite Hbb.
        exact (proj1 (Forall_lookup _ _) Hall i pc Hi).
  - unfold workLeft. rewrite Hw'.
    pose proof (sum_work_insert (workers s) i pc pc' Hi). lia.
Qed.

Lemma store_Done {A : Type} (l : list A) (i : Z) (v : A) :
  0 <= i < len l -> store l i v = Done (<[Z.to_nat i := v]> l).
Proof using Type.
  intros H. unfold store.
  destruct (Z.ltb_spec i 0); [lia |].
  destruct (Z.leb_spec (len l) i); [lia | reflexivity].
Qed.

Lemma lookup_other {A : Type} (l : list A) (i j : Z) (v : A) :
  0 <= i -> 0 <= j -> i <> j ->
  <[Z.to_nat i := v]> l !! Z.to_nat j = l !! Z.to_nat j.
Proof using Type. intros. apply list_lookup_insert_ne. lia. Qed.

Lemma bsp_step_enabled (s : state) (i : nat) (pc : workerPc) :
  Inv encs N T chunk s -> workers s !! i = Some pc -> enabled pc = true ->
  Inv encs N T chunk (step blocks T s i) /\
  (workLeft (step blocks T s i) < workLeft s)%nat.
Proof using HN HT Hchunk Hblocks Hlen Hsmall.
  intros HI Hi Hen.
  pose proof HI as (Hcr & HlB & HlS & HlW & Hws & Hbar).
  unfold step. rewrite Hcr, Hi.
  pose proof (Hws i pc Hi) as Hpc.
  destruct (bspRange_bounds (Z.of_nat i) ltac:(lia)) as (Hr0 & Hr1).
  set (r := bspRange N chunk (Z.of_nat i)) in *.
  destruct pc as [idx e|idx e enc| | | |]; try discriminate Hen;
    cbn [workerStep].
  - (* the loop test *)
    destruct Hpc as (-> & Hidx & Hfill). fold r in Hidx, Hfill, Hi |- *.
    destruct (Z.ltb_spec idx r.2) as [Hlt|Hge].
    + destruct (index_in_range blocks idx ltac:(lia)) as [b Hb].
      rewrite Hb. cbn [bind]. apply index_Done_iff in Hb as [_ Hb].
      destruct (Forall2_lookup_l _ _ _ _ _ Hblocks Hb) as (enc & Henc & Hdone).
      rewrite Hdone. cbn [bind].
      rewrite store_Done by lia. cbn [bind].
      apply (bsp_Inv_move s _ i (WLoop idx r.2) (WSize idx r.2 enc) HI Hi);
        cbn [crashed compressedBlocks blockCompSizes workers count];
        try reflexivity; try assumption.
      * unfold len in *. now rewrite length_insert.
      * intros j Hj Hj0. fold r in Hj. split; [| reflexivity].
        apply lookup_other; lia.
      * unfold workerInv. fold r. cbv zeta.
        split; [reflexivity |]. split; [lia |]. split; [| split; [exact Henc |]].
        -- eapply filled_frame; [| exact Hfill].
           intros j Hj. cbn [compressedBlocks blockCompSizes].
           split; [| reflexivity]. apply lookup_other; lia.
        -- cbn [compressedBlocks]. apply list_lookup_insert_eq.
           unfold len in *. lia.
      * cbn [work]. lia.
    + apply (bsp_Inv_move s _ i (WLoop idx r.2) WArrive HI Hi);
        cbn [crashed compressedBlocks blockCompSizes workers count];
        try reflexivity; try assumption.
      * intros j _ _. split; reflexivity.
      * unfold workerInv. fold r. cbv zeta.
        replace r.2 with idx by lia.
        eapply filled_frame; [| exact Hfill]. intros j _. split; reflexivity.
      * cbn [work]. lia.
  - (* the size of the block *)
    destruct Hpc as (-> & Hidx & Hfill & Henc & Hstored).
    fold r in Hidx, Hfill, Hi |- *.
    rewrite store_Done by lia. cbn [bind].
    assert (Hu : uint64 (len enc) = len enc).
    { apply uint64_small. pose proof (len_nonneg enc).
      pose proof (proj1 (Forall_lookup _ _) Hsmall _ _ Henc). simpl in *. lia. }
    rewrite Hu.
    apply (bsp_Inv_move s _ i (WSize idx r.2 enc) (WLoop (idx + 1) r.2) HI Hi);
      cbn [crashed compressedBlocks blockCompSizes workers count];
      try reflexivity; try assumption.
    + unfold len in *. now rewrite length_insert.
    + intros j Hj Hj0. fold r in Hj. split; [reflexivity |].
      apply lookup_other; lia.
    + unfold workerInv. fold r. cbv zeta.
      split; [reflexivity |]. split; [lia |].
      intros j Hj. cbn [compressedBlocks blockCompSizes].
      destruct (Z.eq_dec j idx) as [->|Hne].
      * exists enc. split; [exact Henc |]. split; [exact Hstored |].
        apply list_lookup_insert_eq. unfold len in *. lia.
      * destruct (Hfill j ltac:(lia)) as (e' & He' & Hc' & Hs').
        exists e'. split; [exact He' |]. split; [exact Hc' |].
        rewrite lookup_other by lia. exact Hs'.
    + cbn [work]. lia.
  - (* the barrier *)
    unfold workerInv in Hpc. fold r in Hpc. cbv zeta in Hpc.
    assert (Hlt : (i < length (workers s))%nat) by (eapply lookup_lt_Some; exact Hi).
    destruct Hbar as [(Hall & Hcnt & Hct) | (Hall & Hcnt)];
      [| pose proof (proj1 (Forall_lookup _ _) Hall i _ Hi) as Hb; discriminate Hb].
    pose proof (waiting_lt (workers s) i WArrive Hi eq_refl) as Hwlt.
    destruct (Z.eqb_spec (count s + 1) T) as [Hlast|Hnot].
    + split.
      * split; [reflexivity |]. split; [exact HlB |]. split; [exact HlS |].
        cbn [compressedBlocks blockCompSizes workers count].
        split; [unfold len in *; now rewrite length_insert, length_map |].
        split.
        -- intros id pc0 Hid.
           destruct (Nat.eq_dec id i) as [->|Hne].
           ++ rewrite list_lookup_insert_eq in Hid by (now rewrite length_map).
              injection Hid as <-. exact Hpc.
           ++ rewrite list_lookup_insert_ne in Hid by auto.
              rewrite wake_lookup in Hid.
              destruct (workers s !! id) as [pc1|] eqn:Hpc1; [| discriminate].
              injection Hid as <-.
              specialize (Hws id pc1 Hpc1).
              destruct pc1; exact Hws.
        -- right. split; [| reflexivity].
           apply (all_waiting_woken (workers s) i WArrive Hi eq_refl). lia.
      * unfold workLeft. cbn [workers].
        pose proof (sum_work_insert (map wake (workers s)) i WArrive WLeave) as Hsum.
        rewrite wake_lookup, Hi in Hsum. specialize (Hsum eq_refl).
        rewrite work_wake in Hsum. cbn [work] in Hsum. lia.
    + split.
      * split; [reflexivity |]. split; [exact HlB |]. split; [exact HlS |].
        cbn [compressedBlocks blockCompSizes workers count].
        split; [unfold len in *; now rewrite length_insert |].
        split.
        -- intros id pc0 Hid.
           destruct (Nat.eq_dec id i) as [->|Hne].
           ++ rewrite list_lookup_insert_eq in Hid by exact Hlt.
              injection Hid as <-. exact Hpc.
           ++ rewrite list_lookup_insert_ne in Hid by auto.
              specialize (Hws id pc0 Hid). destruct pc0; exact Hws.
        -- left. split; [| split].
           ++ apply Forall_insert; [exact Hall | reflexivity].
           ++ rewrite (waiting_insert _ _ WArrive WWaiting Hi). cbn [isWaiting]. lia.
           ++ lia.
      * unfold workLeft. cbn [workers].
        pose proof (sum_work_insert (workers s) i WArrive WWaiting Hi) as Hsum.
        cbn [work] in Hsum. lia.
  - (* the return *)
    unfold workerInv in Hpc. fold r in Hpc. cbv zeta in Hpc.
    apply (bsp_Inv_move s _ i WLeave WDone HI Hi);
      cbn [crashed compressedBlocks blockCompSizes workers count];
      try reflexivity; try assumption.
    + intros j _ _. split; reflexivity.
    + cbn [work]. lia.
Qed.

Lemma bsp_step_inv (s : state) (i : nat) :
  Inv encs N T chunk s ->
  Inv encs N T chunk (step blocks T s i) /\
  (workLeft (step blocks T s i) <= workLeft s)%nat.
Proof using HN HT Hchunk Hblocks Hlen Hsmall.
  intros HI. destruct (workers s !! i) as [pc|] eqn:Hi.
  - destruct (enabled pc) eqn:Hen.
    + destruct (bsp_step_enabled s i pc HI Hi Hen). split; [assumption | lia].
    + unfold step. rewrite Hi. destruct (crashed s); [auto |].
      destruct pc; try discriminate Hen; cbn [workerStep]; auto.
  - unfold step. rewrite Hi. destruct (crashed s); auto.
Qed.

Lemma bsp_run_inv (sched : list nat) :
  forall s, Inv encs N T chunk s -> Inv encs N T chunk (run blocks T s sched).
Proof using HN HT Hchunk Hblocks Hlen Hsmall.
  induction sched as [|i sched IH]; intros s HI; [exact HI |].
  cbn [run fold_left]. apply IH. now apply bsp_step_inv.
Qed.

Lemma not_done_enabled (s : state) :
  Inv encs N T chunk s -> forallb isDone (workers s) = false ->
  exists i pc, workers s !! i = Some pc /\ enabled pc = true.
Proof using Type.
  intros (_ & _ & _ & HlW & _ & Hbar) Hnd.
  destruct Hbar as [(Hall & Hcnt & Hct) | (Hall & _)].
  - destruct (not_all_waiting (workers s) ltac:(lia)) as (i & pc & Hi & Hw).
    exists i, pc. split; [exact Hi |].
    pose proof (proj1 (Forall_lookup _ _) Hall i pc Hi) as Hb. simpl in Hb.
    destruct pc; try discriminate; reflexivity.
  - clear HlW. induction (workers s) as [|pc ws IH]; [discriminate |].
    apply Forall_cons in Hall as [Hpc Hall]. cbn [forallb] in Hnd.
    destruct pc; try discriminate Hpc.
    + exists 0%nat, WLeave. auto.
    + cbn [isDone andb] in Hnd. destruct (IH Hall Hnd) as (i & pc & Hi & He).
      exists (S i), pc. auto.
Qed.

(** From every state of a run the workers can be brought to their end. *)
Lemma bsp_run_completes (k : nat) :
  forall s, Inv encs N T chunk s -> (workLeft s <= k)%nat ->
  exists more, forallb isDone (workers (run blocks T s more)) = true.
Proof using HN HT Hchunk Hblocks Hlen Hsmall.
  induction k as [|k IH]; intros s HI Hk.
  - destruct (forallb isDone (workers s)) eqn:Hd; [exists []; exact Hd |].
    destruct (not_done_enabled s HI Hd) as (i & pc & Hi & Hen).
    destruct (bsp_step_enabled s i pc HI Hi Hen) as [_ Hlt]. lia.
  - destruct (forallb isDone (workers s)) eqn:Hd; [exists []; exact Hd |].
    destruct (not_done_enabled s HI Hd) as (i & pc & Hi & Hen).
    destruct (bsp_step_enabled s i pc HI Hi Hen) as [HI' Hlt].
    destruct (IH _ HI' ltac:(lia)) as [more Hmore].
    exists (i :: more). exact Hmore.
Qed.

(** Once the workers are out of the barrier the blocks are all there. *)
Lemma after_barrier_filled (s : state) :
  Inv encs N T chunk s ->
  Forall (fun pc => beforeBarrier pc = false) (workers s) ->
  compressedBlocks s = encs /\ blockCompSizes s = map len encs.
Proof using HN HT Hchunk Hcover Hblocks Hlen.
  intros (_ & HlB & HlS & HlW & Hws & _) Hall.
  pose proof (Forall2_length _ _ _ Hblocks) as Hle.
  assert (Hfill : forall j, 0 <= j < N ->
            exists e, encs !! Z.to_nat j = Some e /\
              compressedBlocks s !! Z.to_nat j = Some e /\
              blockCompSizes s !! Z.to_nat j = Some (len e)).
  { intros j Hj.
    pose proof (Z.div_mod j chunk ltac:(lia)) as Hdm.
    pose proof (Z.mod_pos_bound j chunk ltac:(lia)) as Hm.
    assert (Hq : 0 <= j / chunk) by (apply Z.div_pos; lia).
    assert (Hw : 0 <= j / chunk < T) by nia.
    destruct (lookup_lt_is_Some_2 (workers s) (Z.to_nat (j / chunk)))
      as [pc Hpc]; [unfold len in *; lia |].
    pose proof (Hws _ _ Hpc) as Hinv. rewrite Z2Nat.id in Hinv by lia.
    pose proof (proj1 (Forall_lookup _ _) Hall _ _ Hpc) as Hb. simpl in Hb.
    assert (Hown : (bspRange N chunk (j / chunk)).1 <= j
                   < (bspRange N chunk (j / chunk)).2).
    { apply bspRange_owns; [exact Hchunk | lia | nia]. }
    destruct pc; try discriminate Hb; exact (Hinv j Hown). }
  split.
  - apply list_eq. intros k.
    destruct (Z.lt_ge_cases (Z.of_nat k) N) as [Hk|Hk].
    + destruct (Hfill (Z.of_nat k) ltac:(lia)) as (e & He & Hc & _).
      rewrite Nat2Z.id in *. now rewrite He, Hc.
    + rewrite !lookup_ge_None_2; [reflexivity | |]; unfold len in *; lia.
  - apply list_eq. intros k. rewrite list_lookup_fmap.
    destruct (Z.lt_ge_cases (Z.of_nat k) N) as [Hk|Hk].
    + destruct (Hfill (Z.of_nat k) ltac:(lia)) as (e & He & _ & Hs).
      rewrite Nat2Z.id in *. now rewrite He, Hs.
    + rewrite !lookup_ge_None_2; [reflexivity | |]; unfold len in *; lia.
Qed.

Lemma all_done_after (ws : list workerPc) :
  forallb isDone ws = true -> Forall (fun pc => beforeBarrier pc = false) ws.
Proof using Type.
  induction ws as [|pc ws IH]; [constructor |].
  cbn [forallb]. intros [Hpc Hws]%andb_prop.
  constructor; [now destruct pc | auto].
Qed.

Lemma bsp_start_Inv :
  chunk = bspChunkSize N T -> len encs = N ->
  Inv encs N T chunk (start N T).
Proof using HN HT Hchunk.
  intros Hc He. unfold start. rewrite <- Hc.
  split; [reflexivity |]. cbn [compressedBlocks blockCompSizes workers count].
  split; [unfold len; rewrite length_replicate; lia |].
  split; [unfold len; rewrite length_replicate; lia |].
  split; [unfold len, spawn; rewrite length_map, length_seqZ; lia |].
  split.
  - intros id pc Hid. unfold spawn in Hid.
    rewrite list_lookup_fmap in Hid.
    destruct (seqZ 0 T !! id) as [w|] eqn:Hw; [| discriminate].
    apply lookup_seqZ in Hw as [-> Hlt]. cbn [fmap option_fmap option_map] in Hid.
    rewrite Z.add_0_l in Hid.
    destruct (bspRange_bounds (Z.of_nat id) ltac:(lia)) as [Hr0 Hr1].
    destruct (bspRange N chunk (Z.of_nat id)) as [st en] eqn:Hr.
    injection Hid as <-. unfold workerInv. rewrite Hr. cbn [fst snd] in *.
    split; [reflexivity |]. split; [lia |]. intros j Hj. lia.
  - left. split; [| split; [| lia]].
    + unfold spawn. apply Forall_fmap, Forall_forall. intros w _.
      simpl. now destruct (bspRange N chunk w).
    + unfold spawn. induction (seqZ 0 T) as [|w ws IH]; [reflexivity |].
      cbn [map waiting]. rewrite <- IH. now destruct (bspRange N chunk w).
Qed.

End BspRun.

(** ** The BSP compressor and the sequential one *)

Lemma cutBlocks_encoded (m : nat) (bs : Z) :
  forall r,
  Forall2 (fun b e => encodeBlock b = Done e)
          (cutBlocks m bs r) (encodedBlocks m bs r).
Proof.
  induction m as [|m IH]; intros r; cbn [cutBlocks encodedBlocks]; [constructor |].
  destruct (encodeBlock_decodable (take (Z.to_nat bs) r)) as (e & He & _).
  rewrite He. constructor; [exact He | apply IH].
Qed.

Lemma cutBlocks_length (m : nat) (bs : Z) :
  forall r, length (cutBlocks m bs r) = m.
Proof.
  induction m as [|m IH]; intros r; cbn [cutBlocks length]; [reflexivity |].
  now rewrite IH.
Qed.

Section BspBlocks.
Variables (data : list byte) (bs n : Z).
Hypothesis Hbs : 0 < bs < 2 ^ 32.
Hypothesis HL : 0 < len data < 2 ^ 62.
Hypothesis Hn : bs * (n - 1) < len data <= bs * n.

Lemma bspBlocks_spec (m : nat) :
  forall doneB todoB,
  Z.of_nat m <= n -> length todoB = m -> len doneB = n - Z.of_nat m ->
  bspBlocks m data bs (len data) (n - Z.of_nat m) (doneB ++ todoB)
  = Done (doneB ++
          cutBlocks m bs (drop (Z.to_nat ((n - Z.of_nat m) * bs)) data)).
Proof using Hbs HL Hn.
  induction m as [|m IH]; intros doneB todoB Hm Htodo Hdone.
  - destruct todoB; [| discriminate]. reflexivity.
  - destruct todoB as [|x todoB]; [discriminate |].
    cbn [bspBlocks cutBlocks].
    set (i := n - Z.of_nat (S m)) in *.
    assert (Hi : 0 <= i <= n - 1) by lia.
    assert (His : 0 <= i * bs < len data) by nia.
    rewrite (int64_small (i * bs)) by lia.
    rewrite (int64_small (i * bs + bs)) by lia.
    set (e := if len data <? i * bs + bs then len data else i * bs + bs).
    assert (He : i * bs < e <= len data /\ e <= i * bs + bs /\
                 (e < i * bs + bs -> e = len data)).
    { unfold e. destruct (Z.ltb_spec (len data) (i * bs + bs)); lia. }
    unfold slice.
    destruct (Z.ltb_spec (i * bs) 0); [lia |].
    destruct (Z.ltb_spec e (i * bs)); [lia |].
    destruct (Z.ltb_spec (len data) e); [lia |].
    cbn [orb bind].
    assert (Hblock : take (Z.to_nat (e - i * bs)) (drop (Z.to_nat (i * bs)) data)
                     = take (Z.to_nat bs) (drop (Z.to_nat (i * bs)) data)).
    { destruct (Z.eq_dec e (i * bs + bs)) as [->|Hne].
      - f_equal. lia.
      - rewrite !take_ge; [reflexivity | |];
          rewrite length_drop; unfold len in *; lia. }
    rewrite Hblock.
    rewrite (store_app_here doneB todoB x _ i) by exact Hdone. cbn [bind].
    replace (i + 1) with (n - Z.of_nat m) by lia.
    change (doneB ++ ?b :: todoB) with (doneB ++ [b] ++ todoB).
    rewrite app_assoc. rewrite IH.
    + rewrite <- app_assoc. cbn [app]. do 3 f_equal.
      rewrite drop_drop. f_equal.
      rewrite <- Z2Nat.inj_add by lia. f_equal. subst i. lia.
    + lia.
    + cbn [length] in Htodo. lia.
    + rewrite len_app. unfold len at 2. cbn [length]. lia.
Qed.

(** What [SequentialCompressFile] returns on data that is not empty, for
    every file name. *)
Lemma SequentialCompressFile_blocks (name : list byte) :
  n = numBlocksOf (len data) bs ->
  let encs := encodedBlocks (Z.to_nat n) bs data in
  let h := mkFileHeader name (len data) bs n (map len encs) in
  SequentialCompressFile name bs data
  = match (WriteHeader [] h).2 with
    | Some e => Done (Some (WriteHeader [] h).1, Some (ErrWriteHeader e))
    | None => Done (Some ((WriteHeader [] h).1 ++ concat encs), None)
    end.
Proof using Hbs HL Hn.
  intros Hnum encs h. unfold SequentialCompressFile.
  destruct (Z.eqb_spec (len data) 0); [lia |].
  destruct (Z.eqb_spec bs 0); [lia |]. rewrite <- Hnum.
  assert (Hn1 : 1 <= n <= len data) by nia.
  destruct (Z.ltb_spec n 0); [lia |].
  assert (Hleft : blocksLeft bs n (len data) (Z.to_nat n) data).
  { unfold blocksLeft. rewrite Z2Nat.id by lia.
    split; [lia |]. split; [lia |]. intros _. split; lia. }
  pose proof (seqEncodeBlocks_spec bs n (len data) Hbs HL Hn
    (Z.to_nat n) data [] []
    (replicate (Z.to_nat n) []) (replicate (Z.to_nat n) 0) Hleft
    ltac:(apply length_replicate) ltac:(apply length_replicate)
    ltac:(unfold len; simpl; lia) ltac:(unfold len; simpl; lia)) as Henc.
  rewrite Z2Nat.id in Henc by lia. rewrite Z.sub_diag in Henc.
  cbn [app] in Henc. rewrite Henc. cbn [bind]. fold encs.
  unfold uint64, uint32. rewrite !Z.mod_small by lia. fold h.
  destruct (WriteHeader [] h) as [out err]. cbn [fst snd].
  destruct err; reflexivity.
Qed.

(** The run of [BSPCompressFile] under a scheduler: the state the workers
    are left in, and what the call returns. *)
Lemma BSPCompressFile_run (name : list byte) (threads : Z) (sched : list nat) :
  n = numBlocksOf (len data) bs ->
  let T := bspThreads threads n in
  let encs := encodedBlocks (Z.to_nat n) bs data in
  let s := BSP.run (cutBlocks (Z.to_nat n) bs data) T (BSP.start n T) sched in
  BSP.Inv encs n T (bspChunkSize n T) s /\
  (forall more, exists more',
     forallb BSP.isDone
       (BSP.workers (BSP.run (cutBlocks (Z.to_nat n) bs data) T s (more ++ more')))
     = true) /\
  (Forall (fun pc => BSP.beforeBarrier pc = false) (BSP.workers s) ->
   BSP.compressedBlocks s = encs /\ BSP.blockCompSizes s = map len encs) /\
  BSPCompressFile name bs data threads sched
  = if forallb BSP.isDone (BSP.workers s)
    then SequentialCompressFile name bs data
    else OutOfFuel.
Proof using Hbs HL Hn.
  intros Hnum T encs s.
  assert (Hn1 : 1 <= n <= len data) by nia.
  assert (HT : 1 <= T) by (unfold T; rewrite bspThreads_eq; lia).
  destruct (bspChunkSize_ceil n T ltac:(lia) HT) as (_ & Hc1 & Hcov).
  pose proof (cutBlocks_encoded (Z.to_nat n) bs data) as Hblocks.
  fold encs in Hblocks.
  assert (Hlb : len (cutBlocks (Z.to_nat n) bs data) = n)
    by (unfold len; rewrite cutBlocks_length; lia).
  assert (Hle : len encs = n)
    by (unfold len, encs; rewrite encodedBlocks_length; lia).
  assert (Hleft : blocksLeft bs n (len data) (Z.to_nat n) data).
  { unfold blocksLeft. rewrite Z2Nat.id by lia.
    split; [lia |]. split; [lia |]. intros _. split; lia. }
  assert (Hsmall : Forall (fun e => len e < 2 ^ 64) encs).
  { pose proof (encodedBlocks_sizes bs n (len data) Hbs HL Hn _ _ Hleft) as Hsz.
    fold encs in Hsz. apply Forall_fmap in Hsz.
    eapply Forall_impl; [exact Hsz |]. simpl. intros e He. lia. }
  assert (HI0 : BSP.Inv encs n T (bspChunkSize n T) (BSP.start n T)).
  { apply (bsp_start_Inv encs n T (bspChunkSize n T)); auto; lia. }
  assert (HIall : forall sc, BSP.Inv encs n T (bspChunkSize n T)
            (BSP.run (cutBlocks (Z.to_nat n) bs data) T (BSP.start n T) sc)).
  { intros sc. apply (bsp_run_inv _ encs n T (bspChunkSize n T)); auto; lia. }
  assert (HI : BSP.Inv encs n T (bspChunkSize n T) s) by apply HIall.
  assert (Hfilled :
    Forall (fun pc => BSP.beforeBarrier pc = false) (BSP.workers s) ->
    BSP.compressedBlocks s = encs /\ BSP.blockCompSizes s = map len encs).
  { apply (after_barrier_filled (cutBlocks (Z.to_nat n) bs data) encs n T
             (bspChunkSize n T)); auto; lia. }
  split; [exact HI |]. split; [| split; [exact Hfilled |]].
  - intros more.
    assert (HI' : BSP.Inv encs n T (bspChunkSize n T)
              (BSP.run (cutBlocks (Z.to_nat n) bs data) T s more)).
    { unfold s, BSP.run. rewrite <- fold_left_app. apply HIall. }
    destruct (bsp_run_completes (cutBlocks (Z.to_nat n) bs data) encs n T
                (bspChunkSize n T) ltac:(lia) HT Hc1 Hblocks Hlb Hsmall
                _ _ HI' (Nat.le_refl _)) as [more' Hmore'].
    exists more'. unfold BSP.run in *. now rewrite fold_left_app.
  - unfold BSPCompressFile.
    destruct (Z.eqb_spec (len data) 0); [lia |].
    destruct (Z.eqb_spec bs 0); [lia |]. rewrite <- Hnum.
    destruct (Z.ltb_spec n 0); [lia |].
    pose proof (bspBlocks_spec (Z.to_nat n) [] (replicate (Z.to_nat n) [])
      ltac:(lia) ltac:(apply length_replicate)
      ltac:(unfold len; simpl; lia)) as Hb.
    rewrite Z2Nat.id in Hb by lia. rewrite Z.sub_diag in Hb.
    cbn [app] in Hb. change (Z.to_nat (0 * bs)) with 0%nat in Hb.
    rewrite drop_0 in Hb. rewrite Hb. cbn [bind]. fold T.
    destruct (Z.leb_spec T 0); [lia |]. fold s.
    destruct HI as (Hcr & _). rewrite Hcr.
    destruct (forallb BSP.isDone (BSP.workers s)) eqn:Hd; [| reflexivity].
    cbn [negb].
    destruct (Hfilled (all_done_after _ Hd)) as [-> ->].
    rewrite (SequentialCompressFile_blocks name Hnum). fold encs.
    unfold uint64. rewrite !Z.mod_small by lia.
    destruct (WriteHeader [] _) as [out err]. cbn [fst snd].
    destruct err; reflexivity.
Qed.

End BspBlocks.

(** The BSP compressor writes the file the sequential compressor writes,
    whatever the thread count and however the workers are scheduled.  Under
    a scheduler that ends before all workers have returned the call has no
    result yet; every scheduler can be continued so that the call returns,
    and what it returns is what [SequentialCompressFile] returns on the same
    input.  No run panics, and none ends in a state where the workers wait
    for one another. *)
Theorem BSPCompressFile_sequential (name data : list byte) (bs threads : Z)
  (sched : list nat) :
  0 < bs < 2 ^ 32 -> len data < 2 ^ 62 ->
  (BSPCompressFile name bs data threads sched = OutOfFuel \/
   BSPCompressFile name bs data threads sched
   = SequentialCompressFile name bs data) /\
  exists more,
    BSPCompressFile name bs data threads (sched ++ more)
    = SequentialCompressFile name bs data.
Proof.
  intros Hbs Hdata. pose proof (len_nonneg data) as HL0.
  destruct (Z.eq_dec (len data) 0) as [Hz|Hnz].
  { assert (He : forall sc, BSPCompressFile name bs data threads sc
                            = SequentialCompressFile name bs data).
    { intros sc. unfold BSPCompressFile, SequentialCompressFile.
      rewrite Hz. reflexivity. }
    split; [right; apply He | exists []; apply He]. }
  destruct (numBlocksOf_ceil (len data) bs Hbs ltac:(lia)) as (_ & Hceil & _).
  set (n := numBlocksOf (len data) bs) in *.
  assert (HL : 0 < len data < 2 ^ 62) by lia.
  split.
  - destruct (BSPCompressFile_run data bs n Hbs HL Hceil name threads sched
                eq_refl) as (_ & _ & _ & ->).
    destruct (forallb _ _); auto.
  - destruct (BSPCompressFile_run data bs n Hbs HL Hceil name threads sched
                eq_refl) as (_ & Hmore & _ & _).
    destruct (Hmore []) as [more Hdone]. cbn [app] in Hdone.
    exists more.
    destruct (BSPCompressFile_run data bs n Hbs HL Hceil name threads
                (sched ++ more) eq_refl) as (_ & _ & _ & ->).
    unfold BSP.run in *. rewrite fold_left_app. now rewrite Hdone.
Qed.

Lemma BSPCompressFile_sequential_witness :
  BSPCompressFile ["f"%byte] 4 (replicate 10 "a"%byte) 2
    [0; 1; 0; 1; 0; 1; 0; 1; 0; 1; 0; 1; 0; 1]%nat
  = SequentialCompressFile ["f"%byte] 4 (replicate 10 "a"%byte) /\
  BSPCompressFile ["f"%byte] 4 (replicate 10 "a"%byte) 2 [0; 0; 0; 1]%nat
  = OutOfFuel /\
  exists more,
    BSPCompressFile ["f"%byte] 4 (replicate 10 "a"%byte) 2
      ([0; 0; 0; 1]%nat ++ more)
    = SequentialCompressFile ["f"%byte] 4 (replicate 10 "a"%byte).
Proof.
  split; [vm_compute; reflexivity |]. split; [vm_compute; reflexivity |].
  apply (BSPCompressFile_sequential ["f"%byte] (replicate 10 "a"%byte) 4 2
           [0; 0; 0; 1]%nat).
  - lia.
  - unfold len. simpl. lia.
Defined.

(** The barrier of the BSP compressor holds every worker until all blocks
    are encoded.  In every run, under every scheduler: nothing panics;
    fewer workers than there are wait at the barrier; and once one worker is
    out of [barrier.Wait()], all of them are, and every block has been
    encoded and stored with its size. *)
Theorem bsp_barrier_holds_workers (data : list byte) (bs threads : Z)
  (blocks : list (list byte)) (sched : list nat) :
  0 < bs < 2 ^ 32 -> 0 < len data < 2 ^ 62 ->
  let n := numBlocksOf (len data) bs in
  let T := bspThreads threads n in
  bspBlocks (Z.to_nat n) data bs (len data) 0 (replicate (Z.to_nat n) [])
  = Done blocks ->
  let s := BSP.run blocks T (BSP.start n T) sched in
  BSP.crashed s = false /\ 0 <= BSP.count s < T /\
  (Exists (fun pc => BSP.beforeBarrier pc = false) (BSP.workers s) ->
   Forall (fun pc => BSP.beforeBarrier pc = false) (BSP.workers s) /\
   Forall2 (fun b e => encodeBlock b = Done e) blocks (BSP.compressedBlocks s) /\
   BSP.blockCompSizes s = map len (BSP.compressedBlocks s)).
Proof.
  intros Hbs HL n T Hb s.
  destruct (numBlocksOf_ceil (len data) bs Hbs ltac:(lia)) as (_ & Hceil & Hn0).
  fold n in Hceil, Hn0.
  pose proof (bspBlocks_spec data bs n Hbs HL Hceil (Z.to_nat n) []
    (replicate (Z.to_nat n) []) ltac:(lia) ltac:(apply length_replicate)
    ltac:(unfold len; simpl; lia)) as Hspec.
  rewrite Z2Nat.id in Hspec by lia. rewrite Z.sub_diag in Hspec.
  cbn [app] in Hspec. change (Z.to_nat (0 * bs)) with 0%nat in Hspec.
  rewrite drop_0 in Hspec. rewrite Hspec in Hb. injection Hb as <-.
  destruct (BSPCompressFile_run data bs n Hbs HL Hceil [] threads sched eq_refl)
    as (HI & _ & Hfilled & _).
  fold T s in HI, Hfilled.
  destruct HI as (Hcr & _ & _ & _ & _ & Hbar).
  split; [exact Hcr |].
  destruct Hbar as [(Hall & Hcnt & Hct) | (Hall & Hcnt)].
  - split; [pose proof (waiting_nonneg (BSP.workers s)); lia |].
    intros Hex. apply Exists_exists in Hex as (pc & Hin & Hpc).
    pose proof (proj1 (Forall_forall _ _) Hall pc Hin) as Hb.
    simpl in Hb. congruence.
  - assert (1 <= T) by (unfold T; rewrite bspThreads_eq; nia).
    split; [lia |]. intros _. split; [exact Hall |].
    destruct (Hfilled Hall) as [-> ->].
    split; [apply cutBlocks_encoded | reflexivity].
Qed.

Lemma bsp_barrier_holds_workers_witness :
  let s := BSP.run [replicate 4 "a"%byte; replicate 4 "a"%byte;
                    replicate 2 "a"%byte] 2 (BSP.start 3 2)
             [1; 1; 1; 1; 0; 0]%nat in
  BSP.workers s = [BSP.WLoop 1 2; BSP.WWaiting] /\
  BSP.crashed s = false /\ 0 <= BSP.count s < 2.
Proof.
  intros s. split; [vm_compute; reflexivity |].
  assert (H := bsp_barrier_holds_workers (replicate 10 "a"%byte) 4 2
            [replicate 4 "a"%byte; replicate 4 "a"%byte; replicate 2 "a"%byte]
            [1; 1; 1; 1; 0; 0]%nat ltac:(lia)
            ltac:(unfold len; simpl; lia) ltac:(vm_compute; reflexivity)).
  exact (conj (proj1 H) (proj1 (proj2 H))).
Defined.

(** ** The sequential decompressor on arbitrary containers *)

Lemma ReadHeader_valid (r rest : list byte) (h : FileHeader) :
  ReadHeader r = Done (h, rest) -> validHeader h.
Proof.
  unfold ReadHeader, bind.
  destruct (readFull r 4) as [[m r1]| | |] eqn:H1; try discriminate. cbn [fst snd].
  destruct (negb (bool_decide (m = magic))); [discriminate |].
  destruct (readLE r1 2) as [[nameLen r2]| | |] eqn:H2; try discriminate. cbn [fst snd].
  destruct (readLE r2 8) as [[osize r3]| | |] eqn:H3; try discriminate. cbn [fst snd].
  apply readLE_Done in H2 as (a2 & -> & Hl2 & ->).
  pose proof (leValue_range a2) as Hr2. unfold len in Hr2. rewrite Hl2 in Hr2.
  destruct (readFull r3 (leValue a2)) as [[name r4]| | |] eqn:H4; try discriminate.
  cbn [fst snd].
  destruct (readLE r4 4) as [[bsize r5]| | |] eqn:H5; try discriminate. cbn [fst snd].
  destruct (readLE r5 8) as [[nblocks r6]| | |] eqn:H6; try discriminate. cbn [fst snd].
  destruct (readSizes (Z.to_nat nblocks) r6) as [[sizes r7]| | |] eqn:H7;
    try discriminate. cbn [fst snd].
  intros [= <- <-].
  apply readLE_Done in H3 as (a3 & -> & Hl3 & ->).
  apply readFull_Done in H4 as [-> Hl4]; [| lia].
  apply readLE_Done in H5 as (a5 & -> & Hl5 & ->).
  apply readLE_Done in H6 as (a6 & -> & Hl6 & ->).
  apply readSizes_Done in H7 as (-> & Hl7 & Hall).
  pose proof (leValue_range a3) as Hr3. unfold len in Hr3. rewrite Hl3 in Hr3.
  pose proof (leValue_range a5) as Hr5. unfold len in Hr5. rewrite Hl5 in Hr5.
  pose proof (leValue_range a6) as Hr6. unfold len in Hr6. rewrite Hl6 in Hr6.
  change (2 ^ (8 * Z.of_nat 2)) with 65536 in Hr2.
  unfold validHeader. cbn [Filename OriginalSize BlockSize NumBlocks BlockCompSizes].
  repeat split; try lia; try assumption. unfold len. lia.
Qed.

Lemma lzDecompressTokens_Done_len (tokens out : list byte) (expectedSize : Z) :
  lzDecompressTokens tokens expectedSize = Done out -> len out = expectedSize.
Proof.
  unfold lzDecompressTokens.
  destruct (_ && _) eqn:Hc.
  - intros [= <-]. apply andb_prop in Hc as [_ He]. apply Z.eqb_eq in He.
    unfold len. simpl. lia.
  - destruct (lzDecodeLoop tokens []) as [o| | |]; cbn [bind]; try discriminate.
    destruct (Z.eqb_spec (len o) expectedSize); cbn [negb]; [| discriminate].
    now intros [= <-].
Qed.

Lemma seqDecodeBlocks_size (h : FileHeader) (m : nat) :
  0 < NumBlocks h < 2 ^ 63 -> 0 <= BlockSize h ->
  0 <= OriginalSize h < 2 ^ 63 ->
  BlockSize h * NumBlocks h < 2 ^ 63 ->
  forall r blockIndex out res,
  0 <= blockIndex -> blockIndex + Z.of_nat m = NumBlocks h ->
  ((1 <= m)%nat -> len out = BlockSize h * blockIndex) ->
  seqDecodeBlocks m h r blockIndex out = Done res ->
  len res = if (m =? 0)%nat then len out else OriginalSize h.
Proof.
  intros Hn Hbs HL Hprod.
  assert (Hni : int64 (NumBlocks h) = NumBlocks h) by (apply int64_small; lia).
  assert (HLi : int64 (OriginalSize h) = OriginalSize h) by (apply int64_small; lia).
  induction m as [|m IH]; intros r i out res Hi Him Hout; cbn [seqDecodeBlocks].
  - now intros [= <-].
  - specialize (Hout ltac:(lia)). rewrite Hni, HLi. unfold bind.
    destruct (index (BlockCompSizes h) i) as [compSize| | |]; try discriminate.
    destruct (compSize =? 0); [discriminate |].
    destruct (2 ^ 63 <=? compSize); [discriminate |].
    destruct (readFull r compSize) as [[compBuf r']| | |]; try discriminate.
    destruct (len compBuf =? 0); [discriminate |].
    destruct (index compBuf 0) as [mode| | |]; try discriminate.
    cbv zeta.
    set (expected := if i <? NumBlocks h - 1 then BlockSize h
                     else int64 (OriginalSize h
                                 - int64 (BlockSize h
                                          * int64 (NumBlocks h - 1)))).
    assert (Hexp : expected = if (m =? 0)%nat
                              then OriginalSize h - BlockSize h * i
                              else BlockSize h).
    { unfold expected. destruct (Z.ltb_spec i (NumBlocks h - 1)) as [Hlt|Hge].
      - destruct m; [lia | reflexivity].
      - destruct m; [| lia]. cbn [Nat.eqb].
        replace i with (NumBlocks h - 1) by lia.
        assert (Hp : 0 <= BlockSize h * (NumBlocks h - 1)
                     <= BlockSize h * NumBlocks h) by nia.
        rewrite (int64_small (NumBlocks h - 1)) by lia.
        rewrite (int64_small (BlockSize h * _)) by lia.
        apply int64_small. lia. }
    assert (Hnext : forall block, len block = expected ->
              seqDecodeBlocks m h r' (i + 1) (out ++ block) = Done res ->
              len res = OriginalSize h).
    { intros block Hb Hrun.
      apply IH in Hrun; [| lia | lia |].
      - rewrite Hrun. destruct m; [| reflexivity].
        change (expected = OriginalSize h - BlockSize h * i) in Hexp.
        change (len (out ++ block) = OriginalSize h).
        rewrite len_app. lia.
      - intros Hm. rewrite len_app, Hb, Hexp, Hout.
        destruct m; [lia |]. change (BlockSize h * i + BlockSize h = BlockSize h * (i + 1)).
        lia. }
    destruct (Byte.eqb mode "255").
    + destruct (Z.eqb_spec (len (drop 1 compBuf)) expected) as [Heq|];
        cbn [negb]; [| discriminate].
      intros Hrun. change (len res = OriginalSize h).
      exact (Hnext _ Heq Hrun).
    + destruct (Byte.eqb mode "000"); [| discriminate].
      destruct (lzDecompressTokens (drop 1 compBuf) expected)
        as [dec| | |] eqn:Hdec; try discriminate.
      apply lzDecompressTokens_Done_len in Hdec.
      intros Hrun. change (len res = OriginalSize h).
      exact (Hnext _ Hdec Hrun).
Qed.

(** When the sequential decompressor returns an output, the output has the
    size the header states: [OriginalSize] bytes, or none when the header
    has [OriginalSize = 0] or [NumBlocks = 0].  This holds of every file,
    written by the compressor or not, whose header keeps the sizes within
    an [int64]. *)
Theorem sequential_output_size (file rest out : list byte) (h : FileHeader) :
  ReadHeader file = Done (h, rest) ->
  OriginalSize h < 2 ^ 63 -> NumBlocks h < 2 ^ 63 ->
  BlockSize h * NumBlocks h < 2 ^ 63 ->
  SequentialDecompressFile file = Done out ->
  len out = if (OriginalSize h =? 0) || (NumBlocks h =? 0) then 0
            else OriginalSize h.
Proof.
  intros Hh HL Hn63 Hprod. unfold SequentialDecompressFile. rewrite Hh.
  apply ReadHeader_valid in Hh as (_ & HL0 & Hbs & Hn & _ & _).
  destruct ((OriginalSize h =? 0) || (NumBlocks h =? 0)) eqn:He.
  - now intros [= <-].
  - apply orb_false_elim in He as [_ Hn0]. apply Z.eqb_neq in Hn0.
    rewrite int64_small by lia. intros Hrun.
    apply (seqDecodeBlocks_size h (Z.to_nat (NumBlocks h))) in Hrun;
      [| lia | lia | lia | lia | lia | lia | intros _; unfold len; simpl; lia].
    rewrite Hrun.
    destruct (Z.to_nat (NumBlocks h)) eqn:Hz; [lia | reflexivity].
Qed.

Lemma sequential_output_size_witness :
  let file :=
    match SequentialCompressFile ["f"%byte] 4 (replicate 10 "a"%byte) with
    | Done (Some file, None) => file
    | _ => []
    end in
  ReadHeader file
  = Done (mkFileHeader ["f"%byte] 10 4 3 [5; 5; 3], drop 51 file) /\
  SequentialDecompressFile file = Done (replicate 10 "a"%byte) /\
  len (replicate 10 "a"%byte) = 10.
Proof.
  intros file.
  assert (Hh : ReadHeader file
               = Done (mkFileHeader ["f"%byte] 10 4 3 [5; 5; 3], drop 51 file))
    by (vm_compute; reflexivity).
  assert (Hd : SequentialDecompressFile file = Done (replicate 10 "a"%byte))
    by (vm_compute; reflexivity).
  split; [exact Hh |]. split; [exact Hd |].
  exact (sequential_output_size _ _ _ _ Hh ltac:(simpl; lia) ltac:(simpl; lia)
           ltac:(simpl; lia) Hd).
Defined.

(** ** Bytes after the last block *)

Lemma readFull_more (r j a r' : list byte) (n : Z) :
  readFull r n = Done (a, r') -> readFull (r ++ j) n = Done (a, r' ++ j).
Proof.
  unfold readFull. destruct (Z.ltb_spec (len r) n); [discriminate |].
  intros [= <- <-]. rewrite len_app. pose proof (len_nonneg j).
  destruct (Z.ltb_spec (len r + len j) n); [lia |].
  unfold len in *.
  rewrite take_app_le, drop_app_le by lia. reflexivity.
Qed.

Lemma readLE_more (r j r' : list byte) (n : nat) (v : Z) :
  readLE r n = Done (v, r') -> readLE (r ++ j) n = Done (v, r' ++ j).
Proof.
  unfold readLE, bind.
  destruct (readFull r (Z.of_nat n)) as [[a r1]| | |] eqn:Hr; try discriminate.
  cbn [fst snd]. intros [= <- <-].
  now rewrite (readFull_more _ j _ _ _ Hr).
Qed.

Lemma readSizes_more (n : nat) (j : list byte) :
  forall r sizes r',
  readSizes n r = Done (sizes, r') ->
  readSizes n (r ++ j) = Done (sizes, r' ++ j).
Proof.
  induction n as [|n IH]; intros r sizes r'; cbn [readSizes].
  - now intros [= <- <-].
  - unfold bind.
    destruct (readLE r 8) as [[v r1]| | |] eqn:Hv; try discriminate.
    cbn [fst snd].
    destruct (readSizes n r1) as [[sizes1 r2]| | |] eqn:Hs; try discriminate.
    cbn [fst snd]. intros [= <- <-].
    rewrite (readLE_more _ j _ _ _ Hv). cbn [fst snd].
    now rewrite (IH _ _ _ Hs).
Qed.

Lemma ReadHeader_more (r j rest : list byte) (h : FileHeader) :
  ReadHeader r = Done (h, rest) -> ReadHeader (r ++ j) = Done (h, rest ++ j).
Proof.
  unfold ReadHeader, bind.
  destruct (readFull r 4) as [[m r1]| | |] eqn:H1; try discriminate.
  rewrite (readFull_more _ j _ _ _ H1). cbn [fst snd].
  destruct (negb (bool_decide (m = magic))); [discriminate |].
  destruct (readLE r1 2) as [[nameLen r2]| | |] eqn:H2; try discriminate.
  rewrite (readLE_more _ j _ _ _ H2). cbn [fst snd].
  destruct (readLE r2 8) as [[osize r3]| | |] eqn:H3; try discriminate.
  rewrite (readLE_more _ j _ _ _ H3). cbn [fst snd].
  destruct (readFull r3 nameLen) as [[name r4]| | |] eqn:H4; try discriminate.
  rewrite (readFull_more _ j _ _ _ H4). cbn [fst snd].
  destruct (readLE r4 4) as [[bsize r5]| | |] eqn:H5; try discriminate.
  rewrite (readLE_more _ j _ _ _ H5). cbn [fst snd].
  destruct (readLE r5 8) as [[nblocks r6]| | |] eqn:H6; try discriminate.
  rewrite (readLE_more _ j _ _ _ H6). cbn [fst snd].
  destruct (readSizes (Z.to_nat nblocks) r6) as [[sizes r7]| | |] eqn:H7;
    try discriminate.
  rewrite (readSizes_more _ j _ _ _ H7). cbn [fst snd].
  now intros [= <- <-].
Qed.

Lemma seqDecodeBlocks_more (h : FileHeader) (j : list byte) (m : nat) :
  forall r blockIndex out res,
  seqDecodeBlocks m h r blockIndex out = Done res ->
  seqDecodeBlocks m h (r ++ j) blockIndex out = Done res.
Proof.
  induction m as [|m IH]; intros r i out res; cbn [seqDecodeBlocks]; [auto |].
  unfold bind.
  destruct (index (BlockCompSizes h) i) as [compSize| | |]; try discriminate.
  destruct (compSize =? 0); [discriminate |].
  destruct (2 ^ 63 <=? compSize); [discriminate |].
  destruct (readFull r compSize) as [[compBuf r']| | |] eqn:Hr; try discriminate.
  rewrite (readFull_more _ j _ _ _ Hr).
  destruct (len compBuf =? 0); [discriminate |].
  destruct (index compBuf 0) as [mode| | |]; try discriminate.
  cbv zeta.
  destruct (Byte.eqb mode "255").
  - destruct (negb _); [discriminate | apply IH].
  - destruct (Byte.eqb mode "000"); [| discriminate].
    destruct (lzDecompressTokens _ _) as [dec| | |]; try discriminate.
    apply IH.
Qed.

(** The sequential decompressor reads the header and the blocks the header
    announces and nothing after them: bytes that follow the last block do
    not change its output. *)
Theorem sequential_ignores_trailing_bytes (file junk out : list byte) :
  SequentialDecompressFile file = Done out ->
  SequentialDecompressFile (file ++ junk) = Done out.
Proof.
  unfold SequentialDecompressFile.
  destruct (ReadHeader file) as [[h r]| | |] eqn:Hh; try discriminate.
  rewrite (ReadHeader_more _ junk _ _ Hh).
  destruct (_ || _); [auto |]. apply seqDecodeBlocks_more.
Qed.

Lemma sequential_ignores_trailing_bytes_witness :
  let file :=
    match SequentialCompressFile ["f"%byte] 4 (replicate 10 "a"%byte) with
    | Done (Some file, None) => file
    | _ => []
    end in
  len file = 64 /\
  SequentialDecompressFile (file ++ ["x"%byte; "y"%byte])
  = Done (replicate 10 "a"%byte).
Proof.
  intros file. split; [vm_compute; reflexivity |].
  apply (sequential_ignores_trailing_bytes file ["x"%byte; "y"%byte]).
  vm_compute. reflexivity.
Defined.

(** ** The runs of the BSP decompressor *)

Section BspdWorkers.
Import BSPD.

Lemma dwaiting_nonneg (ws : list workerPc) : 0 <= waiting ws.
Proof. induction ws as [|pc ws IH]; cbn; [lia | destruct (isWaiting pc); lia]. Qed.

Lemma dwaiting_le (ws : list workerPc) : waiting ws <= len ws.
Proof.
  induction ws as [|pc ws IH]; [reflexivity |].
  unfold len in *. cbn [waiting length]. destruct (isWaiting pc); lia.
Qed.

Lemma dwaiting_lt (ws : list workerPc) (i : nat) (pc : workerPc) :
  ws !! i = Some pc -> isWaiting pc = false -> waiting ws < len ws.
Proof.
  revert i. induction ws as [|x ws IH]; intros [|i] Hi Hw; try discriminate.
  - injection Hi as ->. pose proof (dwaiting_le ws).
    unfold len in *. cbn [waiting length]. rewrite Hw. lia.
  - specialize (IH i Hi Hw). unfold len in *. cbn [waiting length].
    destruct (isWaiting x); lia.
Qed.

Lemma dwaiting_lt2 (ws : list workerPc) (i j : nat) (pc pc' : workerPc) :
  ws !! i = Some pc -> ws !! j = Some pc' -> i <> j ->
  isWaiting pc = false -> isWaiting pc' = false ->
  waiting ws + 2 <= len ws.
Proof.
  revert i j. induction ws as [|x ws IH]; intros [|i] [|j] Hi Hj Hne Hw Hw';
    try discriminate; try congruence.
  - injection Hi as ->. pose proof (dwaiting_lt ws j pc' Hj Hw').
    unfold len in *. cbn [waiting length]. rewrite Hw. lia.
  - injection Hj as ->. pose proof (dwaiting_lt ws i pc Hi Hw).
    unfold len in *. cbn [waiting length]. rewrite Hw'. lia.
  - assert (i <> j) by congruence.
    specialize (IH i j Hi Hj ltac:(assumption) Hw Hw').
    unfold len in *. cbn [waiting length]. destruct (isWaiting x); lia.
Qed.

Lemma dwaiting_insert (ws : list workerPc) (i : nat) (pc pc' : workerPc) :
  ws !! i = Some pc ->
  waiting (<[i := pc']> ws)
  = waiting ws - (if isWaiting pc then 1 else 0) + (if isWaiting pc' then 1 else 0).
Proof.
  revert i. induction ws as [|x ws IH]; intros [|i] Hi; try discriminate.
  - injection Hi as ->.
    change (<[0%nat := pc']> (pc :: ws)) with (pc' :: ws). cbn [waiting]. lia.
  - change (<[S i := pc']> (x :: ws)) with (x :: <[i := pc']> ws).
    cbn [waiting]. rewrite (IH i Hi). lia.
Qed.

Lemma dnot_all_waiting (ws : list workerPc) :
  waiting ws < len ws -> exists i pc, ws !! i = Some pc /\ isWaiting pc = false.
Proof.
  induction ws as [|x ws IH]; intros H; [unfold len in H; cbn in H; lia |].
  destruct (isWaiting x) eqn:Hx.
  - destruct IH as (i & pc & Hi & Hpc).
    { unfold len in *. cbn [waiting length] in H. rewrite Hx in H. lia. }
    exists (S i), pc. auto.
  - exists 0%nat, x. auto.
Qed.

Lemma dall_waiting_woken (ws : list workerPc) (i : nat) (pc : workerPc) :
  ws !! i = Some pc -> isWaiting pc = false ->
  waiting ws + 1 = len ws ->
  Forall (fun pc => beforeBarrier pc = false) (<[i := DLeave]> (map wake ws)).
Proof.
  revert i. induction ws as [|x ws IH]; intros [|i] Hi Hw Hall; try discriminate.
  - injection Hi as ->. cbn [map]. constructor; [reflexivity |].
    unfold len in Hall. cbn [waiting length] in Hall. rewrite Hw in Hall.
    assert (Hws : waiting ws = len ws) by (unfold len; lia).
    clear -Hws. induction ws as [|y ws IH]; [constructor |].
    pose proof (dwaiting_le ws). unfold len in *. cbn [waiting length] in Hws.
    destruct y; cbn [isWaiting] in Hws; try lia.
    cbn [map wake]. constructor; [reflexivity |]. apply IH. lia.
  - cbn [map]. pose proof (dwaiting_lt ws i pc Hi Hw) as Hlt.
    unfold len in *. cbn [waiting length] in Hall.
    destruct x; cbn [isWaiting] in Hall; try lia.
    cbn. constructor; [reflexivity |]. apply (IH i Hi Hw). lia.
Qed.

Lemma dwork_wake (ws : list workerPc) : map work (map wake ws) = map work ws.
Proof.
  induction ws as [|x ws IH]; [reflexivity |].
  cbn [map]. rewrite IH. now destruct x.
Qed.

Lemma dsum_work_insert (ws : list workerPc) (i : nat) (pc pc' : workerPc) :
  ws !! i = Some pc ->
  (sum_list (map work (<[i := pc']> ws)) + work pc
   = sum_list (map work ws) + work pc')%nat.
Proof.
  revert i. induction ws as [|x ws IH]; intros [|i] Hi; try discriminate.
  - injection Hi as ->.
    change (<[0%nat := pc']> (pc :: ws)) with (pc' :: ws).
    cbn [map sum_list sum_list_with id]. lia.
  - change (<[S i := pc']> (x :: ws)) with (x :: <[i := pc']> ws).
    cbn [map sum_list sum_list_with id]. specialize (IH i Hi). lia.
Qed.

Lemma copyInto_Done (out src : list byte) (lo : Z) :
  0 <= lo -> lo + len src <= len out ->
  exists out', copyInto out lo (lo + len src) src = Done out' /\
    len out' = len out /\
    (forall p, 0 <= p < lo -> out' !! Z.to_nat p = out !! Z.to_nat p) /\
    (forall p, lo <= p < lo + len src ->
       out' !! Z.to_nat p = src !! Z.to_nat (p - lo)) /\
    (forall p, lo + len src <= p -> out' !! Z.to_nat p = out !! Z.to_nat p).
Proof.
  intros Hlo Hhi. pose proof (len_nonneg src) as Hs. unfold copyInto.
  destruct (Z.ltb_spec lo 0); [lia |].
  destruct (Z.ltb_spec (lo + len src) lo); [lia |].
  destruct (Z.ltb_spec (len out) (lo + len src)); [lia |].
  cbn [orb]. eexists. split; [reflexivity |].
  replace (Z.min (lo + len src - lo) (len src)) with (len src) by lia.
  assert (Htk : take (Z.to_nat (len src)) src = src)
    by (apply take_ge; unfold len; lia).
  rewrite Htk.
  assert (Hl1 : length (take (Z.to_nat lo) out) = Z.to_nat lo)
    by (rewrite length_take; unfold len in *; lia).
  split; [| split; [| split]].
  - unfold len in *. rewrite !length_app, Hl1, length_drop. lia.
  - intros p Hp. rewrite lookup_app_l by lia.
    apply lookup_take_lt. lia.
  - intros p Hp. rewrite lookup_app_r by lia. rewrite Hl1.
    rewrite lookup_app_l by (unfold len in *; lia). f_equal. lia.
  - intros p Hp. rewrite lookup_app_r by lia. rewrite Hl1.
    rewrite lookup_app_r by (unfold len in *; lia).
    rewrite lookup_drop. f_equal. unfold len in *. lia.
Qed.

End BspdWorkers.

Section BspdRun.
Import BSPD.
Variables (h : FileHeader) (compData : list byte) (offs : list Z)
  (data : list byte) (N T chunk bs : Z).
Hypothesis HN : 1 <= N.
Hypothesis HT : 1 <= T.
Hypothesis Hchunk : 1 <= chunk.
Hypothesis Hcover : N <= chunk * T.
Hypothesis Hbs : 0 < bs < 2 ^ 32.
Hypothesis HL : 0 < len data < 2 ^ 62.
Hypothesis Hn : bs * (N - 1) < len data <= bs * N.
Hypothesis HhN : NumBlocks h = N.
Hypothesis HhL : OriginalSize h = len data.
Hypothesis Hhbs : BlockSize h = bs.
Hypothesis Hres : forall idx, 0 <= idx < N ->
  blockAt h compData offs idx = Done (blockOfData data bs idx) \/
  exists e, blockAt h compData offs idx = Fail e.

Lemma blockOfData_len (idx : Z) :
  0 <= idx < N ->
  len (blockOfData data bs idx) = Z.min bs (len data - idx * bs) /\
  0 < len (blockOfData data bs idx) /\
  idx * bs + len (blockOfData data bs idx) <= len data /\
  (idx < N - 1 -> len (blockOfData data bs idx) = bs).
Proof using HN Hbs HL Hn.
  clear HhN HhL Hhbs Hres HT Hchunk Hcover.
  intros Hidx. unfold blockOfData.
  assert (Hl : len (take (Z.to_nat bs) (drop (Z.to_nat (idx * bs)) data))
               = Z.min bs (len data - idx * bs)).
  { pose proof HL as HL'. pose proof Hn as Hn'.
    unfold len in HL', Hn' |- *. rewrite length_take, length_drop.
    assert (0 <= idx * bs <= bs * (N - 1)) by nia. lia. }
  rewrite Hl.
  assert (idx * bs <= bs * (N - 1)) by nia.
  split; [lia |]. split; [lia |]. split; [lia |].
  intros Hlt. assert ((idx + 1) * bs <= bs * (N - 1)) by nia. lia.
Qed.

Lemma blockOfData_lookup (idx p : Z) :
  0 <= idx < N ->
  idx * bs <= p < idx * bs + len (blockOfData data bs idx) ->
  blockOfData data bs idx !! Z.to_nat (p - idx * bs) = data !! Z.to_nat p.
Proof using HN Hbs HL Hn.
  clear HhN HhL Hhbs Hres HT Hchunk Hcover.
  intros Hidx Hp. destruct (blockOfData_len idx Hidx) as (Hlen & _).
  unfold blockOfData. rewrite lookup_take_lt by lia.
  rewrite lookup_drop. f_equal. nia.
Qed.

Lemma expected_len (idx : Z) :
  0 <= idx < N -> expected h idx = len (blockOfData data bs idx).
Proof using HN Hbs HL Hn HhN HhL Hhbs.
  clear Hres HT Hchunk Hcover.
  intros Hidx. destruct (blockOfData_len idx Hidx) as (Hlen & _ & _ & Hfull).
  unfold expected. rewrite HhN, HhL, Hhbs.
  assert (N <= len data) by nia.
  rewrite (int64_small N), (int64_small (len data)) by lia.
  destruct (Z.eqb_spec idx (N - 1)) as [->|Hne].
  - assert (0 <= bs * (N - 1)) by nia.
    rewrite (int64_small (bs * (N - 1))) by lia.
    rewrite int64_small by lia. nia.
  - symmetry. apply Hfull. lia.
Qed.

Lemma dRange_bounds (id : Z) :
  0 <= id ->
  0 <= (bspRange N chunk id).1 <= (bspRange N chunk id).2 /\
  (bspRange N chunk id).2 <= N.
Proof using All.
  intros Hid. unfold bspRange.
  destruct (Z.leb_spec N (id * chunk)); cbn [fst snd].
  - destruct (Z.ltb_spec N 0); cbn [fst snd]; lia.
  - destruct (Z.ltb_spec N (id * chunk + chunk)); cbn [fst snd]; nia.
Qed.

Lemma dRange_bytes_disjoint (id id' p : Z) :
  0 <= id -> 0 <= id' -> id <> id' ->
  (bspRange N chunk id).1 * bs <= p < (bspRange N chunk id).2 * bs ->
  ~ ((bspRange N chunk id').1 * bs <= p < (bspRange N chunk id').2 * bs).
Proof using All.
  intros Hid Hid' Hne H H'.
  assert (Hq : (bspRange N chunk id).1 <= p / bs < (bspRange N chunk id).2).
  { split; [apply Z.div_le_lower_bound; lia | apply Z.div_lt_upper_bound; lia]. }
  assert (Hq' : (bspRange N chunk id').1 <= p / bs < (bspRange N chunk id').2).
  { split; [apply Z.div_le_lower_bound; lia | apply Z.div_lt_upper_bound; lia]. }
  apply (bspRange_owns N chunk id (p / bs) Hchunk Hid) in Hq.
  apply (bspRange_owns N chunk id' (p / bs) Hchunk Hid') in Hq'.
  nia.
Qed.

Lemma agree_frame (s s' : state) (lo hi : Z) :
  (forall p, lo <= p < hi -> outBuf s' !! Z.to_nat p = outBuf s !! Z.to_nat p) ->
  agree data s lo hi -> agree data s' lo hi.
Proof using All.
  intros Hsame Ha p Hp. rewrite Hsame by exact Hp. now apply Ha.
Qed.

Lemma dworkerInv_frame (s s' : state) (id : Z) (pc : workerPc) :
  (forall p, (bspRange N chunk id).1 * bs <= p < (bspRange N chunk id).2 * bs ->
     outBuf s' !! Z.to_nat p = outBuf s !! Z.to_nat p) ->
  workerInv data N chunk bs s id pc -> workerInv data N chunk bs s' id pc.
Proof using All.
  intros Hsame. unfold workerInv.
  destruct pc as [idx e|idx e| | | | |]; cbv zeta.
  - intros (He & Hidx & Hf). split; [exact He |]. split; [exact Hidx |].
    eapply agree_frame; [| exact Hf]. intros p Hp. apply Hsame. nia.
  - intros (He & Hidx & Hf). split; [exact He |]. split; [exact Hidx |].
    eapply agree_frame; [| exact Hf]. intros p Hp. apply Hsame. nia.
  - apply agree_frame. exact Hsame.
  - apply agree_frame. exact Hsame.
  - apply agree_frame. exact Hsame.
  - auto.
  - apply agree_frame. exact Hsame.
Qed.

(** A worker that is not at the barrier moves from [pc] to [pc'] and writes
    in its own part of the output only. *)
Lemma d_Inv_move (s s' : state) (i : nat) (pc pc' : workerPc) :
  Inv h compData offs data N T chunk bs s -> workers s !! i = Some pc ->
  crashed s' = false -> len (outBuf s') = len data ->
  workers s' = <[i := pc']> (workers s) -> count s' = count s ->
  (firstErr s' = None -> firstErr s = None /\ isQuit pc' = false) ->
  (forall e, firstErr s' = Some e ->
     exists idx, 0 <= idx < N /\ blockAt h compData offs idx = Fail e) ->
  (forall p, 0 <= p ->
     ~ ((bspRange N chunk (Z.of_nat i)).1 * bs <= p
        < (bspRange N chunk (Z.of_nat i)).2 * bs) ->
     outBuf s' !! Z.to_nat p = outBuf s !! Z.to_nat p) ->
  workerInv data N chunk bs s' (Z.of_nat i) pc' ->
  isWaiting pc = false -> isWaiting pc' = false ->
  beforeBarrier pc' = beforeBarrier pc ->
  (work pc' < work pc)%nat ->
  Inv h compData offs data N T chunk bs s' /\ (workLeft s' < workLeft s)%nat.
Proof using All.
  intros (Hcr & HlO & HlW & Hws & HnoQ & Herr & Hbar) Hi Hcr' HlO' Hw' Hc'
    HfeN HfeS Hsame Hpc' Hwait Hwait' Hbb Hwork.
  assert (Hlt : (i < length (workers s))%nat) by (eapply lookup_lt_Some; exact Hi).
  split.
  - split; [exact Hcr' |]. split; [exact HlO' |].
    split; [rewrite Hw'; unfold len in *; now rewrite length_insert |].
    split; [| split; [| split; [exact HfeS |]]].
    + intros id pc0 Hid. rewrite Hw' in Hid.
      destruct (Nat.eq_dec id i) as [->|Hne].
      * rewrite list_lookup_insert_eq in Hid by exact Hlt.
        injection Hid as <-. exact Hpc'.
      * rewrite list_lookup_insert_ne in Hid by auto.
        apply (dworkerInv_frame s); [| now apply Hws].
        intros p Hp.
        pose proof (dRange_bounds (Z.of_nat id) ltac:(lia)).
        apply Hsame; [nia |].
        apply (dRange_bytes_disjoint (Z.of_nat id)); [lia | lia | lia | exact Hp].
    + intros Hnone. destruct (HfeN Hnone) as [Hold Hq]. rewrite Hw'.
      apply Forall_insert; [now apply HnoQ | exact Hq].
    + rewrite Hw', Hc'. destruct Hbar as [(Hall & Hcnt & Hct) | (Hall & Hcnt)].
      * left. split; [| split; [| exact Hct]].
        -- apply Forall_insert; [exact Hall |]. rewrite Hbb.
           exact (proj1 (Forall_lookup _ _) Hall i pc Hi).
        -- rewrite (dwaiting_insert _ _ pc pc' Hi), Hwait, Hwait'. lia.
      * right. split; [| exact Hcnt].
        apply Forall_insert; [exact Hall |]. rewrite Hbb.
        exact (proj1 (Forall_lookup _ _) Hall i pc Hi).
  - unfold workLeft. rewrite Hw'.
    pose proof (dsum_work_insert (workers s) i pc pc' Hi). lia.
Qed.

Lemma d_step_enabled (s : state) (i : nat) (pc : workerPc) :
  Inv h compData offs data N T chunk bs s ->
  workers s !! i = Some pc -> enabled pc = true ->
  Inv h compData offs data N T chunk bs (step h compData offs T s i) /\
  (workLeft (step h compData offs T s i) < workLeft s)%nat.
Proof using All.
  intros HI Hi Hen.
  pose proof HI as (Hcr & HlO & HlW & Hws & HnoQ & Herr & Hbar).
  unfold step. rewrite Hcr, Hi.
  pose proof (Hws i pc Hi) as Hpc.
  destruct (dRange_bounds (Z.of_nat i) ltac:(lia)) as (Hr0 & Hr1).
  set (r := bspRange N chunk (Z.of_nat i)) in *.
  destruct pc as [idx e|idx e| | | | |]; try discriminate Hen;
    cbn [workerStep].
  - (* the loop test and the look at the error *)
    destruct Hpc as (-> & Hidx & Hag). fold r in Hidx, Hag, Hi |- *.
    destruct (Z.ltb_spec idx r.2) as [Hlt|Hge].
    + destruct (firstErr s) as [e0|] eqn:Hfe.
      * apply (d_Inv_move s _ i (DCheck idx r.2) DQuit HI Hi);
          cbn [crashed outBuf firstErr workers count];
          [reflexivity | exact HlO | reflexivity | reflexivity
          | discriminate | intros e1 He1; apply Herr; congruence
          | intros p _ _; reflexivity | exact I
          | reflexivity | reflexivity | reflexivity | cbn [work]; lia].
      * apply (d_Inv_move s _ i (DCheck idx r.2) (DBlock idx r.2) HI Hi);
          cbn [crashed outBuf firstErr workers count];
          [reflexivity | exact HlO | reflexivity | reflexivity
          | auto | discriminate
          | intros p _ _; reflexivity |
          | reflexivity | reflexivity | reflexivity | cbn [work]; lia].
        unfold workerInv. fold r. cbv zeta.
        split; [reflexivity |]. split; [lia | exact Hag].
    + apply (d_Inv_move s _ i (DCheck idx r.2) DArrive HI Hi);
        cbn [crashed outBuf firstErr workers count];
        [reflexivity | exact HlO | reflexivity | reflexivity
        | intros Hnone; split; [exact Hnone | reflexivity] | exact Herr
        | intros p _ _; reflexivity |
        | reflexivity | reflexivity | reflexivity | cbn [work]; lia].
      unfold workerInv. fold r. cbv zeta.
      replace r.2 with idx by lia. exact Hag.
  - (* a block *)
    destruct Hpc as (-> & Hidx & Hag). fold r in Hidx, Hag, Hi |- *.
    assert (HidxN : 0 <= idx < N) by lia.
    destruct (blockOfData_len idx HidxN) as (Hblen & Hbpos & Hbend & _).
    destruct (Hres idx HidxN) as [Hb | [e Hb]]; rewrite Hb.
    + rewrite Hhbs, (expected_len idx HidxN).
      assert (Hlo : 0 <= idx * bs < len data) by nia.
      rewrite (int64_small (idx * bs)) by lia.
      rewrite int64_small by lia.
      destruct (copyInto_Done (outBuf s) (blockOfData data bs idx) (idx * bs)
                  ltac:(lia) ltac:(lia))
        as (out' & -> & Hlen' & Hbefore & Hin & Hafter).
      cbn [bind].
      assert (Hreg : r.1 * bs <= idx * bs /\ (idx + 1) * bs <= r.2 * bs) by nia.
      apply (d_Inv_move s _ i (DBlock idx r.2) (DCheck (idx + 1) r.2) HI Hi);
        cbn [crashed outBuf firstErr workers count];
        [reflexivity | lia | reflexivity | reflexivity
        | intros Hnone; split; [exact Hnone | reflexivity] | exact Herr
        | |
        | reflexivity | reflexivity | reflexivity | cbn [work]; lia].
      * intros p Hp0 Hp. fold r in Hp.
        destruct (Z.lt_ge_cases p (idx * bs)); [apply Hbefore; lia |].
        apply Hafter. nia.
      * unfold workerInv. fold r. cbv zeta.
        split; [reflexivity |]. split; [lia |].
        intros p Hp. cbn [outBuf].
        destruct (Z.lt_ge_cases p (idx * bs)) as [Hlow|Hhigh].
        { rewrite Hbefore by nia. apply Hag. lia. }
        destruct (Z.lt_ge_cases p (idx * bs + len (blockOfData data bs idx)))
          as [Hinb|Hout].
        { rewrite Hin by lia. apply blockOfData_lookup; [exact HidxN | lia]. }
        rewrite Hafter by lia.
        rewrite !lookup_ge_None_2; [reflexivity | |]; unfold len in *; lia.
    + apply (d_Inv_move s _ i (DBlock idx r.2) DQuit HI Hi);
        cbn [crashed outBuf firstErr workers count];
        [reflexivity | exact HlO | reflexivity | reflexivity
        | destruct (firstErr s); discriminate |
        | intros p _ _; reflexivity | exact I
        | reflexivity | reflexivity | reflexivity | cbn [work]; lia].
      intros e1 He1. destruct (firstErr s) as [e0|] eqn:Hfe;
        cbn [setErr] in He1.
      * apply Herr. exact He1.
      * injection He1 as <-. exists idx. auto.
  - (* the barrier *)
    unfold workerInv in Hpc. fold r in Hpc. cbv zeta in Hpc.
    assert (Hlt : (i < length (workers s))%nat) by (eapply lookup_lt_Some; exact Hi).
    destruct Hbar as [(Hall & Hcnt & Hct) | (Hall & Hcnt)];
      [| pose proof (proj1 (Forall_lookup _ _) Hall i _ Hi) as Hb; discriminate Hb].
    pose proof (dwaiting_lt (workers s) i DArrive Hi eq_refl) as Hwlt.
    destruct (Z.eqb_spec (count s + 1) T) as [Hlast|Hnot].
    + assert (Hafter : Forall (fun pc => beforeBarrier pc = false)
                         (<[i := DLeave]> (map wake (workers s))))
        by (apply (dall_waiting_woken (workers s) i DArrive Hi eq_refl); lia).
      split.
      * split; [reflexivity |]. split; [exact HlO |].
        cbn [outBuf firstErr workers count].
        split; [unfold len in *; now rewrite length_insert, length_map |].
        split; [| split; [| split; [exact Herr |]]].
        -- intros id pc0 Hid.
           destruct (Nat.eq_dec id i) as [->|Hne].
           ++ rewrite list_lookup_insert_eq in Hid by (now rewrite length_map).
              injection Hid as <-. exact Hpc.
           ++ rewrite list_lookup_insert_ne in Hid by auto.
              rewrite list_lookup_fmap in Hid.
              destruct (workers s !! id) as [pc1|] eqn:Hpc1; [| discriminate].
              injection Hid as <-.
              specialize (Hws id pc1 Hpc1).
              destruct pc1; exact Hws.
        -- intros _. eapply Forall_impl; [exact Hafter |].
           intros pc0. now destruct pc0.
        -- right. split; [exact Hafter | reflexivity].
      * unfold workLeft. cbn [workers].
        pose proof (dsum_work_insert (map wake (workers s)) i DArrive DLeave) as Hsum.
        rewrite list_lookup_fmap, Hi in Hsum. specialize (Hsum eq_refl).
        rewrite dwork_wake in Hsum. cbn [work] in Hsum. lia.
    + split.
      * split; [reflexivity |]. split; [exact HlO |].
        cbn [outBuf firstErr workers count].
        split; [unfold len in *; now rewrite length_insert |].
        split; [| split; [| split; [exact Herr |]]].
        -- intros id pc0 Hid.
           destruct (Nat.eq_dec id i) as [->|Hne].
           ++ rewrite list_lookup_insert_eq in Hid by exact Hlt.
              injection Hid as <-. exact Hpc.
           ++ rewrite list_lookup_insert_ne in Hid by auto.
              specialize (Hws id pc0 Hid). destruct pc0; exact Hws.
        -- intros Hnone. apply Forall_insert; [now apply HnoQ | reflexivity].
        -- left. split; [| split].
           ++ apply Forall_insert; [exact Hall | reflexivity].
           ++ rewrite (dwaiting_insert _ _ DArrive DWaiting Hi). cbn [isWaiting]. lia.
           ++ lia.
      * unfold workLeft. cbn [workers].
        pose proof (dsum_work_insert (workers s) i DArrive DWaiting Hi) as Hsum.
        cbn [work] in Hsum. lia.
  - (* the return *)
    unfold workerInv in Hpc. fold r in Hpc. cbv zeta in Hpc.
    apply (d_Inv_move s _ i DLeave DDone HI Hi);
      cbn [crashed outBuf firstErr workers count];
      [reflexivity | exact HlO | reflexivity | reflexivity
      | intros Hnone; split; [exact Hnone | reflexivity] | exact Herr
      | intros p _ _; reflexivity | exact Hpc
      | reflexivity | reflexivity | reflexivity | cbn [work]; lia].
Qed.

Lemma d_step_inv (s : state) (i : nat) :
  Inv h compData offs data N T chunk bs s ->
  Inv h compData offs data N T chunk bs (step h compData offs T s i).
Proof using All.
  intros HI. destruct (workers s !! i) as [pc|] eqn:Hi.
  - destruct (enabled pc) eqn:Hen.
    + now destruct (d_step_enabled s i pc HI Hi Hen).
    + unfold step. rewrite Hi. destruct (crashed s); [auto |].
      destruct pc; try discriminate Hen; cbn [workerStep]; auto.
  - unfold step. rewrite Hi. destruct (crashed s); auto.
Qed.

Lemma d_run_inv (sched : list nat) :
  forall s, Inv h compData offs data N T chunk bs s ->
  Inv h compData offs data N T chunk bs (run h compData offs T s sched).
Proof using All.
  induction sched as [|i sched IH]; intros s HI; [exact HI |].
  cbn [run fold_left]. apply IH. now apply d_step_inv.
Qed.

Lemma d_start_Inv :
  chunk = bspChunkSize N T ->
  Inv h compData offs data N T chunk bs (start (len data) N T).
Proof using All.
  intros Hc. unfold start. rewrite <- Hc.
  split; [reflexivity |]. cbn [outBuf firstErr workers count].
  split; [unfold len; rewrite length_replicate; lia |].
  split; [unfold len, spawn; rewrite length_map, length_seqZ; lia |].
  assert (Hsp : forall id pc, spawn N chunk T !! id = Some pc ->
            pc = DCheck (bspRange N chunk (Z.of_nat id)).1
                        (bspRange N chunk (Z.of_nat id)).2).
  { intros id pc Hid. unfold spawn in Hid. rewrite list_lookup_fmap in Hid.
    destruct (seqZ 0 T !! id) as [w|] eqn:Hw; [| discriminate].
    apply lookup_seqZ in Hw as [-> Hlt]. cbn [fmap option_fmap option_map] in Hid.
    rewrite Z.add_0_l in Hid.
    destruct (bspRange N chunk (Z.of_nat id)) as [st en].
    now injection Hid as <-. }
  split; [| split; [| split; [discriminate |]]].
  - intros id pc Hid. rewrite (Hsp id pc Hid).
    destruct (dRange_bounds (Z.of_nat id) ltac:(lia)) as [Hr0 Hr1].
    unfold workerInv. cbv zeta.
    split; [reflexivity |]. split; [lia |]. intros p Hp. lia.
  - intros _. apply Forall_lookup. intros id pc Hid. now rewrite (Hsp id pc Hid).
  - left. split; [| split; [| lia]].
    + apply Forall_lookup. intros id pc Hid. now rewrite (Hsp id pc Hid).
    + unfold spawn. induction (seqZ 0 T) as [|w ws IH]; [reflexivity |].
      cbn [map waiting]. rewrite <- IH. now destruct (bspRange N chunk w).
Qed.

Lemma d_not_returned_enabled (s : state) :
  Inv h compData offs data N T chunk bs s ->
  Forall (fun pc => isQuit pc = false) (workers s) ->
  forallb returned (workers s) = false ->
  exists i pc, workers s !! i = Some pc /\ enabled pc = true.
Proof using All.
  intros (_ & _ & HlW & _ & _ & _ & Hbar) HnoQ Hnd.
  destruct Hbar as [(Hall & Hcnt & Hct) | (Hall & _)].
  - destruct (dnot_all_waiting (workers s) ltac:(lia)) as (i & pc & Hi & Hw).
    exists i, pc. split; [exact Hi |].
    pose proof (proj1 (Forall_lookup _ _) Hall i pc Hi) as Hb. simpl in Hb.
    pose proof (proj1 (Forall_lookup _ _) HnoQ i pc Hi) as Hq. simpl in Hq.
    destruct pc; try discriminate; reflexivity.
  - clear HlW HnoQ. induction (workers s) as [|pc ws IH]; [discriminate |].
    apply Forall_cons in Hall as [Hpc Hall]. cbn [forallb] in Hnd.
    destruct pc; try discriminate Hpc.
    + exists 0%nat, DLeave. auto.
    + cbn [returned andb] in Hnd. destruct (IH Hall Hnd) as (i & pc & Hi & He).
      exists (S i), pc. auto.
Qed.

(** When every block is good, no worker leaves the loop early, and from
    every state of a run the workers can be brought to their end. *)
Lemma d_run_completes (k : nat) :
  (forall idx, 0 <= idx < N ->
     blockAt h compData offs idx = Done (blockOfData data bs idx)) ->
  forall s, Inv h compData offs data N T chunk bs s -> (workLeft s <= k)%nat ->
  exists more,
    forallb returned (workers (run h compData offs T s more)) = true.
Proof using All.
  intros Hgood.
  assert (HnoQ : forall s, Inv h compData offs data N T chunk bs s ->
            Forall (fun pc => isQuit pc = false) (workers s)).
  { intros s (_ & _ & _ & _ & HnoQ & Herr & _). apply HnoQ.
    destruct (firstErr s) as [e|]; [| reflexivity].
    destruct (Herr e eq_refl) as (idx & Hidx & Hf).
    rewrite (Hgood idx Hidx) in Hf. discriminate. }
  induction k as [|k IH]; intros s HI Hk.
  - destruct (forallb returned (workers s)) eqn:Hd; [exists []; exact Hd |].
    destruct (d_not_returned_enabled s HI (HnoQ s HI) Hd) as (i & pc & Hi & Hen).
    destruct (d_step_enabled s i pc HI Hi Hen) as [_ Hlt]. lia.
  - destruct (forallb returned (workers s)) eqn:Hd; [exists []; exact Hd |].
    destruct (d_not_returned_enabled s HI (HnoQ s HI) Hd) as (i & pc & Hi & Hen).
    destruct (d_step_enabled s i pc HI Hi Hen) as [HI' Hlt].
    destruct (IH _ HI' ltac:(lia)) as [more Hmore].
    exists (i :: more). exact Hmore.
Qed.

(** When all workers have returned and none has left the loop early, the
    output buffer holds the data. *)
Lemma d_returned_data (s : state) :
  Inv h compData offs data N T chunk bs s ->
  forallb returned (workers s) = true ->
  firstErr s = None -> outBuf s = data.
Proof using All.
  intros (_ & HlO & HlW & Hws & HnoQ & _ & _) Hd Hnone.
  specialize (HnoQ Hnone).
  apply list_eq. intros k.
  destruct (Z.lt_ge_cases (Z.of_nat k) (len data)) as [Hk|Hk];
    [| rewrite !lookup_ge_None_2; [reflexivity | |]; unfold len in *; lia].
  set (j := Z.of_nat k / bs).
  assert (Hj : 0 <= j < N).
  { unfold j. split; [apply Z.div_pos; lia |].
    apply Z.div_lt_upper_bound; nia. }
  pose proof (Z.div_mod (Z.of_nat k) bs ltac:(lia)) as Hdm.
  pose proof (Z.mod_pos_bound (Z.of_nat k) bs ltac:(lia)) as Hm. fold j in Hdm.
  pose proof (Z.div_mod j chunk ltac:(lia)) as Hdm'.
  pose proof (Z.mod_pos_bound j chunk ltac:(lia)) as Hm'.
  assert (Hq : 0 <= j / chunk) by (apply Z.div_pos; lia).
  assert (Hw : 0 <= j / chunk < T) by nia.
  destruct (lookup_lt_is_Some_2 (workers s) (Z.to_nat (j / chunk)))
    as [pc Hpc]; [unfold len in *; lia |].
  pose proof (Hws _ _ Hpc) as Hinv. rewrite Z2Nat.id in Hinv by lia.
  assert (Hown : (bspRange N chunk (j / chunk)).1 <= j
                 < (bspRange N chunk (j / chunk)).2).
  { apply bspRange_owns; [exact Hchunk | lia | nia]. }
  assert (Hreg : (bspRange N chunk (j / chunk)).1 * bs <= Z.of_nat k
                 < (bspRange N chunk (j / chunk)).2 * bs) by nia.
  pose proof (proj1 (forallb_forall _ _) Hd pc) as Hret.
  pose proof (proj1 (Forall_lookup _ _) HnoQ _ _ Hpc) as Hq'. simpl in Hq'.
  assert (Hin : In pc (workers s)).
  { apply list_elem_of_In. eapply list_elem_of_lookup_2. exact Hpc. }
  specialize (Hret Hin).
  destruct pc; try discriminate Hret; try discriminate Hq'.
  unfold workerInv in Hinv. cbv zeta in Hinv.
  specialize (Hinv (Z.of_nat k) Hreg). now rewrite Nat2Z.id in Hinv.
Qed.

(** *** A worker that runs alone *)

Lemma d_step_check (s : state) (w : nat) (idx e : Z) :
  crashed s = false -> workers s !! w = Some (DCheck idx e) ->
  firstErr s = None ->
  step h compData offs T s w
  = mkState (outBuf s) None (count s)
      (<[w := if idx <? e then DBlock idx e else DArrive]> (workers s)) false.
Proof using Type.
  intros Hcr Hw Hfe. unfold step. rewrite Hcr, Hw. cbn [workerStep].
  rewrite Hfe. now destruct (idx <? e).
Qed.

Lemma d_step_block_good (s : state) (w : nat) (idx e : Z) :
  Inv h compData offs data N T chunk bs s ->
  workers s !! w = Some (DBlock idx e) ->
  blockAt h compData offs idx = Done (blockOfData data bs idx) ->
  exists out,
    step h compData offs T s w
    = mkState out (firstErr s) (count s)
        (<[w := DCheck (idx + 1) e]> (workers s)) false.
Proof using All.
  intros (Hcr & HlO & _ & Hws & _) Hw Hgood.
  destruct (Hws w _ Hw) as (_ & Hidx & _).
  destruct (dRange_bounds (Z.of_nat w) ltac:(lia)) as (Hr0 & Hr1).
  assert (HidxN : 0 <= idx < N) by lia.
  destruct (blockOfData_len idx HidxN) as (Hblen & Hbpos & Hbend & _).
  unfold step. rewrite Hcr, Hw. cbn [workerStep]. rewrite Hgood.
  rewrite Hhbs, (expected_len idx HidxN).
  assert (Hlo : 0 <= idx * bs < len data) by nia.
  rewrite (int64_small (idx * bs)) by lia.
  rewrite int64_small by lia.
  destruct (copyInto_Done (outBuf s) (blockOfData data bs idx) (idx * bs)
              ltac:(lia) ltac:(lia)) as (out' & -> & _).
  cbn [bind]. eauto.
Qed.

Lemma d_step_block_bad (s : state) (w : nat) (idx e : Z) (err : error) :
  crashed s = false -> workers s !! w = Some (DBlock idx e) ->
  blockAt h compData offs idx = Fail err ->
  step h compData offs T s w
  = mkState (outBuf s) (setErr (firstErr s) err) (count s)
      (<[w := DQuit]> (workers s)) false.
Proof using Type.
  intros Hcr Hw Hbad. unfold step. rewrite Hcr, Hw. cbn [workerStep].
  now rewrite Hbad.
Qed.

(** Worker [w] runs [cnt] good blocks with nobody else moving. *)
Lemma d_run_blocks (cnt : nat) :
  forall s w idx e,
  Inv h compData offs data N T chunk bs s ->
  workers s !! w = Some (DCheck idx e) -> firstErr s = None ->
  idx + Z.of_nat cnt <= e ->
  (forall j, idx <= j < idx + Z.of_nat cnt ->
     blockAt h compData offs j = Done (blockOfData data bs j)) ->
  let s' := run h compData offs T s (replicate (2 * cnt) w) in
  Inv h compData offs data N T chunk bs s' /\
  workers s' = <[w := DCheck (idx + Z.of_nat cnt) e]> (workers s) /\
  firstErr s' = None /\ count s' = count s.
Proof using All.
  induction cnt as [|cnt IH]; intros s w idx e HI Hw Hfe Hle Hgood.
  - cbn [Nat.mul replicate run fold_left]. split; [exact HI |].
    rewrite Z.add_0_r. rewrite list_insert_id by exact Hw. auto.
  - replace (2 * S cnt)%nat with (S (S (2 * cnt))) by lia.
    cbn [replicate]. unfold run. cbn [fold_left].
    pose proof HI as (Hcr & _).
    assert (Hlt : (w < length (workers s))%nat) by (eapply lookup_lt_Some; exact Hw).
    rewrite (d_step_check s w idx e Hcr Hw Hfe).
    destruct (Z.ltb_spec idx e); [| lia].
    set (s1 := mkState (outBuf s) None (count s)
                 (<[w := DBlock idx e]> (workers s)) false).
    assert (HI1 : Inv h compData offs data N T chunk bs s1).
    { pose proof (d_step_inv s w HI) as H1.
      rewrite (d_step_check s w idx e Hcr Hw Hfe) in H1.
      destruct (Z.ltb_spec idx e); [exact H1 | lia]. }
    assert (Hw1 : workers s1 !! w = Some (DBlock idx e))
      by (cbn [workers s1]; now apply list_lookup_insert_eq).
    destruct (d_step_block_good s1 w idx e HI1 Hw1 (Hgood idx ltac:(lia)))
      as [out Hs2].
    pose proof (d_step_inv s1 w HI1) as HI2. rewrite Hs2 in HI2 |- *.
    cbn [firstErr count workers s1] in *.
    rewrite list_insert_insert_eq in *.
    set (s2 := mkState out None (count s)
                 (<[w := DCheck (idx + 1) e]> (workers s)) false) in *.
    destruct (IH s2 w (idx + 1) e HI2) as (HI3 & Hws3 & Hfe3 & Hc3);
      [cbn [workers s2]; now apply list_lookup_insert_eq | reflexivity | lia
      | intros j Hj; apply Hgood; lia |].
    fold (run h compData offs T s2 (replicate (2 * cnt) w)).
    split; [exact HI3 |]. split; [| split; [exact Hfe3 | exact Hc3]].
    rewrite Hws3. cbn [workers s2]. rewrite list_insert_insert_eq.
    f_equal. f_equal. lia.
Qed.

(** *** Stuck at the barrier *)

(** How a step changes the list of the workers. *)
Lemma d_step_workers (s : state) (i : nat) :
  workers (step h compData offs T s i) = workers s \/
  (exists pc', workers (step h compData offs T s i) = <[i := pc']> (workers s)) \/
  (workers s !! i = Some DArrive /\ count s + 1 = T).
Proof using Type.
  unfold step. destruct (crashed s); [auto |].
  destruct (workers s !! i) as [pc|] eqn:Hi; [| auto].
  destruct pc as [idx e|idx e| | | | |]; cbn [workerStep]; auto.
  - right. left. destruct (idx <? e); [destruct (firstErr s) |]; eauto.
  - destruct (blockAt h compData offs idx); cbn [crash workers]; auto.
    + destruct (copyInto _ _ _ _); cbn [bind crash workers]; eauto.
    + eauto.
  - destruct (Z.eqb_spec (count s + 1) T); [auto | eauto].
  - eauto.
Qed.

(** With worker [w0] inside [b.cond.Wait()] and worker [wk] gone from the
    loop, the barrier is never full: [w0] stays where it is. *)
Lemma d_stuck_step (s : state) (w0 wk i : nat) :
  Inv h compData offs data N T chunk bs s ->
  workers s !! w0 = Some DWaiting -> workers s !! wk = Some DQuit ->
  workers (step h compData offs T s i) !! w0 = Some DWaiting /\
  workers (step h compData offs T s i) !! wk = Some DQuit.
Proof using All.
  intros HI H0 Hk.
  assert (Hsame : step h compData offs T s w0 = s).
  { unfold step. rewrite H0. now destruct (crashed s). }
  assert (Hsamek : step h compData offs T s wk = s).
  { unfold step. rewrite Hk. now destruct (crashed s). }
  destruct (Nat.eq_dec i w0) as [->|Hn0]; [rewrite Hsame; auto |].
  destruct (Nat.eq_dec i wk) as [->|Hnk]; [rewrite Hsamek; auto |].
  destruct (d_step_workers s i) as [-> | [[pc' ->] | [Hi Htrip]]].
  - auto.
  - rewrite !list_lookup_insert_ne by auto. auto.
  - exfalso. destruct HI as (_ & _ & HlW & _ & _ & _ & Hbar).
    destruct Hbar as [(_ & Hcnt & _) | (Hall & _)].
    + pose proof (dwaiting_lt2 (workers s) i wk _ _ Hi Hk Hnk eq_refl eq_refl).
      lia.
    + pose proof (proj1 (Forall_lookup _ _) Hall _ _ H0) as Hb. discriminate Hb.
Qed.

Lemma d_stuck_run (sched : list nat) :
  forall s w0 wk,
  Inv h compData offs data N T chunk bs s ->
  workers s !! w0 = Some DWaiting -> workers s !! wk = Some DQuit ->
  let s' := run h compData offs T s sched in
  crashed s' = false /\ forallb returned (workers s') = false.
Proof using All.
  induction sched as [|i sched IH]; intros s w0 wk HI H0 Hk.
  - cbn [run fold_left]. split; [apply HI |].
    apply not_true_is_false. intros Hall.
    pose proof (proj1 (forallb_forall _ _) Hall DWaiting) as Hret.
    assert (Hin : In DWaiting (workers s)).
    { apply list_elem_of_In. eapply list_elem_of_lookup_2. exact H0. }
    specialize (Hret Hin). discriminate.
  - cbn [run fold_left]. destruct (d_stuck_step s w0 wk i HI H0 Hk) as [H0' Hk'].
    exact (IH _ w0 wk (d_step_inv s i HI) H0' Hk').
Qed.

(** A run that ends with a worker waiting at a barrier that will never be
    full.  Block [k], of worker [wk], is bad; the blocks before it in the
    partition of [wk] and the blocks of worker [w0] are good. *)
Lemma d_deadlock (w0 wk : nat) (k : Z) (err : error) :
  chunk = bspChunkSize N T -> 2 <= T ->
  Z.of_nat w0 < T -> Z.of_nat wk < T -> w0 <> wk ->
  (bspRange N chunk (Z.of_nat wk)).1 <= k < (bspRange N chunk (Z.of_nat wk)).2 ->
  blockAt h compData offs k = Fail err ->
  (forall j, 0 <= j < N -> j <> k ->
     blockAt h compData offs j = Done (blockOfData data bs j)) ->
  exists sched, forall more,
    let s := run h compData offs T (start (len data) N T) (sched ++ more) in
    crashed s = false /\ forallb returned (workers s) = false.
Proof using All.
  intros Hc HT2 Hw0 Hwk Hne Hk Hbad Hgood.
  pose proof (d_start_Inv Hc) as HI0.
  set (s0 := start (len data) N T) in *.
  set (r0 := bspRange N chunk (Z.of_nat w0)).
  set (rk := bspRange N chunk (Z.of_nat wk)) in *.
  destruct (dRange_bounds (Z.of_nat w0) ltac:(lia)) as (Hr0 & Hr0').
  destruct (dRange_bounds (Z.of_nat wk) ltac:(lia)) as (Hrk & Hrk').
  fold r0 in Hr0, Hr0'. fold rk in Hrk, Hrk'.
  assert (Hsp : forall id, Z.of_nat id < T ->
            workers s0 !! id = Some (DCheck (bspRange N chunk (Z.of_nat id)).1
                                            (bspRange N chunk (Z.of_nat id)).2)).
  { intros id Hid. unfold s0, start. cbn [workers]. rewrite <- Hc.
    unfold spawn. rewrite list_lookup_fmap.
    rewrite (lookup_seqZ_lt 0 T id) by lia. cbn [fmap option_fmap option_map].
    rewrite Z.add_0_l. now destruct (bspRange N chunk (Z.of_nat id)). }
  (* worker [w0] goes through its blocks and arrives at the barrier *)
  set (c0 := Z.to_nat (r0.2 - r0.1)).
  destruct (d_run_blocks c0 s0 w0 r0.1 r0.2 HI0 (Hsp w0 Hw0) eq_refl
              ltac:(unfold c0; lia)) as (HI1 & Hws1 & Hfe1 & Hc1).
  { intros j Hj. apply Hgood; [unfold c0 in Hj; lia |].
    intros ->. apply (bspRange_disjoint N chunk HN Hchunk (Z.of_nat wk)
                        (Z.of_nat w0) k); try lia; [exact Hk |].
    fold r0. unfold c0 in Hj. lia. }
  set (s1 := run h compData offs T s0 (replicate (2 * c0) w0)) in *.
  replace (r0.1 + Z.of_nat c0) with r0.2 in Hws1 by (unfold c0; lia).
  assert (Hlt0 : (w0 < length (workers s0))%nat)
    by (eapply lookup_lt_Some; apply (Hsp w0 Hw0)).
  assert (Hw1 : workers s1 !! w0 = Some (DCheck r0.2 r0.2))
    by (rewrite Hws1; now apply list_lookup_insert_eq).
  pose proof (d_step_check s1 w0 r0.2 r0.2 (proj1 HI1) Hw1 Hfe1) as Hs2.
  rewrite Z.ltb_irrefl in Hs2.
  pose proof (d_step_inv s1 w0 HI1) as HI2. rewrite Hs2 in HI2.
  set (s2 := mkState (outBuf s1) None (count s1)
               (<[w0 := DArrive]> (workers s1)) false) in *.
  assert (Hcount0 : count s1 = 0) by (rewrite Hc1; reflexivity).
  assert (Hs3 : step h compData offs T s2 w0
                = mkState (outBuf s1) None 1
                    (<[w0 := DWaiting]> (workers s0)) false).
  { unfold step, s2. cbn [crashed workers].
    rewrite list_lookup_insert_eq by (rewrite Hws1, length_insert; exact Hlt0).
    cbn [workerStep]. cbn [count firstErr outBuf workers]. rewrite Hcount0.
    destruct (Z.eqb_spec (0 + 1) T); [lia |].
    rewrite Hws1, !list_insert_insert_eq. reflexivity. }
  pose proof (d_step_inv s2 w0 HI2) as HI3. rewrite Hs3 in HI3.
  set (s3 := mkState (outBuf s1) None 1 (<[w0 := DWaiting]> (workers s0)) false)
    in *.
  (* worker [wk] goes through the blocks before [k] and meets block [k] *)
  assert (Hwk3 : workers s3 !! wk = Some (DCheck rk.1 rk.2)).
  { cbn [workers s3]. rewrite list_lookup_insert_ne by auto. apply (Hsp wk Hwk). }
  set (ck := Z.to_nat (k - rk.1)).
  destruct (d_run_blocks ck s3 wk rk.1 rk.2 HI3 Hwk3 eq_refl
              ltac:(unfold ck; lia)) as (HI4 & Hws4 & Hfe4 & Hc4).
  { intros j Hj. apply Hgood; unfold ck in Hj; lia. }
  set (s4 := run h compData offs T s3 (replicate (2 * ck) wk)) in *.
  replace (rk.1 + Z.of_nat ck) with k in Hws4 by (unfold ck; lia).
  assert (Hltk : (wk < length (workers s3))%nat)
    by (eapply lookup_lt_Some; exact Hwk3).
  assert (Hw4 : workers s4 !! wk = Some (DCheck k rk.2))
    by (rewrite Hws4; now apply list_lookup_insert_eq).
  pose proof (d_step_check s4 wk k rk.2 (proj1 HI4) Hw4 Hfe4) as Hs5.
  destruct (Z.ltb_spec k rk.2); [| lia].
  pose proof (d_step_inv s4 wk HI4) as HI5. rewrite Hs5 in HI5.
  set (s5 := mkState (outBuf s4) None (count s4)
               (<[wk := DBlock k rk.2]> (workers s4)) false) in *.
  assert (Hw5 : workers s5 !! wk = Some (DBlock k rk.2)).
  { cbn [workers s5]. apply list_lookup_insert_eq.
    rewrite Hws4, length_insert. exact Hltk. }
  pose proof (d_step_block_bad s5 wk k rk.2 err eq_refl Hw5 Hbad) as Hs6.
  pose proof (d_step_inv s5 wk HI5) as HI6. rewrite Hs6 in HI6.
  set (s6 := mkState (outBuf s5) (setErr (firstErr s5) err) (count s5)
               (<[wk := DQuit]> (workers s5)) false) in *.
  assert (Hq6 : workers s6 !! wk = Some DQuit).
  { cbn [workers s6]. apply list_lookup_insert_eq.
    cbn [workers s5]. rewrite length_insert, Hws4, length_insert. exact Hltk. }
  assert (Hq0 : workers s6 !! w0 = Some DWaiting).
  { cbn [workers s6 s5]. rewrite !list_lookup_insert_ne by auto.
    rewrite Hws4. rewrite list_lookup_insert_ne by auto.
    cbn [workers s3]. now apply list_lookup_insert_eq. }
  exists (replicate (2 * c0) w0 ++ [w0; w0] ++ replicate (2 * ck) wk ++ [wk; wk]).
  intros more.
  assert (Hrun : run h compData offs T s0
            ((replicate (2 * c0) w0 ++ [w0; w0] ++ replicate (2 * ck) wk
              ++ [wk; wk]) ++ more)
          = run h compData offs T s6 more).
  { unfold run. rewrite !fold_left_app. cbn [fold_left].
    fold (run h compData offs T s0 (replicate (2 * c0) w0)). fold s1.
    rewrite Hs2. fold s2. rewrite Hs3. fold s3.
    fold (run h compData offs T s3 (replicate (2 * ck) wk)). fold s4.
    rewrite Hs5. fold s5. rewrite Hs6. reflexivity. }
  rewrite Hrun. exact (d_stuck_run more s6 w0 wk HI6 Hq0 Hq6).
Qed.

End BspdRun.

(** ** The payload of a container *)


Lemma totalSize_sum (sizes : list Z) :
  Forall (fun s => 0 <= s) sizes -> sumSizes sizes < 2 ^ 64 ->
  totalSize sizes = sumSizes sizes.
Proof.
  unfold totalSize.
  assert (H : forall acc, 0 <= acc -> Forall (fun s => 0 <= s) sizes ->
            acc + sumSizes sizes < 2 ^ 64 ->
            fold_left (fun total s => uint64 (total + s)) sizes acc
            = acc + sumSizes sizes).
  { induction sizes as [|s sizes IH]; intros acc Hacc Hall Hsum;
      unfold sumSizes in *; cbn [fold_left foldr] in *; [lia |].
    apply Forall_cons in Hall as [Hs Hall].
    assert (0 <= foldr Z.add 0 sizes).
    { clear -Hall. induction Hall; cbn [foldr]; lia. }
    rewrite uint64_small by lia. rewrite IH by (auto; lia). lia. }
  intros Hall Hsum. rewrite H by (auto; lia). lia.
Qed.

Lemma sumSizes_nonneg (sizes : list Z) :
  Forall (fun s => 0 <= s) sizes -> 0 <= sumSizes sizes.
Proof. unfold sumSizes. induction 1; cbn [foldr]; lia. Qed.

Lemma sumSizes_len (encs : list (list byte)) :
  sumSizes (map len encs) = len (concat encs).
Proof.
  unfold sumSizes. induction encs as [|e encs IH]; [reflexivity |].
  cbn [map foldr concat]. rewrite len_app, IH. reflexivity.
Qed.

Lemma bspOffsets_spec (sizes : list Z) :
  forall doneS rest doneO todoO cur,
  sizes = doneS ++ rest -> Forall (fun s => 0 <= s) rest ->
  length todoO = length rest ->
  len doneO = len doneS -> 0 <= cur -> cur + sumSizes rest < 2 ^ 64 ->
  bspOffsets (length rest) sizes (len doneS) cur (doneO ++ todoO)
  = Done (doneO ++ offsetsOf rest cur).
Proof.
  intros doneS rest. revert doneS.
  induction rest as [|s rest IH]; intros doneS doneO todoO cur Hs Hall Hl Hd Hc Hsum.
  - destruct todoO; [| discriminate]. reflexivity.
  - destruct todoO as [|x todoO]; [discriminate |].
    apply Forall_cons in Hall as [Hs0 Hall].
    pose proof (sumSizes_nonneg rest Hall) as Hnn.
    unfold sumSizes in Hsum. cbn [foldr] in Hsum. fold (sumSizes rest) in Hsum.
    cbn [length bspOffsets offsetsOf].
    rewrite (store_app_here doneO todoO x cur) by exact Hd. cbn [bind].
    assert (Hidx : index sizes (len doneS) = Done s).
    { rewrite Hs. apply index_app_here. }
    rewrite Hidx. cbn [bind]. rewrite uint64_small by lia.
    replace (len doneS + 1) with (len (doneS ++ [s]))
      by (rewrite len_app; reflexivity).
    change (doneO ++ cur :: todoO) with (doneO ++ [cur] ++ todoO).
    rewrite app_assoc.
    rewrite (IH (doneS ++ [s]) (doneO ++ [cur]) todoO (cur + s)).
    + now rewrite <- app_assoc.
    + rewrite Hs, <- app_assoc. reflexivity.
    + exact Hall.
    + cbn [length] in Hl. lia.
    + rewrite !len_app. unfold len at 2 4. cbn [length]. lia.
    + lia.
    + lia.
Qed.

Lemma offsetsOf_lookup (encs : list (list byte)) :
  forall cur i e, encs !! i = Some e ->
  offsetsOf (map len encs) cur !! i = Some (cur + len (concat (take i encs))).
Proof.
  induction encs as [|x encs IH]; intros cur [|i] e Hi; try discriminate.
  - cbn. f_equal. unfold len. simpl. lia.
  - cbn [map offsetsOf]. change ((?a :: ?l) !! S i) with (l !! i).
    rewrite (IH (cur + len x) i e Hi). f_equal.
    cbn [take concat]. rewrite len_app. lia.
Qed.

Lemma offsetsOf_length (sizes : list Z) :
  forall cur, length (offsetsOf sizes cur) = length sizes.
Proof.
  induction sizes as [|s sizes IH]; intros cur; cbn [offsetsOf length];
    [reflexivity | now rewrite IH].
Qed.

Lemma concat_split (encs : list (list byte)) (i : nat) (e : list byte) :
  encs !! i = Some e ->
  concat encs = concat (take i encs) ++ e ++ concat (drop (S i) encs).
Proof.
  intros Hi. rewrite <- (take_drop_middle encs i e Hi) at 1.
  rewrite concat_app. reflexivity.
Qed.

Lemma slice_app (a e z : list byte) :
  slice (a ++ e ++ z) (len a) (len a + len e) = Done e.
Proof.
  unfold slice. rewrite !len_app.
  pose proof (len_nonneg a). pose proof (len_nonneg e). pose proof (len_nonneg z).
  destruct (Z.ltb_spec (len a) 0); [lia |].
  destruct (Z.ltb_spec (len a + len e) (len a)); [lia |].
  destruct (Z.ltb_spec (len a + (len e + len z)) (len a + len e)); [lia |].
  cbn [orb]. f_equal.
  replace (Z.to_nat (len a)) with (length a) by (unfold len; lia).
  rewrite drop_app_length.
  replace (Z.to_nat (len a + len e - len a)) with (length e) by (unfold len; lia).
  now rewrite take_app_length.
Qed.

Lemma slice_concat (encs : list (list byte)) (i : nat) (e : list byte) :
  encs !! i = Some e ->
  slice (concat encs) (len (concat (take i encs)))
        (len (concat (take i encs)) + len e) = Done e.
Proof.
  intros Hi. rewrite (concat_split encs i e Hi) at 1. apply slice_app.
Qed.

Section Payload.
Variables (h : FileHeader) (encs : list (list byte)) (data : list byte)
  (N bs : Z).
Hypothesis HN : 1 <= N.
Hypothesis Hbs : 0 < bs < 2 ^ 32.
Hypothesis HL : 0 < len data < 2 ^ 62.
Hypothesis Hn : bs * (N - 1) < len data <= bs * N.
Hypothesis HhN : NumBlocks h = N.
Hypothesis HhL : OriginalSize h = len data.
Hypothesis Hhbs : BlockSize h = bs.
Hypothesis Hsizes : BlockCompSizes h = map len encs.
Hypothesis HlenE : len encs = N.
Hypothesis Hpay : len (concat encs) < 2 ^ 63.

Lemma blockAt_payload (idx : Z) (e : list byte) :
  0 <= idx -> encs !! Z.to_nat idx = Some e ->
  BSPD.blockAt h (concat encs) (offsetsOf (map len encs) 0) idx
  = BSPD.decodeComp h idx e.
Proof using All.
  intros Hidx He. unfold BSPD.blockAt.
  assert (Hlt : (Z.to_nat idx < length encs)%nat) by (eapply lookup_lt_Some; exact He).
  pose proof (offsetsOf_lookup encs 0 _ _ He) as Hoff. rewrite Z.add_0_l in Hoff.
  assert (Hio : index (offsetsOf (map len encs) 0) idx
                = Done (len (concat (take (Z.to_nat idx) encs)))).
  { apply index_Done_iff. split; [lia | exact Hoff]. }
  rewrite Hio. cbn [bind]. rewrite Hsizes.
  assert (His : index (map len encs) idx = Done (len e)).
  { apply index_Done_iff. split; [lia |].
    rewrite list_lookup_fmap, He. reflexivity. }
  rewrite His. cbn [bind].
  pose proof (len_nonneg (concat (take (Z.to_nat idx) encs))) as H1.
  pose proof (len_nonneg e) as H2.
  assert (Hle : len (concat (take (Z.to_nat idx) encs)) + len e
                <= len (concat encs)).
  { rewrite (concat_split encs _ e He) at 1. rewrite !len_app.
    pose proof (len_nonneg (concat (drop (S (Z.to_nat idx)) encs))). lia. }
  rewrite uint64_small by lia.
  rewrite (slice_concat encs _ e He). reflexivity.
Qed.

Lemma decodeComp_good (idx : Z) (e : list byte) :
  0 <= idx < N -> encodeBlock (blockOfData data bs idx) = Done e ->
  BSPD.decodeComp h idx e = Done (blockOfData data bs idx).
Proof using All.
  intros Hidx He.
  pose proof (expected_len h data N bs HN Hbs HL Hn HhN HhL Hhbs idx Hidx) as Hexp.
  pose proof (len_nonneg (blockOfData data bs idx)) as Hb0.
  destruct (encodeBlock_decodable (blockOfData data bs idx))
    as (e' & He' & Hlen & Hcase).
  rewrite He in He'. injection He' as <-.
  unfold BSPD.decodeComp. rewrite Hexp.
  destruct (Z.eqb_spec (len e) 0); [lia |].
  destruct Hcase as [-> | (tokens & -> & Hdec)]; rewrite index_head; cbn [bind drop].
  - change (Byte.eqb "255" "255") with true. cbv iota.
    rewrite drop_0, Z.eqb_refl. reflexivity.
  - change (Byte.eqb "000" "255") with false.
    change (Byte.eqb "000" "000") with true. cbv iota.
    rewrite drop_0.
    destruct (Z.ltb_spec (len (blockOfData data bs idx)) 0); [lia |].
    now rewrite Hdec.
Qed.

Lemma decodeComp_unknown (idx : Z) (m : byte) (rest : list byte) :
  m <> "255"%byte -> m <> "000"%byte ->
  BSPD.decodeComp h idx (m :: rest) = Fail (ErrUnknownMode m idx).
Proof using All.
  intros H255 H0. unfold BSPD.decodeComp.
  assert (Hl : (len (m :: rest) =? 0) = false).
  { apply Z.eqb_neq. unfold len. cbn [length]. lia. }
  rewrite Hl, index_head. cbn [bind].
  destruct (Byte.eqb m "255") eqn:E1; [apply Byte.byte_dec_bl in E1; contradiction |].
  destruct (Byte.eqb m "000") eqn:E2; [apply Byte.byte_dec_bl in E2; contradiction |].
  reflexivity.
Qed.

(** What [bspDecodePayload] does on the payload [concat encs], followed by
    anything: the run of the workers, then the error or the output. *)
Lemma bspDecodePayload_run (junk : list byte) (threads : Z) (sched : list nat) :
  1 <= threads ->
  let T := if N <? threads then N else threads in
  let s := BSPD.run h (concat encs) (offsetsOf (map len encs) 0) T
             (BSPD.start (len data) N T) sched in
  bspDecodePayload sched h (concat encs ++ junk) threads
  = if BSPD.crashed s then Panic else
    if negb (forallb BSPD.returned (BSPD.workers s)) then OutOfFuel else
    match BSPD.firstErr s with
    | Some e => Fail e
    | None => Done (BSPD.outBuf s)
    end.
Proof using All.
  intros Hth T s. unfold bspDecodePayload.
  assert (Hnn : Forall (fun s => 0 <= s) (map len encs)).
  { apply Forall_fmap, Forall_forall. intros e _. apply len_nonneg. }
  pose proof (len_nonneg (concat encs)) as Hc0.
  assert (Htot : totalSize (BlockCompSizes h) = len (concat encs)).
  { rewrite Hsizes, totalSize_sum; [apply sumSizes_len | exact Hnn |].
    rewrite sumSizes_len. lia. }
  rewrite Htot. destruct (Z.leb_spec (2 ^ 63) (len (concat encs))); [lia |].
  rewrite (readFull_app (concat encs) junk) by reflexivity.
  assert (N <= len data) by nia.
  rewrite HhN, HhL, (int64_small N), (int64_small (len data)) by lia.
  destruct (Z.ltb_spec N 0); [lia |].
  assert (HNe : length encs = Z.to_nat N) by (unfold len in HlenE; lia).
  pose proof (bspOffsets_spec (map len encs) [] (map len encs) []
    (replicate (Z.to_nat N) 0) 0 eq_refl Hnn
    ltac:(now rewrite length_replicate, length_map) eq_refl ltac:(lia)
    ltac:(rewrite sumSizes_len; lia)) as Hoff.
  rewrite length_map, HNe in Hoff. cbn [app] in Hoff.
  change (len (@nil Z)) with 0 in Hoff.
  rewrite Hsizes, Hoff. cbn [bind].
  destruct (Z.ltb_spec (len data) 0); [lia |].
  fold T. destruct (Z.leb_spec T 0); [unfold T in *; destruct (N <? threads); lia |].
  reflexivity.
Qed.

End Payload.

Lemma encodedBlocks_lookup (bs : Z) (m : nat) :
  0 <= bs ->
  forall r k e, encodedBlocks m bs r !! k = Some e ->
  encodeBlock (blockOfData r bs (Z.of_nat k)) = Done e.
Proof.
  intros Hbs. unfold blockOfData.
  induction m as [|m IH]; intros r k e; cbn [encodedBlocks]; [discriminate |].
  destruct (encodeBlock_decodable (take (Z.to_nat bs) r)) as (e0 & He0 & _).
  rewrite He0. destruct k as [|k].
  - intros [= <-]. change (Z.to_nat (Z.of_nat 0 * bs)) with 0%nat.
    now rewrite drop_0.
  - intros Hk. apply IH in Hk. rewrite drop_drop in Hk.
    replace (Z.to_nat (Z.of_nat (S k) * bs))
      with (Z.to_nat bs + Z.to_nat (Z.of_nat k * bs))%nat by nia.
    exact Hk.
Qed.

Section GoodContainer.
Variables (h : FileHeader) (encs : list (list byte)) (data : list byte)
  (N bs : Z).
Hypothesis HN : 1 <= N.
Hypothesis Hbs : 0 < bs < 2 ^ 32.
Hypothesis HL : 0 < len data < 2 ^ 62.
Hypothesis Hn : bs * (N - 1) < len data <= bs * N.
Hypothesis HhN : NumBlocks h = N.
Hypothesis HhL : OriginalSize h = len data.
Hypothesis Hhbs : BlockSize h = bs.
Hypothesis Hsizes : BlockCompSizes h = map len encs.
Hypothesis HlenE : len encs = N.
Hypothesis Hpay : len (concat encs) < 2 ^ 63.
Hypothesis Hgood : forall k e, encs !! k = Some e ->
  encodeBlock (blockOfData data bs (Z.of_nat k)) = Done e.

Lemma good_blockAt (idx : Z) :
  0 <= idx < N ->
  BSPD.blockAt h (concat encs) (offsetsOf (map len encs) 0) idx
  = Done (blockOfData data bs idx).
Proof using All.
  intros Hidx.
  destruct (lookup_lt_is_Some_2 encs (Z.to_nat idx)) as [e He];
    [unfold len in HlenE; lia |].
  rewrite (blockAt_payload h encs data N bs HN Hbs HL Hn HhN HhL Hhbs Hsizes
             HlenE Hpay idx e ltac:(lia) He).
  apply (decodeComp_good h encs data N bs HN Hbs HL Hn HhN HhL Hhbs Hsizes
           HlenE Hpay idx e Hidx).
  specialize (Hgood _ _ He). now rewrite Z2Nat.id in Hgood by lia.
Qed.

Lemma bspDecodePayload_good (threads : Z) (sched : list nat) :
  1 <= threads ->
  (bspDecodePayload sched h (concat encs) threads = OutOfFuel \/
   bspDecodePayload sched h (concat encs) threads = Done data) /\
  exists more,
    bspDecodePayload (sched ++ more) h (concat encs) threads = Done data.
Proof using All.
  intros Hth.
  set (T := if N <? threads then N else threads).
  assert (HT : 1 <= T) by (unfold T; destruct (N <? threads); lia).
  destruct (bspChunkSize_ceil N T ltac:(lia) HT) as (_ & Hc1 & Hcov).
  set (offs := offsetsOf (map len encs) 0).
  assert (Hres : forall idx, 0 <= idx < N ->
            BSPD.blockAt h (concat encs) offs idx = Done (blockOfData data bs idx) \/
            exists e, BSPD.blockAt h (concat encs) offs idx = Fail e).
  { intros idx Hidx. left. now apply good_blockAt. }
  assert (HI : forall sc, BSPD.Inv h (concat encs) offs data N T
                 (bspChunkSize N T) bs
                 (BSPD.run h (concat encs) offs T (BSPD.start (len data) N T) sc)).
  { intros sc.
    apply (d_run_inv h (concat encs) offs data N T (bspChunkSize N T) bs);
      try assumption; try lia.
    apply (d_start_Inv h (concat encs) offs data N T (bspChunkSize N T) bs);
      try assumption; try lia. }
  assert (Hrun : forall sc,
    bspDecodePayload sc h (concat encs) threads
    = if forallb BSPD.returned
           (BSPD.workers (BSPD.run h (concat encs) offs T
                            (BSPD.start (len data) N T) sc))
      then Done data else OutOfFuel).
  { intros sc.
    pose proof (bspDecodePayload_run h encs data N bs HN Hbs HL Hn HhN HhL Hhbs
                  Hsizes HlenE Hpay [] threads sc Hth) as Hr.
    cbv zeta in Hr. rewrite app_nil_r in Hr. rewrite Hr. fold T offs.
    pose proof (HI sc) as HIs.
    destruct HIs as (Hcr & HIrest). rewrite Hcr.
    destruct (forallb _ _) eqn:Hd; [| reflexivity]. cbn [negb].
    assert (Hnone : BSPD.firstErr
              (BSPD.run h (concat encs) offs T (BSPD.start (len data) N T) sc)
              = None).
    { destruct HIrest as (_ & _ & _ & _ & Herr & _).
      destruct (BSPD.firstErr _) as [e|]; [| reflexivity].
      destruct (Herr e eq_refl) as (idx & Hidx & Hf).
      rewrite good_blockAt in Hf by exact Hidx. discriminate. }
    rewrite Hnone. f_equal.
    apply (d_returned_data h (concat encs) offs data N T (bspChunkSize N T) bs);
      try assumption; try lia.
    apply HI. }
  split.
  - rewrite Hrun. destruct (forallb _ _); auto.
  - destruct (d_run_completes h (concat encs) offs data N T (bspChunkSize N T) bs
                HN HT Hc1 ltac:(lia) Hbs HL Hn HhN HhL Hhbs Hres _
                good_blockAt _ (HI sched) (Nat.le_refl _)) as [more Hmore].
    exists more. rewrite Hrun. unfold BSPD.run in *.
    rewrite fold_left_app. now rewrite Hmore.
Qed.

End GoodContainer.

(** A container written by the compressor is given back by the BSP
    decompressor, whatever the thread count and however the workers are
    scheduled.  Under a scheduler that ends before all workers have returned
    the call has no result yet; every scheduler can be continued so that the
    call returns, and what it returns is the data, with no error.  No run
    panics, and none ends with workers waiting at the barrier. *)
Theorem bsp_decompress_round_trip (name data : list byte) (bs : Z) :
  len name <= 65535 -> 0 < bs < 2 ^ 32 -> len data < 2 ^ 62 ->
  exists file,
    SequentialCompressFile name bs data = Done (Some file, None) /\
    forall threads sched,
      (BSPDecompressFile (bspDecodePayload sched) file threads = OutOfFuel \/
       BSPDecompressFile (bspDecodePayload sched) file threads = Done data) /\
      exists more,
        BSPDecompressFile (bspDecodePayload (sched ++ more)) file threads
        = Done data.
Proof.
  intros Hname Hbs Hdata.
  destruct (SequentialCompressFile_spec name data bs Hname Hbs Hdata) as [Hv Hc].
  set (n := numBlocksOf (len data) bs) in *.
  set (encs := encodedBlocks (Z.to_nat n) bs data) in *.
  set (h := mkFileHeader name (len data) bs n (map len encs)) in *.
  eexists. split; [exact Hc |].
  destruct (ReadHeader_written h (concat encs) Hv) as [_ Hread].
  pose proof (len_nonneg data) as HL0.
  destruct (numBlocksOf_ceil (len data) bs Hbs ltac:(lia)) as (_ & Hceil & Hn0).
  fold n in Hceil, Hn0.
  intros threads sched. unfold BSPDecompressFile. rewrite Hread.
  change (OriginalSize h) with (len data). change (NumBlocks h) with n.
  destruct (Z.eqb_spec (len data) 0) as [Hz|Hnz].
  { cbn [orb]. assert (data = []) by (destruct data; [reflexivity | discriminate]).
    subst data. split; [now right | exists []; reflexivity]. }
  destruct (Z.eqb_spec n 0) as [Hz|Hnz']; [lia |]. cbn [orb].
  apply (bspDecodePayload_good h encs data n bs); try reflexivity; try lia.
  - unfold len, encs. rewrite encodedBlocks_length. lia.
  - destruct (encodedBlocks_total bs (Z.to_nat n) ltac:(lia) data) as [_ Hle].
    fold encs in Hle. lia.
  - intros k e Hk. apply (encodedBlocks_lookup bs (Z.to_nat n)); [lia | exact Hk].
  - destruct (Z.leb_spec threads 0); lia.
Qed.

Lemma bsp_decompress_round_trip_witness :
  exists file,
    SequentialCompressFile ["f"%byte] 4 (replicate 10 "a"%byte)
    = Done (Some file, None) /\
    forall threads sched,
      (BSPDecompressFile (bspDecodePayload sched) file threads = OutOfFuel \/
       BSPDecompressFile (bspDecodePayload sched) file threads
       = Done (replicate 10 "a"%byte)) /\
      exists more,
        BSPDecompressFile (bspDecodePayload (sched ++ more)) file threads
        = Done (replicate 10 "a"%byte).
Proof.
  apply (bsp_decompress_round_trip ["f"%byte] (replicate 10 "a"%byte) 4).
  - unfold len. simpl. lia.
  - lia.
  - unfold len. simpl. lia.
Defined.

(** ** A container with a bad block *)


Lemma corruptMode_sizes (encs : list (list byte)) (k : nat) (m : byte) :
  Forall (fun e => 1 <= len e) encs ->
  map len (corruptMode encs k m) = map len encs.
Proof.
  intros Hall. unfold corruptMode.
  destruct (encs !! k) as [e|] eqn:He; [| reflexivity].
  rewrite list_fmap_insert.
  apply list_insert_id. rewrite list_lookup_fmap, He. cbn. f_equal.
  pose proof (proj1 (Forall_lookup _ _) Hall _ _ He) as H1. simpl in H1.
  destruct e; [unfold len in H1; simpl in H1; lia |].
  cbn [drop]. rewrite drop_0. reflexivity.
Qed.

Lemma corruptMode_lookup (encs : list (list byte)) (k : nat) (m : byte)
  (e : list byte) :
  encs !! k = Some e ->
  corruptMode encs k m !! k = Some (m :: drop 1 e) /\
  forall j, j <> k -> corruptMode encs k m !! j = encs !! j.
Proof.
  intros He. unfold corruptMode. rewrite He.
  split; [apply list_lookup_insert_eq; eapply lookup_lt_Some; exact He |].
  intros j Hj. now apply list_lookup_insert_ne.
Qed.

(** With two or more workers a bad block can leave [BSPDecompressFile]
    hanging.  Take a container the compressor wrote, of two blocks or more,
    and replace the mode byte of one block by a byte that is no mode.  Then
    there is a scheduler under which one worker is through its blocks and
    waits at the barrier when the bad block is met; the worker that meets it
    returns without going to the barrier, the barrier is never full, and
    however the run goes on [wg.Wait()] does not return: the call gives
    neither the error nor an output. *)
Theorem bsp_decompress_can_hang (name data : list byte) (bs threads : Z)
  (k : nat) (m : byte) :
  len name <= 65535 -> 0 < bs < 2 ^ 32 -> len data < 2 ^ 62 ->
  let n := numBlocksOf (len data) bs in
  let encs := encodedBlocks (Z.to_nat n) bs data in
  let h := mkFileHeader name (len data) bs n (map len encs) in
  2 <= n -> Z.of_nat k < n -> 2 <= threads ->
  m <> "255"%byte -> m <> "000"%byte ->
  SequentialCompressFile name bs data
  = Done (Some ((WriteHeader [] h).1 ++ concat encs), None) /\
  exists sched, forall more,
    BSPDecompressFile (bspDecodePayload (sched ++ more))
      ((WriteHeader [] h).1 ++ concat (corruptMode encs k m)) threads
    = OutOfFuel.
Proof.
  intros Hname Hbs Hdata n encs h Hn2 Hk Hth Hm255 Hm0.
  destruct (SequentialCompressFile_spec name data bs Hname Hbs Hdata) as [Hv Hc].
  fold n encs h in Hv, Hc. split; [exact Hc |].
  pose proof (len_nonneg data) as HL0.
  destruct (numBlocksOf_ceil (len data) bs Hbs ltac:(lia)) as (_ & Hceil & Hn0).
  fold n in Hceil, Hn0.
  assert (HL : 0 < len data < 2 ^ 62) by lia.
  assert (HlenE : len encs = n)
    by (unfold len, encs; rewrite encodedBlocks_length; lia).
  assert (Hleft : blocksLeft bs n (len data) (Z.to_nat n) data).
  { unfold blocksLeft. rewrite Z2Nat.id by lia.
    split; [lia |]. split; [lia |]. intros _. split; lia. }
  assert (Hsz : Forall (fun e => 1 <= len e) encs).
  { pose proof (encodedBlocks_sizes bs n (len data) Hbs HL Hceil _ _ Hleft) as H1.
    fold encs in H1. apply Forall_fmap in H1.
    eapply Forall_impl; [exact H1 |]. simpl. intros e He. lia. }
  set (encs' := corruptMode encs k m).
  assert (Hsizes : BlockCompSizes h = map len encs')
    by (unfold encs'; now rewrite corruptMode_sizes).
  assert (HlenE' : len encs' = n).
  { rewrite <- HlenE. unfold len, encs', corruptMode.
    destruct (encs !! k); [now rewrite length_insert | reflexivity]. }
  assert (Hpay : len (concat encs') < 2 ^ 63).
  { rewrite <- sumSizes_len, <- Hsizes. cbn [BlockCompSizes h].
    rewrite sumSizes_len.
    destruct (encodedBlocks_total bs (Z.to_nat n) ltac:(lia) data) as [_ Hle].
    fold encs in Hle. lia. }
  destruct (lookup_lt_is_Some_2 encs k) as [ek Hek]; [unfold len in HlenE; lia |].
  destruct (corruptMode_lookup encs k m ek Hek) as [Hbadk Hothers].
  fold encs' in Hbadk, Hothers.
  set (offs := offsetsOf (map len encs') 0).
  assert (Hbad : BSPD.blockAt h (concat encs') offs (Z.of_nat k)
                 = Fail (ErrUnknownMode m (Z.of_nat k))).
  { unfold offs.
    rewrite (blockAt_payload h encs' data n bs ltac:(lia) Hbs HL Hceil eq_refl
               eq_refl eq_refl Hsizes HlenE' Hpay (Z.of_nat k) (m :: drop 1 ek)
               ltac:(lia) ltac:(now rewrite Nat2Z.id)).
    apply (decodeComp_unknown h encs' data n bs ltac:(lia) Hbs HL Hceil eq_refl
             eq_refl eq_refl Hsizes HlenE' Hpay); assumption. }
  assert (Hgood : forall j, 0 <= j < n -> j <> Z.of_nat k ->
            BSPD.blockAt h (concat encs') offs j = Done (blockOfData data bs j)).
  { intros j Hj Hjk.
    destruct (lookup_lt_is_Some_2 encs (Z.to_nat j)) as [e He];
      [unfold len in HlenE; lia |].
    assert (He' : encs' !! Z.to_nat j = Some e)
      by (rewrite Hothers by lia; exact He).
    unfold offs.
    rewrite (blockAt_payload h encs' data n bs ltac:(lia) Hbs HL Hceil eq_refl
               eq_refl eq_refl Hsizes HlenE' Hpay j e ltac:(lia) He').
    apply (decodeComp_good h encs' data n bs ltac:(lia) Hbs HL Hceil eq_refl
             eq_refl eq_refl Hsizes HlenE' Hpay j e Hj).
    pose proof (encodedBlocks_lookup bs (Z.to_nat n) ltac:(lia) data _ _ He) as H1.
    now rewrite Z2Nat.id in H1 by lia. }
  assert (Hres : forall idx, 0 <= idx < n ->
            BSPD.blockAt h (concat encs') offs idx = Done (blockOfData data bs idx) \/
            exists e, BSPD.blockAt h (concat encs') offs idx = Fail e).
  { intros idx Hidx. destruct (Z.eq_dec idx (Z.of_nat k)) as [->|Hne];
      [right; eauto | left; now apply Hgood]. }
  set (threads' := if threads <=? 0 then 1 else threads).
  assert (Hth' : threads' = threads)
    by (unfold threads'; destruct (Z.leb_spec threads 0); lia).
  set (T := if n <? threads' then n else threads').
  assert (HT : 2 <= T) by (unfold T; destruct (n <? threads'); lia).
  destruct (bspChunkSize_ceil n T ltac:(lia) ltac:(lia)) as (_ & Hc1 & Hcov).
  set (chunk := bspChunkSize n T) in *.
  (* the worker of block [k], and another one *)
  pose proof (Z.div_mod (Z.of_nat k) chunk ltac:(lia)) as Hdm.
  pose proof (Z.mod_pos_bound (Z.of_nat k) chunk ltac:(lia)) as Hmod.
  assert (Hq : 0 <= Z.of_nat k / chunk) by (apply Z.div_pos; lia).
  assert (Hwk : 0 <= Z.of_nat k / chunk < T) by nia.
  set (wk := Z.to_nat (Z.of_nat k / chunk)).
  set (w0 := if Nat.eqb wk 0 then 1%nat else 0%nat).
  assert (Hw0 : Z.of_nat w0 < T /\ w0 <> wk).
  { unfold w0. destruct (Nat.eqb_spec wk 0); lia. }
  assert (Hown : (bspRange n chunk (Z.of_nat wk)).1 <= Z.of_nat k
                 < (bspRange n chunk (Z.of_nat wk)).2).
  { apply bspRange_owns; [exact Hc1 | lia |]. unfold wk.
    rewrite Z2Nat.id by lia. nia. }
  destruct (d_deadlock h (concat encs') offs data n T chunk bs ltac:(lia)
              ltac:(lia) Hc1 ltac:(lia) Hbs HL Hceil eq_refl eq_refl eq_refl
              Hres w0 wk (Z.of_nat k) _ eq_refl HT (proj1 Hw0)
              ltac:(unfold wk; lia) (proj2 Hw0) Hown Hbad Hgood)
    as [sched Hstuck].
  exists sched. intros more.
  destruct (ReadHeader_written h (concat encs') Hv) as [_ Hread].
  unfold BSPDecompressFile. rewrite Hread. fold threads'.
  change (OriginalSize h) with (len data). change (NumBlocks h) with n.
  destruct (Z.eqb_spec (len data) 0); [lia |].
  destruct (Z.eqb_spec n 0); [lia |]. cbn [orb].
  pose proof (bspDecodePayload_run h encs' data n bs ltac:(lia) Hbs HL Hceil
                eq_refl eq_refl eq_refl Hsizes HlenE' Hpay [] threads'
                (sched ++ more) ltac:(lia)) as Hr.
  cbv zeta in Hr. rewrite app_nil_r in Hr. rewrite Hr. fold T offs.
  destruct (Hstuck more) as [Hcr Hnot]. rewrite Hcr, Hnot. reflexivity.
Qed.

Lemma bsp_decompress_can_hang_witness :
  let file :=
    match SequentialCompressFile ["f"%byte] 4 (replicate 10 "a"%byte) with
    | Done (Some file, None) => file
    | _ => []
    end in
  SequentialDecompressFile (<[56%nat := "007"%byte]> file)
  = Fail (ErrUnknownMode "007" 1) /\
  BSPDecompressFile (bspDecodePayload [0; 0; 0; 0; 1; 1]%nat)
    (<[56%nat := "007"%byte]> file) 2
  = Fail (ErrUnknownMode "007" 1) /\
  exists sched, forall more,
    BSPDecompressFile (bspDecodePayload (sched ++ more))
      (<[56%nat := "007"%byte]> file) 2
    = OutOfFuel.
Proof.
  intros file. split; [vm_compute; reflexivity |].
  split; [vm_compute; reflexivity |].
  exact (proj2 (bsp_decompress_can_hang ["f"%byte] (replicate 10 "a"%byte) 4 2
                  1 "007"%byte ltac:(unfold len; simpl; lia) ltac:(lia)
                  ltac:(unfold len; simpl; lia) ltac:(vm_compute; discriminate)
                  ltac:(vm_compute; reflexivity) ltac:(lia)
                  ltac:(discriminate) ltac:(discriminate))).
Defined.
